(** * Specification compiler and traceability auditor

    A shallow embedding of [scripts/api-gen.js] (the OpenAPI generator:
    manifest validation, rule-corpus scan, source mapping, spec assembly,
    linting, breaking-change detection, rule parsing, the search for
    rule documents), of [scripts/source-map-consumer.js] (the directive,
    the VLQ decoder, the lookup of an original location) and of
    [scripts/audit-traceability.ts] (the traceability auditor), with the
    properties the specification states about them and further
    properties of the code. *)

From Stdlib Require Import List String Ascii Bool ZArith Lia PeanoNat.
From Stdlib Require Import DecimalString PrimFloat FloatAxioms.
Import ListNotations.

Set Warnings "-register-all".

Local Open Scope string_scope.
Local Open Scope list_scope.

(* ===================================================================== *)
(** * JavaScript values *)
(* ===================================================================== *)

Module Js.

(** The values that a parsed YAML or JSON document is made of, plus
    [undefined], which property access yields for an absent property.
    Text is a sequence of bytes (UTF-8); numeric scalars are integers.
    An object holds its own enumerable properties in enumeration order. *)
Inductive value : Type :=
| VUndef
| VNull
| VBool (b : bool)
| VNum (n : Z)
| VStr (s : string)
| VArr (items : list value)
| VObj (props : list (string * value)).

(** An induction principle that reaches the values nested in arrays and
    objects. *)
Fixpoint value_nested_ind (P : value -> Prop)
    (Hundef : P VUndef) (Hnull : P VNull)
    (Hbool : forall b, P (VBool b)) (Hnum : forall n, P (VNum n))
    (Hstr : forall s, P (VStr s))
    (Harr : forall l, Forall P l -> P (VArr l))
    (Hobj : forall kvs, Forall (fun kv => P (snd kv)) kvs -> P (VObj kvs))
    (v : value) {struct v} : P v :=
  match v with
  | VUndef => Hundef
  | VNull => Hnull
  | VBool b => Hbool b
  | VNum n => Hnum n
  | VStr s => Hstr s
  | VArr l =>
      Harr l ((fix go (l : list value) : Forall P l :=
                 match l with
                 | [] => Forall_nil P
                 | x :: tl =>
                     Forall_cons x
                       (value_nested_ind P Hundef Hnull Hbool Hnum Hstr Harr Hobj x)
                       (go tl)
                 end) l)
  | VObj kvs =>
      Hobj kvs ((fix go (l : list (string * value))
                   : Forall (fun kv => P (snd kv)) l :=
                   match l with
                   | [] => Forall_nil _
                   | kv :: tl =>
                       Forall_cons kv
                         (value_nested_ind P Hundef Hnull Hbool Hnum Hstr Harr Hobj (snd kv))
                         (go tl)
                   end) kvs)
  end.

(** [ToBoolean]: [undefined], [null], [false], [0] and [""] are falsy. *)
Definition truthy (v : value) : bool :=
  match v with
  | VUndef | VNull => false
  | VBool b => b
  | VNum n => negb (n =? 0)%Z
  | VStr s => negb (s =? "")
  | VArr _ | VObj _ => true
  end.

Definition isArray (v : value) : bool :=
  match v with VArr _ => true | _ => false end.

(** [a || b] on values. *)
Definition or_else (a b : value) : value := if truthy a then a else b.

(** The names that every plain object inherits from [Object.prototype]:
    under one of them [obj[k]] finds a built-in member (a function, or
    the prototype itself for [__proto__]) when [obj] has no own property
    of that name. *)
Definition prototype_members : list string :=
  ["constructor"; "__defineGetter__"; "__defineSetter__"; "hasOwnProperty";
   "__lookupGetter__"; "__lookupSetter__"; "isPrototypeOf";
   "propertyIsEnumerable"; "toString"; "valueOf"; "__proto__";
   "toLocaleString"].

Definition inherited (k : string) : bool :=
  existsb (String.eqb k) prototype_members.

(** Own-property lookup in a property list. It is [obj[k]] for the field
    names that the code writes out, none of which is inherited; where a
    key comes from the data, the inherited members are accounted for at
    the place of the lookup. *)
Fixpoint lookup {A : Type} (k : string) (kvs : list (string * A)) : option A :=
  match kvs with
  | [] => None
  | (k', v) :: tl => if k' =? k then Some v else lookup k tl
  end.

(** [obj[k] = v] on a property list: an existing property keeps its place
    and takes the new value, a new property goes last. (Keys that are
    canonical array indices would be enumerated first; tags, paths and
    method names are not.) *)
Fixpoint set_prop {A : Type} (k : string) (v : A) (kvs : list (string * A))
  : list (string * A) :=
  match kvs with
  | [] => [(k, v)]
  | (k', v') :: tl =>
      if k' =? k then (k', v) :: tl else (k', v') :: set_prop k v tl
  end.

Definition keys {A : Type} (kvs : list (string * A)) : list string :=
  map fst kvs.

Definition values {A : Type} (kvs : list (string * A)) : list A :=
  map snd kvs.

(** [Object.assign(target, source)]. *)
Definition assign {A : Type} (target source : list (string * A))
  : list (string * A) :=
  fold_left (fun acc kv => set_prop (fst kv) (snd kv) acc) source target.

(** Decimal text of a natural number, as in a template literal. *)
Definition string_of_nat (n : nat) : string :=
  NilEmpty.string_of_uint (Nat.to_uint n).

Definition string_of_Z (z : Z) : string :=
  match z with
  | Z0 => "0"
  | Zpos p => string_of_nat (Pos.to_nat p)
  | Zneg p => "-" ++ string_of_nat (Pos.to_nat p)
  end.

(** ** Exceptions *)

Inductive error : Type :=
| TypeError (msg : string).

(** The outcome of a computation that may throw. *)
Inductive result (A : Type) : Type :=
| Ok (a : A)
| Throw (e : error).

Arguments Ok {A} a.
Arguments Throw {A} e.

Definition bind {A B : Type} (m : result A) (f : A -> result B) : result B :=
  match m with
  | Ok a => f a
  | Throw e => Throw e
  end.

(** ** Characters and text *)

Definition is_upper (c : ascii) : bool :=
  let n := nat_of_ascii c in (65 <=? n)%nat && (n <=? 90)%nat.

Definition is_lower (c : ascii) : bool :=
  let n := nat_of_ascii c in (97 <=? n)%nat && (n <=? 122)%nat.

Definition is_digit (c : ascii) : bool :=
  let n := nat_of_ascii c in (48 <=? n)%nat && (n <=? 57)%nat.

Fixpoint map_chars (f : ascii -> ascii) (s : string) : string :=
  match s with
  | EmptyString => EmptyString
  | String c r => String (f c) (map_chars f r)
  end.

(** [s.toLowerCase()] and [s.toUpperCase()], on the letters a-z and A-Z. *)
Definition toLowerCase : string -> string :=
  map_chars (fun c => if is_upper c then ascii_of_nat (nat_of_ascii c + 32) else c).

Definition toUpperCase : string -> string :=
  map_chars (fun c => if is_lower c then ascii_of_nat (nat_of_ascii c - 32) else c).

(** [s.startsWith(p)], with the rest of [s] after [p]. *)
Fixpoint strip_prefix (p s : string) : option string :=
  match p, s with
  | EmptyString, _ => Some s
  | String a p', String b s' => if Ascii.eqb a b then strip_prefix p' s' else None
  | String _ _, EmptyString => None
  end.

Fixpoint join (sep : string) (l : list string) : string :=
  match l with
  | [] => EmptyString
  | [x] => x
  | x :: tl => (x ++ sep ++ join sep tl)%string
  end.

(** ** Properties *)

Fixpoint digits_value (acc : nat) (s : string) : option nat :=
  match s with
  | EmptyString => Some acc
  | String c r =>
      if is_digit c then digits_value (10 * acc + (nat_of_ascii c - 48)) r
      else None
  end.

(** The array index a property key denotes, if it is the decimal text of
    one. *)
Definition array_index (k : string) : option nat :=
  match k with
  | EmptyString => None
  | String c r =>
      if Ascii.eqb c "0" then (if r =? "" then Some 0 else None)
      else digits_value 0 k
  end.

(** The elements of a string as values. *)
Definition chars (s : string) : list value :=
  map (fun c => VStr (String c EmptyString)) (list_ascii_of_string s).

Definition element (l : list value) (k : string) : value :=
  if k =? "length" then VNum (Z.of_nat (List.length l))
  else match array_index k with
       | Some i => nth i l VUndef
       | None => VUndef
       end.

(** [v[k]] for a value that is neither [undefined] nor [null]: an own
    property of an object, an element or the length of an array or of a
    string, and [undefined] otherwise. *)
Definition get_own (v : value) (k : string) : value :=
  match v with
  | VObj kvs => match lookup k kvs with Some x => x | None => VUndef end
  | VArr l => element l k
  | VStr s => element (chars s) k
  | _ => VUndef
  end.

(** [v.k]: reading a property of [undefined] or [null] throws. *)
Definition get (v : value) (k : string) : result value :=
  match v with
  | VUndef => Throw (TypeError ("undefined is not an object (reading '" ++ k ++ "')"))
  | VNull => Throw (TypeError ("null is not an object (reading '" ++ k ++ "')"))
  | _ => Ok (get_own v k)
  end.

Definition indexed (l : list value) : list (string * value) :=
  combine (map string_of_nat (seq 0 (List.length l))) l.

(** [Object.entries(v)] for a value that is neither [undefined] nor
    [null]. *)
Definition entries (v : value) : list (string * value) :=
  match v with
  | VObj kvs => kvs
  | VArr l => indexed l
  | VStr s => indexed (chars s)
  | _ => []
  end.

(** [v.k1.k2...kn], evaluated left to right. *)
Fixpoint get_path (v : value) (ks : list string) : result value :=
  match ks with
  | [] => Ok v
  | k :: tl => bind (get v k) (fun x => get_path x tl)
  end.

End Js.

Export Js.

Declare Scope js_scope.
Delimit Scope js_scope with js.
Notation "x <- m ;; k" := (bind m (fun x => k))
  (at level 61, m at next level, right associativity) : js_scope.
Notation "v .[ k1 ; .. ; kn ]" := (get_path v (cons k1 .. (cons kn nil) ..))
  (at level 1, left associativity, format "v .[ k1 ;  .. ;  kn ]") : js_scope.
Local Open Scope js_scope.

(* ===================================================================== *)
(** * Manifest validation *)
(* ===================================================================== *)

Module Validator.

(** [if (cond) errors.push(msg)] *)
Definition push_if (cond : bool) (msg : string) (errors : list string)
  : list string :=
  if cond then errors ++ [msg] else errors.

(** The body of the [forEach] over the endpoints. *)
Definition validate_endpoint (errors : list string) (ep : value) (index : nat)
  : result (list string) :=
  let idx := string_of_nat index in
  path <- ep.["path"] ;;
  let errors := push_if (negb (truthy path))
    ("Endpoint " ++ idx ++ ": missing required field 'path'") errors in
  method <- ep.["method"] ;;
  let errors := push_if (negb (truthy method))
    ("Endpoint " ++ idx ++ ": missing required field 'method'") errors in
  summary <- ep.["summary"] ;;
  let errors := push_if (negb (truthy summary))
    ("Endpoint " ++ idx ++ ": missing required field 'summary'") errors in
  Ok errors.

Fixpoint validate_endpoints (errors : list string) (eps : list value)
    (index : nat) : result (list string) :=
  match eps with
  | [] => Ok errors
  | ep :: tl =>
      errors <- validate_endpoint errors ep index ;;
      validate_endpoints errors tl (S index)
  end.

(** [validateBunYamlStructure(bunYaml)]: the list of violations, or the
    exception that a property read raised on the way. *)
Definition validateBunYamlStructure (bunYaml : value) : result (list string) :=
  let errors := [] in
  (* Required top-level fields *)
  version <- bunYaml.["version"] ;;
  let errors := push_if (negb (truthy version))
    "Missing required field: version" errors in
  rules <- bunYaml.["rules"] ;;
  let errors := push_if (negb (truthy rules))
    "Missing required field: rules" errors in
  (* Required rules structure *)
  header <- bunYaml.["rules"; "header"] ;;
  let errors := push_if (negb (truthy header))
    "Missing required field: rules.header" errors in
  api <- bunYaml.["rules"; "api"] ;;
  let errors := push_if (negb (truthy api))
    "Missing required field: rules.api" errors in
  (* Header validation *)
  errors <-
    (if truthy header then
       schema <- bunYaml.["rules"; "header"; "schema"] ;;
       let errors := push_if (negb (truthy schema))
         "Missing required field: rules.header.schema" errors in
       scope <- bunYaml.["rules"; "header"; "schema"; "scope"] ;;
       let errors := push_if (negb (truthy scope) || negb (isArray scope))
         "rules.header.schema.scope must be an array" errors in
       grep <- bunYaml.["rules"; "header"; "grep"] ;;
       no_patterns <-
         (if negb (truthy grep) then Ok true
          else patterns <- bunYaml.["rules"; "header"; "grep"; "patterns"] ;;
               Ok (negb (truthy patterns))) ;;
       Ok (push_if no_patterns
             "Missing required field: rules.header.grep.patterns" errors)
     else Ok errors) ;;
  (* API validation *)
  if truthy api then
    basePath <- bunYaml.["rules"; "api"; "basePath"] ;;
    let errors := push_if (negb (truthy basePath))
      "Missing required field: rules.api.basePath" errors in
    endpoints <- bunYaml.["rules"; "api"; "endpoints"] ;;
    let errors := push_if (negb (truthy endpoints) || negb (isArray endpoints))
      "rules.api.endpoints must be an array" errors in
    (* Validate endpoints *)
    errors <-
      match endpoints with
      | VArr eps => validate_endpoints errors eps 0
      | _ => Ok errors
      end ;;
    (* Validate OpenAPI config *)
    openapi <- bunYaml.["rules"; "api"; "openapi"] ;;
    if truthy openapi then
      info <- bunYaml.["rules"; "api"; "openapi"; "info"] ;;
      let errors := push_if (negb (truthy info))
        "Missing required field: rules.api.openapi.info" errors in
      title <- bunYaml.["rules"; "api"; "openapi"; "info"; "title"] ;;
      Ok (push_if (negb (truthy title))
            "Missing required field: rules.api.openapi.info.title" errors)
    else Ok errors
  else Ok errors.

(** An endpoint entry with a path, a method and a summary. *)
Definition endpoint_complete (ep : value) : Prop :=
  truthy (get_own ep "path") = true /\
  truthy (get_own ep "method") = true /\
  truthy (get_own ep "summary") = true.

(** A manifest that passes: the shape [bun.yaml] is expected to have. *)
Definition manifest_api : value :=
  VObj [("basePath", VStr "/api");
        ("endpoints",
         VArr [VObj [("path", VStr "/rules/grep"); ("method", VStr "GET");
                     ("summary", VStr "Search rules")]]);
        ("openapi", VObj [("info", VObj [("title", VStr "Citadel API")])])].

Definition manifest_header : value :=
  VObj [("schema", VObj [("scope", VArr [VStr "GOV"; VStr "SEC"])]);
        ("grep", VObj [("patterns", VObj [("all", VStr "\\[[A-Z]+")])])].

Definition manifest_ok : value :=
  VObj [("version", VStr "1.0.0");
        ("rules", VObj [("header", manifest_header); ("api", manifest_api)])].

(** The same manifest with the whole [rules] section missing. *)
Definition manifest_no_rules : value :=
  VObj [("version", VStr "1.0.0")].

(** The same manifest with [rules.header] missing. *)
Definition manifest_no_header : value :=
  VObj [("version", VStr "1.0.0"); ("rules", VObj [("api", manifest_api)])].

(** The same manifest with [rules.header.schema] missing. *)
Definition manifest_no_schema : value :=
  VObj [("version", VStr "1.0.0");
        ("rules",
         VObj [("header",
                VObj [("grep", VObj [("patterns", VObj [("all", VStr "x")])])]);
               ("api", manifest_api)])].

(** The manifest that passes, without its [rules.api.openapi] section. *)
Definition manifest_no_openapi : value :=
  VObj [("version", VStr "1.0.0");
        ("rules",
         VObj [("header", manifest_header);
               ("api",
                VObj [("basePath", VStr "/api");
                      ("endpoints",
                       VArr [VObj [("path", VStr "/rules/grep");
                                   ("method", VStr "GET");
                                   ("summary", VStr "Search rules")]])])])].

(** A manifest with several independent violations. *)
Definition manifest_many : value :=
  VObj [("rules",
         VObj [("header", VObj [("schema", VObj [("scope", VStr "GOV")])]);
               ("api",
                VObj [("endpoints", VArr [VObj [("path", VStr "/a")]; VObj []])])])].

End Validator.

(* ===================================================================== *)
(** * Rule corpus scanner *)
(* ===================================================================== *)

Module Scanner.

(** The tag-to-file index [sources]: rule tag to the path of the rule
    document, in insertion order. *)
Definition index : Type := list (string * string).

(** [[A-Z]+], greedy: the longest run of capitals and what follows it. *)
Fixpoint span_upper (s : string) : string * string :=
  match s with
  | String c r =>
      if is_upper c then
        let (w, r') := span_upper r in (String c w, r')
      else (EmptyString, s)
  | EmptyString => (EmptyString, EmptyString)
  end.

(** A match of [/\[([A-Z]{3}-[A-Z]+-[0-9]{3})\]/] that starts at the head
    of [s]: the matched text, brackets included. The run of capitals is
    followed by a hyphen, which is not a capital, so only the longest run
    can lead to a match. *)
Definition match_tag_at (s : string) : option string :=
  match s with
  | String o (String a (String b (String c (String h r)))) =>
      if Ascii.eqb o "[" && is_upper a && is_upper b && is_upper c
         && Ascii.eqb h "-" then
        match span_upper r with
        | (String w0 w,
           String h' (String d1 (String d2 (String d3 (String e _))))) =>
            if Ascii.eqb h' "-" && is_digit d1 && is_digit d2 && is_digit d3
               && Ascii.eqb e "]" then
              Some (String o (String a (String b (String c (String h
                      (String w0 w ++
                       String h' (String d1 (String d2 (String d3
                         (String e EmptyString)))))))))%string)
            else None
        | _ => None
        end
      else None
  | _ => None
  end.

(** [content.match(re)] for the pattern above, which is not global: the
    leftmost match, if any ([tagsMatch[0]]). *)
Fixpoint first_tag (content : string) : option string :=
  match match_tag_at content with
  | Some tag => Some tag
  | None =>
      match content with
      | String _ r => first_tag r
      | EmptyString => None
      end
  end.




(** The number of substrings of [content] that match the pattern. *)
Fixpoint count_tags (content : string) : nat :=
  (match match_tag_at content with Some _ => 1 | None => 0 end) +
  match content with
  | String _ r => count_tags r
  | EmptyString => 0
  end.

Section Scan.

(** [await file(mdFile).text()]: the text of the file, or [None] when the
    read throws. *)
Variable read_text : string -> option string.

(** The body of the loop of [generateOpenAPI] that fills [sources]. *)
Definition scan_file (sources : index) (mdFile : string) : index :=
  match read_text mdFile with
  | Some content =>
      match first_tag content with
      | Some tag => set_prop tag mdFile sources
      | None => sources
      end
  | None => sources
  end.

(** [sources] after the loop over [mdFiles]. *)
Definition scan_sources (mdFiles : list string) : index :=
  fold_left scan_file mdFiles [].

(** The first tag of a file, when the file can be read and has one. *)
Definition file_tag (mdFile : string) : option string :=
  match read_text mdFile with
  | Some content => first_tag content
  | None => None
  end.

(** What holds of the index after the files [done] are scanned: no tag
    is listed twice, and every entry pairs a scanned file with its first
    tag. *)
Definition index_ok (done : list string) (sources : index) : Prop :=
  NoDup (keys sources) /\
  forall tag f, In (tag, f) sources -> In f done /\ file_tag f = Some tag.

End Scan.

(** ** Sample corpora *)



(** Two rule documents whose first tag is the same. *)
Definition shared_tag_corpus (mdFile : string) : option string :=
  if mdFile =? "/repo/rules/gov/a-headers.md"
  then Some "# [GOV-HEADER-001] Headers"
  else if mdFile =? "/repo/rules/gov/b-headers-v2.md"
  then Some "Supersedes [GOV-HEADER-001], see [GOV-HEADER-002]"
  else None.

End Scanner.

(* ===================================================================== *)
(** * Endpoint declarations *)
(* ===================================================================== *)

Module Manifest.

(** What an endpoint declares under [x-source]. *)
Inductive xsource : Type :=
| XsAbsent                          (* no property, or a falsy value that is not a string *)
| XsArray (patterns : list string)  (* a list of tag patterns *)
| XsString (pattern : string)       (* a single pattern *)
| XsOther.                          (* a truthy value that is neither *)

(** An entry of [rules.api.endpoints] of a validated manifest. *)
Record endpoint : Type := mkEndpoint {
  ep_path : string;
  ep_method : string;
  ep_summary : value;
  ep_description : value;
  ep_tags : option (list string);   (* [None]: no array of tags *)
  ep_operationId : value;
  ep_parameters : value;
  ep_responses : value;
  ep_requestBody : value;
  ep_x_source : xsource;
  ep_extensions : list (string * value)   (* the other own properties *)
}.

End Manifest.

(* ===================================================================== *)
(** * Source mapper *)
(* ===================================================================== *)

Module SourceMapper.
Import Scanner Manifest.

(** [s.includes(sub)] *)
Fixpoint includes (s sub : string) : bool :=
  prefix sub s ||
  match s with
  | String _ r => includes r sub
  | EmptyString => false
  end.

(** [pattern.split('*')[0]]: the text before the first star. *)
Fixpoint before_star (pattern : string) : string :=
  match pattern with
  | EmptyString => EmptyString
  | String c r => if Ascii.eqb c "*" then EmptyString else String c (before_star r)
  end.

(** [Object.entries(sources).filter(([tag, file]) => tag.includes(needle))
      .map(([tag, file]) => file)] *)
Definition matching (sources : index) (needle : string) : list string :=
  map snd (filter (fun entry => includes (fst entry) needle) sources).

(** A file path as a condition: the empty string is falsy. *)
Definition nonempty (f : string) : bool := negb (f =? "").

(** An entry of a provenance list: the file of a tag of the index, or a
    member that the index, a plain object, inherits from
    [Object.prototype] and that a lookup under its name has found. *)
Inductive entry : Type :=
| SourceFile (path : string)
| Inherited (name : string).

(** An entry as a condition: an inherited member is truthy. *)
Definition present (e : entry) : bool :=
  match e with
  | SourceFile f => nonempty f
  | Inherited _ => true
  end.

(** [sources[key]] where the code tests it before use: an own property
    comes before an inherited member of the same name. *)
Definition direct (sources : index) (key : string) : option entry :=
  match lookup key sources with
  | Some f => if nonempty f then Some (SourceFile f) else None
  | None => if inherited key then Some (Inherited key) else None
  end.

(** The function mapped over an array of patterns; [None] is [null]. *)
Definition resolve_pattern (sources : index) (pattern : string)
  : option entry :=
  match direct sources pattern with
  | Some e => Some e
  | None =>
      match matching sources (before_star pattern) with
      | f :: _ => Some (SourceFile f)
      | [] => None
      end
  end.

(** [.filter(Boolean)] on the mapped array. *)
Definition filter_Boolean (l : list (option entry)) : list entry :=
  flat_map (fun o => match o with
                     | Some e => if present e then [e] else []
                     | None => []
                     end) l.

(** [[...new Set(l)]]: first occurrences, in order. *)
Fixpoint unique_from (seen : list string) (l : list string) : list string :=
  match l with
  | [] => []
  | x :: tl =>
      if existsb (String.eqb x) seen then unique_from seen tl
      else x :: unique_from (x :: seen) tl
  end.

Definition unique (l : list string) : list string := unique_from [] l.

(** [.slice(0, 3)] *)
Definition slice_0_3 {A : Type} (l : list A) : list A := firstn 3 l.

(** The fallback on the endpoint's tags and, without tags, on the whole
    index. *)
Definition resolve_by_tags (ep : endpoint) (sources : index) : list string :=
  match ep_tags ep with
  | Some tags =>
      let relevantSources := flat_map (matching sources) tags in
      slice_0_3 (unique relevantSources)
  | None => slice_0_3 (values sources)
  end.

(** [resolveEndpointSources(ep, sources)] *)
Definition resolveEndpointSources (ep : endpoint) (sources : index)
  : list entry :=
  match ep_x_source ep with
  | XsArray patterns =>
      filter_Boolean (map (resolve_pattern sources) patterns)
  | XsString pattern =>
      if nonempty pattern then
        match direct sources pattern with
        | Some e => [e]
        | None => map SourceFile (slice_0_3 (matching sources pattern))
        end
      else map SourceFile (resolve_by_tags ep sources)
  | XsAbsent | XsOther => map SourceFile (resolve_by_tags ep sources)
  end.

(** ** Readings of the first tier *)

(** The reading of tier 1 in the specification: a pattern contributes
    its exact match, and otherwise all the files whose tag contains
    it. *)
Definition tier1_all_matches (sources : index) (patterns : list string)
  : list string :=
  flat_map (fun pattern =>
              match lookup pattern sources with
              | Some f => [f]
              | None => matching sources (before_star pattern)
              end) patterns.

(** What a pattern contributes in the code: the file of the tag equal
    to it; without such a tag, the inherited member of its name if the
    pattern is the name of one; and otherwise the first file whose tag
    contains the text of the pattern before its first star. *)
Definition tier1_first_match (sources : index) (pattern : string)
  : list entry :=
  match lookup pattern sources with
  | Some f => [SourceFile f]
  | None =>
      if inherited pattern then [Inherited pattern]
      else map SourceFile (firstn 1 (matching sources (before_star pattern)))
  end.

(** ** Sample data *)

(** An endpoint with the given hints and nothing else of interest. *)
Definition hinted (xs : xsource) (tags : option (list string)) : endpoint :=
  {| ep_path := "/rules/grep"; ep_method := "GET";
     ep_summary := VStr "Search rules"; ep_description := VUndef;
     ep_tags := tags; ep_operationId := VUndef;
     ep_parameters := VUndef; ep_responses := VUndef; ep_requestBody := VUndef;
     ep_x_source := xs; ep_extensions := [] |}.

Definition sample_index : index :=
  [("[GOV-HEADER-001]", "/repo/rules/gov/gov-header-001.md");
   ("[SEC-LEAK-001]", "/repo/rules/sec/sec-leak-001.md");
   ("[GOV-AUDIT-002]", "/repo/rules/gov/gov-audit-002.md");
   ("[OPS-DEPLOY-001]", "/repo/rules/ops/ops-deploy-001.md")].

End SourceMapper.

(* ===================================================================== *)
(** * Spec assembler *)
(* ===================================================================== *)

Module Assembler.
Import Scanner Manifest SourceMapper.

(** ** The contract document *)

(** An operation of the contract. [op_x_source] is the array under
    [x-source]; [None] stands for a document in which the property is
    absent or is not an array. In the contract that the generator holds
    in memory the array has the entries that the source mapper
    returned. *)
Record operation : Type := mkOperation {
  op_summary : value;
  op_description : value;
  op_tags : option (list string);
  op_operationId : value;
  op_parameters : value;
  op_responses : value;
  op_x_source : option (list entry);
  op_requestBody : value;
  op_extensions : list (string * value)
}.

(** The operations of one path, by method. *)
Definition path_item : Type := list (string * operation).

(** The parts of the contract that the passes below read. *)
Record document : Type := mkDocument {
  doc_info : value;
  doc_paths : list (string * path_item);
  doc_schemas : list (string * value)
}.

(** ** Deep clone *)

(** [JSON.parse(JSON.stringify(v))]: an [undefined] property is dropped,
    an [undefined] element becomes [null]. *)
Fixpoint json_clone (v : value) : value :=
  match v with
  | VArr l =>
      VArr ((fix items (l : list value) : list value :=
               match l with
               | [] => []
               | VUndef :: tl => VNull :: items tl
               | x :: tl => json_clone x :: items tl
               end) l)
  | VObj kvs =>
      VObj ((fix props (l : list (string * value)) : list (string * value) :=
               match l with
               | [] => []
               | (_, VUndef) :: tl => props tl
               | (k, x) :: tl => (k, json_clone x) :: props tl
               end) kvs)
  | _ => v
  end.

(** ** Schema reference resolution *)

Section Resolve.

Variable semanticSchemas : list (string * value).
Variable ruleDefinitions : list (string * value).

(** One property of a schema made from a rule field. *)
Definition field_schema (fieldDef : value) : result value :=
  type <- get fieldDef "type" ;;
  description <- get fieldDef "description" ;;
  required <- get fieldDef "required" ;;
  enum <- get fieldDef "enum" ;;
  Ok (VObj ([("type", or_else type (VStr "string"));
             ("description", description)]
            ++ (if truthy required then [("required", required)] else [])
            ++ (if truthy enum then [("enum", enum)] else []))).

Fixpoint field_schemas (properties : list (string * value))
    (fields : list (string * value)) : result (list (string * value)) :=
  match fields with
  | [] => Ok properties
  | (fieldName, fieldDef) :: tl =>
      sch <- field_schema fieldDef ;;
      field_schemas (set_prop fieldName sch properties) tl
  end.

(** [ruleToSchema(rule)]: the reads of [rule.name] and of the other
    properties throw for a rule that is [null] or [undefined]. *)
Definition ruleToSchema (rule : value) : result value :=
  name <- get rule "name" ;;
  title <- (if truthy name then Ok name else get rule "id") ;;
  description <- get rule "description" ;;
  fields <- get rule "fields" ;;
  properties <- (if truthy fields then field_schemas [] (entries fields)
                 else Ok []) ;;
  Ok (VObj [("type", VStr "object");
            ("title", title);
            ("description", description);
            ("properties", VObj properties)]).

(** The value that replaces a string under the key [$ref]. The two
    registries are read by their own properties: this is the lookup of
    the code for a name that the registry has, and for a name that is not
    [inherited]; the properties below that depend on a lookup say which
    names they are about. *)
Definition resolve_ref (ref : string) : result value :=
  match strip_prefix "#/components/schemas/" ref with
  | Some schemaName =>
      match lookup schemaName semanticSchemas with
      | Some sch => Ok (if truthy sch then sch else VStr ref)
      | None => Ok (VStr ref)
      end
  | None =>
      match strip_prefix "#/rules/" ref with
      | Some ruleName =>
          match lookup ruleName ruleDefinitions with
          | Some rule => if truthy rule then ruleToSchema rule else Ok (VStr ref)
          | None => Ok (VStr ref)
          end
      | None => Ok (VStr ref)
      end
  end.

(** [resolveSchemaReferences(obj, semanticSchemas, ruleDefinitions)]: the
    object after the update in place. *)
Fixpoint resolveSchemaReferences (obj : value) : result value :=
  match obj with
  | VObj kvs =>
      kvs' <- (fix props (l : list (string * value))
                 : result (list (string * value)) :=
                 match l with
                 | [] => Ok []
                 | (key, v) :: tl =>
                     v' <- match v with
                           | VStr ref =>
                               if key =? "$ref" then resolve_ref ref
                               else Ok v
                           | _ => resolveSchemaReferences v
                           end ;;
                     tl' <- props tl ;;
                     Ok ((key, v') :: tl')
                 end) kvs ;;
      Ok (VObj kvs')
  | VArr l =>
      l' <- (fix items (l : list value) : result (list value) :=
               match l with
               | [] => Ok []
               | v :: tl =>
                   v' <- resolveSchemaReferences v ;;
                   tl' <- items tl ;;
                   Ok (v' :: tl')
               end) l ;;
      Ok (VArr l')
  | _ => Ok obj
  end.

End Resolve.

(** ** Operations *)

(** The [x-] properties copied from an endpoint when truthy, in order. *)
Definition extension_names : list string :=
  ["x-priority"; "x-admin"; "x-audit"; "x-encrypt"; "x-security";
   "x-streaming"; "x-websocket"; "x-realtime"; "x-cache"; "x-grep"].

Definition copy_extensions (ext : list (string * value))
  : list (string * value) :=
  flat_map (fun name => match lookup name ext with
                        | Some v => if truthy v then [(name, v)] else []
                        | None => []
                        end) extension_names.

(** The dynamic enum: a parameter named [scope] whose schema declares an
    array [enum] gets the scope list of the manifest. *)
Definition inject_enum (scope : value) (param : value) : result value :=
  schema <- get param "schema" ;;
  if truthy schema then
    enum <- get schema "enum" ;;
    if truthy enum && isArray enum then
      name <- get param "name" ;;
      match name, param, schema with
      | VStr "scope", VObj pprops, VObj sprops =>
          Ok (VObj (set_prop "schema" (VObj (set_prop "enum" scope sprops)) pprops))
      | _, _, _ => Ok param
      end
    else Ok param
  else Ok param.

Fixpoint inject_enums (scope : value) (params : list value)
  : result (list value) :=
  match params with
  | [] => Ok []
  | param :: tl =>
      param' <- inject_enum scope param ;;
      tl' <- inject_enums scope tl ;;
      Ok (param' :: tl')
  end.

(** [for (const param of parameters)]: an array is walked, the characters
    of a string have no schema, any other value is not iterable. *)
Definition inject_dynamic_enums (scope : value) (parameters : value)
  : result value :=
  match parameters with
  | VArr params => l <- inject_enums scope params ;; Ok (VArr l)
  | VStr _ => Ok parameters
  | _ => Throw (TypeError "parameters is not iterable")
  end.

Section Generate.

Variable basePath : string.
Variable scope : value.                       (* [rules.header.schema.scope] *)
Variable semanticSchemas : list (string * value).
Variable ruleDefinitions : list (string * value).
Variable sources : index.

(** The operation that the loop of [generateOpenAPI] makes of an
    endpoint. *)
Definition endpoint_operation (ep : endpoint) : result operation :=
  (* Deep clone and resolve schema references *)
  let parameters :=
    if truthy (ep_parameters ep) then json_clone (ep_parameters ep) else VArr [] in
  let responses :=
    if truthy (ep_responses ep) then json_clone (ep_responses ep) else VObj [] in
  let requestBody :=
    if truthy (ep_requestBody ep) then json_clone (ep_requestBody ep) else VNull in
  parameters <- resolveSchemaReferences semanticSchemas ruleDefinitions parameters ;;
  responses <- resolveSchemaReferences semanticSchemas ruleDefinitions responses ;;
  requestBody <-
    (if truthy requestBody
     then resolveSchemaReferences semanticSchemas ruleDefinitions requestBody
     else Ok requestBody) ;;
  (* Inject dynamic enums from schema *)
  parameters <- inject_dynamic_enums scope parameters ;;
  Ok {| op_summary := ep_summary ep;
        op_description := ep_description ep;
        op_tags := ep_tags ep;
        op_operationId := ep_operationId ep;
        op_parameters := parameters;
        op_responses := responses;
        op_x_source := Some (resolveEndpointSources ep sources);
        op_requestBody := if truthy requestBody then requestBody else VUndef;
        op_extensions := copy_extensions (ep_extensions ep) |}.

(** One turn of the loop: [spec.paths] after the endpoint is mapped. *)
Definition add_endpoint (paths : list (string * path_item)) (ep : endpoint)
  : result (list (string * path_item)) :=
  let path := (basePath ++ ep_path ep)%string in
  let item := match lookup path paths with Some it => it | None => [] end in
  operation <- endpoint_operation ep ;;
  Ok (set_prop path (set_prop (toLowerCase (ep_method ep)) operation item) paths).

(** [spec.paths] after the loop over [api.endpoints]. *)
Fixpoint generate_paths (paths : list (string * path_item))
    (endpoints : list endpoint) : result (list (string * path_item)) :=
  match endpoints with
  | [] => Ok paths
  | ep :: tl =>
      paths <- add_endpoint paths ep ;;
      generate_paths paths tl
  end.

(** An endpoint that declares no parameters, no responses and no request
    body. *)
Definition plain (ep : endpoint) : Prop :=
  truthy (ep_parameters ep) = false /\
  truthy (ep_responses ep) = false /\
  truthy (ep_requestBody ep) = false.

(** Every operation of the generated paths is the operation of one of
    the endpoints. *)
Definition from_endpoints (eps : list endpoint)
    (paths : list (string * path_item)) : Prop :=
  forall path item method op,
    In (path, item) paths -> In (method, op) item ->
    exists ep, In ep eps /\
      endpoint_operation ep = Ok op.

(** ** Schema registry *)

Definition Scope_schema : value :=
  VObj [("type", VStr "string"); ("enum", scope);
        ("description", VStr "Available governance scopes")].

Definition typed (t : string) : value := VObj [("type", VStr t)].

Definition date_time : value :=
  VObj [("type", VStr "string"); ("format", VStr "date-time")].

Definition array_of (t : string) : value :=
  VObj [("type", VStr "array"); ("items", typed t)].

Definition Error_schema : value :=
  VObj [("type", VStr "object");
        ("properties",
         VObj [("error", typed "string"); ("message", typed "string");
               ("timestamp", date_time); ("code", typed "string")])].

Definition ValidationResult_schema : value :=
  VObj [("type", VStr "object");
        ("properties",
         VObj [("valid", typed "boolean"); ("headers", typed "integer");
               ("violations", array_of "string"); ("timestamp", date_time)])].

Definition SearchResult_schema : value :=
  VObj [("type", VStr "object");
        ("properties",
         VObj [("query", typed "string"); ("scope", typed "string");
               ("results", array_of "object"); ("total", typed "integer");
               ("cached", typed "boolean")])].

(** The built-in schemas that are added only when the name is free. *)
Definition guarded_builtins : list (string * value) :=
  [("Error", Error_schema);
   ("ValidationResult", ValidationResult_schema);
   ("SearchResult", SearchResult_schema)].

(** All the names that [generateOpenAPI] defines itself. *)
Definition reserved_builtins : list (string * value) :=
  ("Scope", Scope_schema) :: guarded_builtins.

(** [if (!schemas[name]) schemas[name] = builtin] *)
Definition insert_if_absent (name : string) (builtin : value)
    (schemas : list (string * value)) : list (string * value) :=
  match lookup name schemas with
  | Some v => if truthy v then schemas else set_prop name builtin schemas
  | None => set_prop name builtin schemas
  end.

(** [spec.components.schemas] as [generateOpenAPI] fills it. *)
Definition generate_schemas : list (string * value) :=
  let schemas := [] in                                 (* ??= {} *)
  let schemas := assign schemas semanticSchemas in
  let schemas := set_prop "Scope" Scope_schema schemas in
  let schemas := insert_if_absent "Error" Error_schema schemas in
  let schemas := insert_if_absent "ValidationResult" ValidationResult_schema schemas in
  insert_if_absent "SearchResult" SearchResult_schema schemas.

(** The contract as it stands before the version stamp. *)
Definition generateOpenAPI (info : value) (endpoints : list endpoint)
  : result document :=
  paths <- generate_paths [] endpoints ;;
  Ok {| doc_info := info; doc_paths := paths; doc_schemas := generate_schemas |}.

End Generate.

(** ** Sample data *)

(** The response map of every operation of a contract. *)
Definition response_maps (doc : document)
  : list (string * list (string * value)) :=
  map (fun entry =>
         (fst entry, map (fun mo => (fst mo, op_responses (snd mo))) (snd entry)))
      (doc_paths doc).

(** A rule document that defines its own [Error] schema. *)
Definition corpus_Error : value :=
  VObj [("type", VStr "object");
        ("title", VStr "Error");
        ("properties", VObj [("reason", VObj [("type", VStr "string")])])].

(** An endpoint that declares no responses. *)
Definition ep_no_responses : endpoint :=
  {| ep_path := "/rules/grep"; ep_method := "GET";
     ep_summary := VStr "Search rules"; ep_description := VUndef;
     ep_tags := Some ["GOV"]; ep_operationId := VStr "grepRules";
     ep_parameters := VUndef; ep_responses := VUndef; ep_requestBody := VUndef;
     ep_x_source := XsAbsent; ep_extensions := [] |}.

Definition sample_info : value :=
  VObj [("title", VStr "Citadel API"); ("version", VStr "1.0.0")].

Definition sample_sources : index :=
  [("[GOV-HEADER-001]", "/repo/rules/gov/gov-header-001.md")].

(** An endpoint whose [x-source] is the name of a member of
    [Object.prototype], and the operation that the generator makes of
    such an endpoint. *)
Definition ep_toString : endpoint :=
  {| ep_path := "/rules/grep"; ep_method := "GET";
     ep_summary := VStr "Search rules"; ep_description := VUndef;
     ep_tags := Some ["GOV"]; ep_operationId := VStr "grepRules";
     ep_parameters := VUndef; ep_responses := VUndef; ep_requestBody := VUndef;
     ep_x_source := XsString "toString"; ep_extensions := [] |}.

Definition traced_operation (entries : list entry) : operation :=
  {| op_summary := VStr "Search rules"; op_description := VUndef;
     op_tags := Some ["GOV"]; op_operationId := VStr "grepRules";
     op_parameters := VArr []; op_responses := VObj [];
     op_x_source := Some entries;
     op_requestBody := VUndef; op_extensions := [] |}.

End Assembler.

(* ===================================================================== *)
(** * Linter *)
(* ===================================================================== *)

Module Linter.
Import Assembler.

Record lint_result : Type := mkLint {
  errors : nat;
  warnings : nat;
  issues : list string
}.

Definition add_error (msg : string) (r : lint_result) : lint_result :=
  {| errors := S (errors r); warnings := warnings r; issues := issues r ++ [msg] |}.

Definition add_warning (msg : string) (r : lint_result) : lint_result :=
  {| errors := errors r; warnings := S (warnings r); issues := issues r ++ [msg] |}.

(** [v?.k] *)
Definition get_opt (v : value) (k : string) : value :=
  match v with
  | VUndef | VNull => VUndef
  | _ => get_own v k
  end.

(** The checks on one operation. *)
Definition lint_operation (path method : string) (operation : operation)
    (r : lint_result) : result lint_result :=
  let r :=
    if negb (truthy (op_summary operation)) && negb (truthy (op_description operation))
    then add_warning ("Path " ++ path ++ " " ++ method ++ ": missing summary or description") r
    else r in
  let r :=
    if negb (truthy (op_responses operation))
    then add_error ("Path " ++ path ++ " " ++ method ++ ": missing responses") r
    else r in
  (* Check for 200 response *)
  r200 <- get (op_responses operation) "200" ;;
  r201 <- get (op_responses operation) "201" ;;
  Ok (if negb (truthy r200) && negb (truthy r201)
      then add_warning ("Path " ++ path ++ " " ++ method ++ ": missing success response (200/201)") r
      else r).

Fixpoint lint_operations (path : string) (operations : path_item)
    (r : lint_result) : result lint_result :=
  match operations with
  | [] => Ok r
  | (method, operation) :: tl =>
      r <- lint_operation path method operation r ;;
      lint_operations path tl r
  end.

Fixpoint lint_paths (paths : list (string * path_item)) (r : lint_result)
  : result lint_result :=
  match paths with
  | [] => Ok r
  | (path, operations) :: tl =>
      r <- lint_operations path operations r ;;
      lint_paths tl r
  end.

Fixpoint lint_schemas (schemas : list (string * value)) (r : lint_result)
  : result lint_result :=
  match schemas with
  | [] => Ok r
  | (name, schema) :: tl =>
      type <- get schema "type" ;;
      let r := if negb (truthy type) && negb (truthy (get_own schema "$ref"))
               then add_warning ("Schema " ++ name ++ ": missing type or $ref") r
               else r in
      lint_schemas tl r
  end.

(** [lintOpenAPISpec(spec)] *)
Definition lintOpenAPISpec (spec : document) : result lint_result :=
  let r := {| errors := 0; warnings := 0; issues := [] |} in
  let r := if negb (truthy (get_opt (doc_info spec) "title"))
           then add_error "Missing info.title" r else r in
  let r := if negb (truthy (get_opt (doc_info spec) "version"))
           then add_error "Missing info.version" r else r in
  let r := match doc_paths spec with
           | [] => add_error "No paths defined" r
           | _ => r
           end in
  r <- lint_paths (doc_paths spec) r ;;
  lint_schemas (doc_schemas spec) r.

(** The message of the error that the linter has for an operation
    without responses. *)
Definition missing_responses (path method : string) : string :=
  ("Path " ++ path ++ " " ++ method ++ ": missing responses")%string.

Definition missing_success (path method : string) : string :=
  ("Path " ++ path ++ " " ++ method ++ ": missing success response (200/201)")%string.

(** Every issue is counted once, as an error or as a warning. *)
Definition balanced (r : lint_result) : Prop :=
  List.length (issues r) = errors r + warnings r.

End Linter.

(* ===================================================================== *)
(** * Breaking-change detector *)
(* ===================================================================== *)

Module Breaking.
Import Assembler.

(** ** [JSON.stringify] *)

Definition hex_digit (n : nat) : ascii :=
  if (n <? 10)%nat then ascii_of_nat (48 + n) else ascii_of_nat (87 + n).

(** The text of one character inside a JSON string. *)
Definition escape_char (c : ascii) : string :=
  let n := nat_of_ascii c in
  if (n =? 34)%nat then String "\" (String c EmptyString)
  else if (n =? 92)%nat then "\\"
  else if (n =? 8)%nat then "\b"
  else if (n =? 9)%nat then "\t"
  else if (n =? 10)%nat then "\n"
  else if (n =? 12)%nat then "\f"
  else if (n =? 13)%nat then "\r"
  else if (n <? 32)%nat then
    ("\u00" ++ String (hex_digit (n / 16)) (String (hex_digit (n mod 16)) EmptyString))%string
  else String c EmptyString.

Fixpoint escape (s : string) : string :=
  match s with
  | EmptyString => EmptyString
  | String c r => (escape_char c ++ escape r)%string
  end.

Definition quote (s : string) : string :=
  String "034" (escape s ++ String "034" EmptyString)%string.

(** [JSON.stringify(v)]; [None] is the [undefined] that it returns for
    [undefined]. An [undefined] property is left out and an [undefined]
    element is written [null]. *)
Fixpoint stringify (v : value) : option string :=
  match v with
  | VUndef => None
  | VNull => Some "null"
  | VBool b => Some (if b then "true" else "false")
  | VNum n => Some (string_of_Z n)
  | VStr s => Some (quote s)
  | VArr l =>
      Some ("[" ++ join ","
              ((fix items (l : list value) : list string :=
                  match l with
                  | [] => []
                  | x :: tl =>
                      match stringify x with
                      | Some t => t
                      | None => "null"
                      end :: items tl
                  end) l) ++ "]")%string
  | VObj kvs =>
      Some ("{" ++ join ","
              ((fix props (l : list (string * value)) : list string :=
                  match l with
                  | [] => []
                  | (k, x) :: tl =>
                      match stringify x with
                      | Some t => (quote k ++ ":" ++ t)%string :: props tl
                      | None => props tl
                      end
                  end) kvs) ++ "}")%string
  end.

(** [a !== b] on the results of [JSON.stringify]. *)
Definition differs (a b : option string) : bool :=
  match a, b with
  | Some x, Some y => negb (x =? y)
  | None, None => false
  | _, _ => true
  end.

(** ** The comparison *)

(** [Object.keys(v || {})] *)
Definition keys_or_empty (v : value) : list string :=
  if truthy v then keys (entries v) else [].

Definition includes_key (l : list string) (k : string) : bool :=
  existsb (String.eqb k) l.

(** The status codes of an operation present in both snapshots whose
    response is reported as changed. *)
Definition changedResponses (newOp oldOp : operation) : list string :=
  let newResponses := keys_or_empty (op_responses newOp) in
  let oldResponses := keys_or_empty (op_responses oldOp) in
  filter (fun code =>
            includes_key oldResponses code &&
            differs (stringify (get_own (op_responses newOp) code))
                    (stringify (get_own (op_responses oldOp) code)))
         newResponses.

Definition removed_path_message (path : string) : string :=
  ("REMOVED: Path " ++ path)%string.

Definition removed_op_message (path op : string) : string :=
  ("REMOVED: " ++ toUpperCase op ++ " " ++ path)%string.

Definition changed_message (path method code : string) : string :=
  ("CHANGED: " ++ toUpperCase method ++ " " ++ path ++ " response " ++ code
   ++ " schema")%string.

(** The body of the [try] block of [detectBreakingChanges] from the
    parsed previous contract on. Both contracts have a [paths] object of
    path items, so no comparison throws. A member that
    [previousSpec.paths[path]] or [oldOps[method]] inherits from
    [Object.prototype] has no keys of its own and no [responses], so it
    adds no entry, as a missing one. *)
Definition compare_specs (newSpec previousSpec : document)
  : list string :=
  let newPaths := keys (doc_paths newSpec) in
  let oldPaths := keys (doc_paths previousSpec) in
  (* Check for removed paths *)
  let removedPaths := filter (fun path => negb (includes_key newPaths path)) oldPaths in
  let breakingChanges := map removed_path_message removedPaths in
  (* Check for changed operations *)
  let breakingChanges := breakingChanges ++
    flat_map (fun path =>
      match lookup path (doc_paths previousSpec), lookup path (doc_paths newSpec) with
      | Some oldItem, Some newItem =>
          let newOps := keys newItem in
          let oldOps := keys oldItem in
          let removedOps := filter (fun op => negb (includes_key newOps op)) oldOps in
          map (removed_op_message path) removedOps
      | _, _ => []
      end) newPaths in
  (* Check for changed response schemas (simplified) *)
  breakingChanges ++
    flat_map (fun path =>
      match lookup path (doc_paths previousSpec), lookup path (doc_paths newSpec) with
      | Some oldOps, Some newOps =>
          flat_map (fun method =>
            match lookup method oldOps, lookup method newOps with
            | Some oldOp, Some newOp =>
                map (changed_message path method) (changedResponses newOp oldOp)
            | _, _ => []
            end) (keys newOps)
      | _, _ => []
      end) newPaths.

(** ** The whole function *)

(** [error.message] *)
Definition message (e : error) : string :=
  match e with TypeError msg => msg end.

Definition error_message (e : error) : string :=
  ("ERROR: Failed to compare specs: " ++ message e)%string.

Section Detect.

(** [await file(previousSpecPath).text()]: the text of the file, or the
    error thrown. *)
Variable read_text : string -> result string.

(** [JSON.parse] and [Bun.YAML.parse] on the text of a contract: the
    parsed contract, or the error thrown. A text that parses to a value
    other than a contract is not covered. *)
Variable json_parse yaml_parse : string -> result document.

(** [previousSpecText.includes('{') ? JSON.parse(previousSpecText)
                                    : Bun.YAML.parse(previousSpecText)] *)
Definition parse_previous (previousSpecText : string) : result document :=
  if SourceMapper.includes previousSpecText "{"
  then json_parse previousSpecText
  else yaml_parse previousSpecText.

(** [detectBreakingChanges]. The read and the parse come before the
    first entry is pushed, so an error thrown by either leaves the
    [ERROR] entry alone in the result. *)
Definition detectBreakingChanges (newSpec : document)
    (previousSpecPath : string) : list string :=
  match (previousSpecText <- read_text previousSpecPath ;;
         parse_previous previousSpecText) with
  | Ok previousSpec => compare_specs newSpec previousSpec
  | Throw e => [error_message e]
  end.

End Detect.

(** ** Sample data *)

(** A response with a description and a schema reference. *)
Definition described_response (description : string) : value :=
  VObj [("description", VStr description);
        ("content",
         VObj [("application/json",
                VObj [("schema",
                       VObj [("$ref", VStr "#/components/schemas/SearchResult")])])])].

(** A snapshot of a contract with one operation; only the description of
    its [200] response depends on the argument. *)
Definition snapshot (description : string) : document :=
  {| doc_info := VObj [("title", VStr "Citadel API"); ("version", VStr "1.0.0")];
     doc_paths :=
       [("/api/rules/grep",
         [("get",
           {| op_summary := VStr "Search rules"; op_description := VUndef;
              op_tags := Some ["GOV"]; op_operationId := VStr "grepRules";
              op_parameters := VArr [];
              op_responses := VObj [("200", described_response description)];
              op_x_source := Some [SourceMapper.SourceFile "/repo/rules/gov/gov-header-001.md"];
              op_requestBody := VUndef; op_extensions := [] |})])];
     doc_schemas := [] |}.

(** The YAML text of [snapshot "Search results"]. *)
Definition snapshot_yaml : string :=
"info:
  title: Citadel API
  version: 1.0.0
paths:
  /api/rules/grep:
    get:
      summary: Search rules
      tags:
        - GOV
      operationId: grepRules
      parameters: []
      responses:
        '200':
          description: Search results
          content:
            application/json:
              schema:
                $ref: '#/components/schemas/SearchResult'
      x-source:
        - /repo/rules/gov/gov-header-001.md
".

(** A contract whose path has a parameter in braces, and its YAML
    text. *)
Definition templated_snapshot : document :=
  {| doc_info := VObj [("title", VStr "Citadel API"); ("version", VStr "1.0.0")];
     doc_paths :=
       [("/api/rules/{id}",
         [("get",
           {| op_summary := VStr "Read rule"; op_description := VUndef;
              op_tags := Some ["GOV"]; op_operationId := VStr "readRule";
              op_parameters := VArr [];
              op_responses :=
                VObj [("200", VObj [("description", VStr "The rule")])];
              op_x_source :=
                Some [SourceMapper.SourceFile "/repo/rules/gov/gov-header-001.md"];
              op_requestBody := VUndef; op_extensions := [] |})])];
     doc_schemas := [] |}.

Definition templated_yaml : string :=
"info:
  title: Citadel API
  version: 1.0.0
paths:
  /api/rules/{id}:
    get:
      summary: Read rule
      tags:
        - GOV
      operationId: readRule
      parameters: []
      responses:
        '200':
          description: The rule
      x-source:
        - /repo/rules/gov/gov-header-001.md
".

(** A file system with one file. *)
Definition one_file (name text : string) (path : string) : result string :=
  if path =? name then Ok text
  else Throw (TypeError ("ENOENT: no such file or directory, open '"
                         ++ path ++ "'")%string).

(** A parser that is given no JSON text. *)
Definition no_json (text : string) : result document :=
  Throw (TypeError "JSON Parse error: Unexpected identifier").

(** A parser for one text. *)
Definition parses_to (text : string) (spec : document) (input : string)
  : result document :=
  if input =? text then Ok spec
  else Throw (TypeError "YAML Parse error").

End Breaking.

(* ===================================================================== *)
(** * Traceability auditor *)
(* ===================================================================== *)

Module Auditor.
Import Assembler.

(** The contract as the auditor loads it from the serialized artifact:
    it has the shape of the contract that the generator builds, and the
    entries of [x-source] are the texts that the artifact holds. *)
Record operation : Type := mkOperation {
  op_summary : value;
  op_description : value;
  op_tags : option (list string);
  op_operationId : value;
  op_parameters : value;
  op_responses : value;
  op_x_source : option (list string);
  op_requestBody : value;
  op_extensions : list (string * value)
}.

Definition path_item : Type := list (string * operation).

Record document : Type := mkDocument {
  doc_info : value;
  doc_paths : list (string * path_item);
  doc_schemas : list (string * value)
}.

Record AuditConfig : Type := mkConfig {
  specPath : string;
  minThreshold : float;
  strict : bool;
  verbose : bool
}.

Record detail : Type := mkDetail {
  endpoint : string;
  sources : list string;
  hasSources : bool
}.

Record TraceabilityReport : Type := mkReport {
  totalEndpoints : nat;
  tracedEndpoints : nat;
  orphanEndpoints : list string;
  traceabilityPercent : float;
  passed : bool;
  details : list detail
}.

(** A count as a JavaScript number. *)
Definition number (n : nat) : float :=
  Nat.iter n (fun x => (x + 1)%float) 0%float.

(** [a >= b] on numbers. *)
Definition geq (a b : float) : bool := PrimFloat.leb b a.

(** The loop state of [analyzeTraceability]. *)
Record tally : Type := mkTally {
  t_traced : nat;
  t_orphans : list string;
  t_details : list detail
}.

(** The body of the inner loop, for one operation of one path. *)
Definition analyze_operation (path method : string) (operation : operation)
    (t : tally) : tally :=
  let endpoint := (toUpperCase method ++ " " ++ path)%string in
  let sources := match op_x_source operation with Some l => l | None => [] end in
  let hasSources := match sources with [] => false | _ :: _ => true end in
  {| t_traced := if hasSources then S (t_traced t) else t_traced t;
     t_orphans := if hasSources then t_orphans t else t_orphans t ++ [endpoint];
     t_details := t_details t ++
       [{| endpoint := endpoint; sources := sources; hasSources := hasSources |}] |}.

Definition analyze_path (t : tally) (entry : string * path_item) : tally :=
  fold_left (fun t mo => analyze_operation (fst entry) (fst mo) (snd mo) t)
            (snd entry) t.

(** [analyzeTraceability(spec)] *)
Definition analyzeTraceability (spec : document) : TraceabilityReport :=
  let paths := doc_paths spec in
  let totalEndpoints := List.length (keys paths) in
  let t := fold_left analyze_path paths
             {| t_traced := 0; t_orphans := []; t_details := [] |} in
  let traceabilityPercent :=
    if (0 <? totalEndpoints)%nat
    then (number (t_traced t) / number totalEndpoints * 100)%float
    else 0%float in
  let passed := geq traceabilityPercent 95 in  (* Always require 95% minimum *)
  {| totalEndpoints := totalEndpoints;
     tracedEndpoints := t_traced t;
     orphanEndpoints := t_orphans t;
     traceabilityPercent := traceabilityPercent;
     passed := passed;
     details := t_details t |}.

Section Files.

(** Whether [await file(source).text()] succeeds. *)
Variable readable : string -> bool.

(** The loop over the sources of one detail: the set [checkedFiles] and
    the flag [allSourcesExist]. *)
Fixpoint check_sources (checkedFiles : list string) (allSourcesExist : bool)
    (srcs : list string) : list string * bool :=
  match srcs with
  | [] => (checkedFiles, allSourcesExist)
  | source :: tl =>
      if existsb (String.eqb source) checkedFiles
      then check_sources checkedFiles allSourcesExist tl
      else check_sources (source :: checkedFiles)
                         (if readable source then allSourcesExist else false) tl
  end.

Fixpoint check_details (checkedFiles : list string) (allSourcesExist : bool)
    (ds : list detail) : list string * bool :=
  match ds with
  | [] => (checkedFiles, allSourcesExist)
  | d :: tl =>
      if hasSources d then
        let (checkedFiles, allSourcesExist) :=
          check_sources checkedFiles allSourcesExist (sources d) in
        check_details checkedFiles allSourcesExist tl
      else check_details checkedFiles allSourcesExist tl
  end.

(** [validateSourceFiles(report, config)] *)
Definition validateSourceFiles (report : TraceabilityReport)
    (config : AuditConfig) : bool :=
  if negb (strict config) then true
  else snd (check_details [] true (details report)).

(** [auditTraceability()], from the loaded contract on: the exit code of
    the process. *)
Definition auditTraceability (config : AuditConfig) (spec : document) : nat :=
  let report := analyzeTraceability spec in
  let sourcesValid := validateSourceFiles report config in
  let thresholdPassed := geq (traceabilityPercent report) (minThreshold config) in
  if negb (passed report) || negb thresholdPassed then 1
  else if strict config && negb sourcesValid then 2
  else 0.

End Files.

(** ** What the specification counts *)

(** The operations of an artifact: method-path pairs over all paths. *)
Definition operations (spec : document) : list operation :=
  flat_map (fun entry => map snd (snd entry)) (doc_paths spec).

Definition is_traced (op : operation) : bool :=
  match op_x_source op with
  | Some (_ :: _) => true
  | _ => false
  end.

(** N, the number of operations, and T, the number of those with a
    non-empty provenance list. *)
Definition total_operations (spec : document) : nat :=
  List.length (operations spec).

Definition traced_operations (spec : document) : nat :=
  List.length (filter is_traced (operations spec)).

(** The source files that the operations of an artifact refer to. *)
Definition referenced_sources (spec : document) : list string :=
  flat_map (fun op => match op_x_source op with Some l => l | None => [] end)
           (operations spec).

Definition detail_of (path method : string) (op : operation) : detail :=
  {| endpoint := (toUpperCase method ++ " " ++ path)%string;
     sources := match op_x_source op with Some l => l | None => [] end;
     hasSources := is_traced op |}.

(** What the loop of [analyzeTraceability] keeps true of its state: the
    traced count and the orphans are those of the details so far. *)
Definition tally_ok (t : tally) : Prop :=
  t_traced t = List.length (filter hasSources (t_details t)) /\
  t_orphans t = map endpoint (filter (fun d => negb (hasSources d)) (t_details t)).

(** The threshold that an audit run enforces: the configured minimum and
    the fixed minimum of 95 percent. *)
Definition threshold_met (cfg : AuditConfig) (spec : document) : bool :=
  geq (traceabilityPercent (analyzeTraceability spec)) 95 &&
  geq (traceabilityPercent (analyzeTraceability spec)) (minThreshold cfg).

(** ** Sample data *)

(** An operation of an artifact with the given [x-source]. *)
Definition traced_by (x_source : option (list string)) : operation :=
  {| op_summary := VStr "Search rules"; op_description := VUndef;
     op_tags := None; op_operationId := VUndef;
     op_parameters := VArr []; op_responses := VObj [];
     op_x_source := x_source;
     op_requestBody := VUndef; op_extensions := [] |}.

Definition artifact (paths : list (string * path_item)) : document :=
  {| doc_info := VObj [("title", VStr "Citadel API")];
     doc_paths := paths; doc_schemas := [] |}.

Definition config (min : float) (strict : bool) : AuditConfig :=
  {| specPath := "openapi.yaml"; minThreshold := min;
     strict := strict; verbose := false |}.

(** An artifact with one path that has two operations, both traced. *)
Definition two_methods_artifact : document :=
  artifact [("/api/rules",
             [("get", traced_by (Some ["/repo/rules/gov/gov-header-001.md"]));
              ("post", traced_by (Some ["/repo/rules/gov/gov-header-001.md"]))])].

(** An artifact with two paths of one operation each, one of them
    traced: 50 percent. *)
Definition half_traced_artifact : document :=
  artifact [("/api/rules", [("get", traced_by (Some ["/repo/rules/gov/gov-header-001.md"]))]);
            ("/api/health", [("get", traced_by None)])].

(** The scenarios of the specification. Eight operations on eight paths,
    seven of them traced, against 95 percent: 87.5 percent, exit code
    1. *)
Definition seven_of_eight : document :=
  artifact
    (map (fun p => (p, [("get", traced_by (Some ["/repo/rules/gov/gov-header-001.md"]))]))
         ["/a"; "/b"; "/c"; "/d"; "/e"; "/f"; "/g"]
     ++ [("/h", [("get", traced_by None)])]).

End Auditor.

(* ===================================================================== *)
(** * Edits of a contract *)
(* ===================================================================== *)

Module Edits.
Import Assembler.

(** [delete obj[k]] on a property list. *)
Fixpoint remove_key {A : Type} (k : string) (kvs : list (string * A))
  : list (string * A) :=
  match kvs with
  | [] => []
  | (k', v) :: tl =>
      if k' =? k then remove_key k tl else (k', v) :: remove_key k tl
  end.

(** The contract without one of its paths. *)
Definition remove_path (path : string) (spec : document) : document :=
  {| doc_info := doc_info spec;
     doc_paths := remove_key path (doc_paths spec);
     doc_schemas := doc_schemas spec |}.

(** The contract without one method of one of its paths. *)
Definition remove_method (path method : string) (spec : document) : document :=
  {| doc_info := doc_info spec;
     doc_paths :=
       match lookup path (doc_paths spec) with
       | Some item => set_prop path (remove_key method item) (doc_paths spec)
       | None => doc_paths spec
       end;
     doc_schemas := doc_schemas spec |}.

(** A contract as a parsed document has it: no path and no method is
    listed twice. *)
Definition well_keyed (spec : document) : Prop :=
  NoDup (keys (doc_paths spec)) /\
  forall path item, In (path, item) (doc_paths spec) -> NoDup (keys item).




(** A contract with one path that has two methods. *)
Definition two_methods_contract : document :=
  {| doc_info := VObj [("title", VStr "Citadel API"); ("version", VStr "1.0.0")];
     doc_paths :=
       [("/api/rules",
         [("get",
           {| op_summary := VStr "List rules"; op_description := VUndef;
              op_tags := Some ["GOV"]; op_operationId := VStr "listRules";
              op_parameters := VArr [];
              op_responses := VObj [("200", VObj [("description", VStr "OK")])];
              op_x_source := Some [SourceMapper.SourceFile "/repo/rules/gov/gov-header-001.md"];
              op_requestBody := VUndef; op_extensions := [] |});
          ("post",
           {| op_summary := VStr "Create rule"; op_description := VUndef;
              op_tags := Some ["GOV"]; op_operationId := VStr "createRule";
              op_parameters := VArr [];
              op_responses := VObj [("201", VObj [("description", VStr "Created")])];
              op_x_source := Some [SourceMapper.SourceFile "/repo/rules/gov/gov-header-001.md"];
              op_requestBody := VUndef; op_extensions := [] |})])];
     doc_schemas := [] |}.

(** The YAML text of [two_methods_contract]. *)
Definition two_methods_yaml : string :=
"info:
  title: Citadel API
  version: 1.0.0
paths:
  /api/rules:
    get:
      summary: List rules
      tags:
        - GOV
      operationId: listRules
      parameters: []
      responses:
        '200':
          description: OK
      x-source:
        - /repo/rules/gov/gov-header-001.md
    post:
      summary: Create rule
      tags:
        - GOV
      operationId: createRule
      parameters: []
      responses:
        '201':
          description: Created
      x-source:
        - /repo/rules/gov/gov-header-001.md
".

End Edits.

(* ===================================================================== *)
(** * The walks over arrays and objects, by name *)
(* ===================================================================== *)

Module Walks.
Import Assembler Breaking.

(** The elements of a cloned array. *)
Definition clone_items (l : list value) : list value :=
  map (fun x => match x with VUndef => VNull | _ => json_clone x end) l.

(** The properties of a cloned object. *)
Definition clone_props (kvs : list (string * value)) : list (string * value) :=
  flat_map (fun kv => match snd kv with
                      | VUndef => []
                      | _ => [(fst kv, json_clone (snd kv))]
                      end) kvs.

(** The texts of the elements of a serialized array. *)
Definition stringify_items (l : list value) : list string :=
  map (fun x => match stringify x with Some t => t | None => "null" end) l.

(** The texts of the properties of a serialized object. *)
Definition stringify_props (kvs : list (string * value)) : list string :=
  flat_map (fun kv => match stringify (snd kv) with
                      | Some t => [(quote (fst kv) ++ ":" ++ t)%string]
                      | None => []
                      end) kvs.

Section Resolve.

Variable semanticSchemas : list (string * value).
Variable ruleDefinitions : list (string * value).

(** What the resolution makes of the value of one property. *)
Definition resolve_prop (key : string) (v : value) : result value :=
  match v with
  | VStr ref =>
      if key =? "$ref" then resolve_ref semanticSchemas ruleDefinitions ref
      else Ok v
  | _ => resolveSchemaReferences semanticSchemas ruleDefinitions v
  end.

Fixpoint resolve_props (kvs : list (string * value))
  : result (list (string * value)) :=
  match kvs with
  | [] => Ok []
  | (key, v) :: tl =>
      v' <- resolve_prop key v ;;
      tl' <- resolve_props tl ;;
      Ok ((key, v') :: tl')
  end.

Fixpoint resolve_items (l : list value) : result (list value) :=
  match l with
  | [] => Ok []
  | v :: tl =>
      v' <- resolveSchemaReferences semanticSchemas ruleDefinitions v ;;
      tl' <- resolve_items tl ;;
      Ok (v' :: tl')
  end.

End Resolve.



End Walks.

(* ===================================================================== *)
(** * Source map consumer *)
(* ===================================================================== *)

Module SourceMap.

(** The digits of [decodeVLQ]. *)
Definition chars : string :=
  "ABCDEFGHIJKLMNOPQRSTUVWXYZabcdefghijklmnopqrstuvwxyz0123456789+/".

Fixpoint index_from (i : Z) (c : ascii) (s : string) : option Z :=
  match s with
  | EmptyString => None
  | String d r => if Ascii.eqb d c then Some i else index_from (i + 1) c r
  end.

(** [chars.indexOf(char)]; [None] is -1. *)
Definition indexOf (char : ascii) : option Z := index_from 0 char chars.

(** [ToInt32]: the number as a signed 32-bit integer. *)
Definition to_int32 (z : Z) : Z := (z + 2 ^ 31) mod 2 ^ 32 - 2 ^ 31.

(** [a << shift] on 32-bit integers: the shift count is taken modulo 32
    and the result wraps around. *)
Definition shl32 (a shift : Z) : Z := to_int32 (Z.shiftl a (shift mod 32)).

(** The loop of [decodeVLQ]: [result], [value] and [shift] after the rest
    of the text. *)
Fixpoint decode (vlq : string) (result : list Z) (value shift : Z) : list Z :=
  match vlq with
  | EmptyString => result
  | String char rest =>
      match indexOf char with
      | None => decode rest result value shift
      | Some index =>
          let value := Z.lor value (shl32 (Z.land index 31) shift) in
          if negb (Z.land index 32 =? 0)%Z
          then decode rest result value (shift + 5)
          else decode rest (result ++ [value]) 0 0
      end
  end.

(** [decodeVLQ(vlq)] *)
Definition decodeVLQ (vlq : string) : list Z := decode vlq [] 0 0.

(** The digits of a text: the indices of its characters that are in
    [chars]. *)
Fixpoint digits (vlq : string) : list Z :=
  match vlq with
  | EmptyString => []
  | String char rest =>
      match indexOf char with
      | Some index => index :: digits rest
      | None => digits rest
      end
  end.

(** The loop of [decodeVLQ] over the digits. *)
Fixpoint decode_digits (ds : list Z) (result : list Z) (value shift : Z)
  : list Z :=
  match ds with
  | [] => result
  | index :: rest =>
      let value := Z.lor value (shl32 (Z.land index 31) shift) in
      if negb (Z.land index 32 =? 0)%Z
      then decode_digits rest result value (shift + 5)
      else decode_digits rest (result ++ [value]) 0 0
  end.

(** A digit with the continuation bit, and one without. *)
Definition continues (d : Z) : Prop := (32 <= d < 64)%Z.
Definition terminates (d : Z) : Prop := (0 <= d < 32)%Z.

(** A group of at most six digits, all but the last with the
    continuation bit. *)
Definition segment (ds : list Z) : Prop :=
  exists cont last,
    ds = cont ++ [last] /\ Forall continues cont /\ terminates last /\
    (List.length cont <= 5)%nat.

(** The number that the low five bits of the digits spell, lowest digit
    first. *)
Fixpoint base32 (ds : list Z) : Z :=
  match ds with
  | [] => 0
  | d :: tl => (d mod 32 + 32 * base32 tl)%Z
  end.

(** ** [sourceMappingURL] *)

Definition marker : string := "//# sourceMappingURL=".

(** Whether a line terminator starts the text: a line feed, a carriage
    return, or the bytes of U+2028 or U+2029. *)
Definition terminator_at (s : string) : bool :=
  match s with
  | String c r =>
      (nat_of_ascii c =? 10)%nat || (nat_of_ascii c =? 13)%nat
      || match r with
         | String c1 (String c2 _) =>
             (nat_of_ascii c =? 226)%nat && (nat_of_ascii c1 =? 128)%nat
             && ((nat_of_ascii c2 =? 168)%nat || (nat_of_ascii c2 =? 169)%nat)
         | _ => false
         end
  | EmptyString => false
  end.

(** [(.+)$] with the flag [m]: the text up to the end of the line. *)
Fixpoint line_head (s : string) : string :=
  match s with
  | EmptyString => EmptyString
  | String c r => if terminator_at s then EmptyString else String c (line_head r)
  end.

(** A match of the pattern at the head of the text. *)
Definition url_at (s : string) : option string :=
  match strip_prefix marker s with
  | Some after =>
      let url := line_head after in
      if url =? "" then None else Some url
  | None => None
  end.

(** [extractSourceMappingURL(jsContent)]: the group of the leftmost
    match, or [None] for [null]. *)
Fixpoint extractSourceMappingURL (jsContent : string) : option string :=
  match url_at jsContent with
  | Some url => Some url
  | None =>
      match jsContent with
      | String _ r => extractSourceMappingURL r
      | EmptyString => None
      end
  end.

(** ** [findOriginalLocation] *)

(** [s.split(sep)] for a separator of one character. *)
Fixpoint split (sep : ascii) (s : string) : list string :=
  match s with
  | EmptyString => [EmptyString]
  | String c r =>
      if Ascii.eqb c sep then EmptyString :: split sep r
      else match split sep r with
           | h :: t => String c h :: t
           | [] => [String c EmptyString]
           end
  end.

(** [l[i]] for an integer [i]; [None] is [undefined]. *)
Definition at_index {A : Type} (l : list A) (i : Z) : option A :=
  if (i <? 0)%Z then None else nth_error l (Z.to_nat i).

(** A parsed source map, as far as the consumer reads it: the mappings
    text and the list of sources, either of which can be missing; an
    entry of the list can be [null]. *)
Record source_map : Type := {
  mappings : option string;
  sources : option (list (option string))
}.

(** The result: [line] is [None] for [NaN], [column] is [None] for
    [undefined]. *)
Record location : Type := {
  source : string;
  line : option Z;
  column : option Z
}.

(** [sourceMap.sources && sourceMap.sources[sourceIndex]], when truthy. *)
Definition source_entry (sourceMap : source_map) (sourceIndex : option Z)
  : option string :=
  match sources sourceMap, sourceIndex with
  | Some l, Some i =>
      match at_index l i with
      | Some (Some name) => if (name =? "")%string then None else Some name
      | _ => None
      end
  | _, _ => None
  end.

(** The loop over the mappings of one line. *)
Fixpoint find_mapping (sourceMap : source_map) (generatedColumn : Z)
    (mappings : list string) : option location :=
  match mappings with
  | [] => None
  | mapping :: rest =>
      if (mapping =? "")%string
      then find_mapping sourceMap generatedColumn rest
      else
        let decoded := decodeVLQ mapping in
        match nth_error decoded 0 with
        | Some first =>
            if (first =? generatedColumn)%Z then
              let sourceIndex := nth_error decoded 1 in
              let sourceLine := nth_error decoded 2 in
              let sourceColumn := nth_error decoded 3 in
              match source_entry sourceMap sourceIndex with
              | Some name =>
                  Some {| source := name;
                          line := option_map (fun l => (l + 1)%Z) sourceLine;
                          column := sourceColumn |}
              | None => find_mapping sourceMap generatedColumn rest
              end
            else find_mapping sourceMap generatedColumn rest
        | None => find_mapping sourceMap generatedColumn rest
        end
  end.

(** [findOriginalLocation(sourceMap, generatedLine, generatedColumn)];
    [None] is [null]. *)
Definition findOriginalLocation (sourceMap : option source_map)
    (generatedLine generatedColumn : Z) : option location :=
  match sourceMap with
  | None => None
  | Some sm =>
      match mappings sm with
      | None => None
      | Some text =>
          if (text =? "")%string then None
          else
            let lines := split ";" text in
            if (generatedLine <? Z.of_nat (List.length lines))%Z then
              match at_index lines generatedLine with
              | Some l =>
                  if (l =? "")%string then None
                  else find_mapping sm generatedColumn (split "," l)
              | None => None
              end
            else None
      end
  end.

End SourceMap.

(* ===================================================================== *)
(** * Semantic rule parsing *)
(* ===================================================================== *)

Module RuleParser.
Import Scanner.












Section Parse.

(** [await file(mdFile).text()]: the text of the file, or [None] when the
    read throws. *)
Variable read_text : string -> option string.

(** [Bun.YAML.parse] and [JSON.parse]: the parsed document, or an
    exception. *)
Variable yaml_parse : string -> result value.
Variable json_parse : string -> result value.










End Parse.

(** ** A sample document *)

Definition quote : string := String (ascii_of_nat 34) EmptyString.





End RuleParser.

(* ===================================================================== *)
(** * Finding the rule documents *)
(* ===================================================================== *)

Module Corpus.

(** What [readdirSync] and [statSync] show of a directory: the entries
    in listing order, each a directory with its own entries or another
    file. *)
Inductive node : Type :=
| File (name : string)
| Dir (name : string) (items : list node).

(** An induction principle that reaches the entries of directories. *)
Fixpoint node_nested_ind (P : node -> Prop)
    (Hfile : forall item, P (File item))
    (Hdir : forall item items, Forall P items -> P (Dir item items))
    (n : node) {struct n} : P n :=
  match n with
  | File item => Hfile item
  | Dir item items =>
      Hdir item items
        ((fix go (l : list node) : Forall P l :=
            match l with
            | [] => Forall_nil P
            | x :: tl =>
                Forall_cons x (node_nested_ind P Hfile Hdir x) (go tl)
            end) items)
  end.

Definition name (n : node) : string :=
  match n with
  | File item => item
  | Dir item _ => item
  end.

(** [s.endsWith(suffix)] *)
Fixpoint endsWith (s suffix : string) : bool :=
  (s =? suffix)%string ||
  match s with
  | String _ r => endsWith r suffix
  | EmptyString => false
  end.

(** [join(dir, item)] for the name of a directory entry. *)
Definition join (dir item : string) : string := (dir ++ "/" ++ item)%string.

Section Walk.

(** The working directory, against which [resolve] completes a relative
    path. *)
Variable cwd : string.

Definition resolve (path : string) : string := (cwd ++ "/" ++ path)%string.

(** The body of the loop of [findMdFiles] for the entry [n] of [dir]. *)
Fixpoint visit (dir : string) (n : node) (files : list string)
  : list string :=
  match n with
  | Dir item items =>
      (fix loop (items : list node) (files : list string) : list string :=
         match items with
         | [] => files
         | x :: tl => loop tl (visit (join dir item) x files)
         end) items files
  | File item =>
      if endsWith item ".md" then files ++ [resolve (join dir item)]
      else files
  end.

(** [findMdFiles(dir, files)], where [items] are the entries of [dir]. *)
Definition findMdFiles (dir : string) (items : list node)
    (files : list string) : list string :=
  fold_left (fun files n => visit dir n files) items files.

End Walk.

(** The Markdown files below an entry, by their paths from the directory
    of the entry, in the order of the listing. *)
Fixpoint paths (n : node) : list string :=
  match n with
  | Dir item items =>
      map (join item)
        ((fix all (items : list node) : list string :=
            match items with
            | [] => []
            | x :: tl => paths x ++ all tl
            end) items)
  | File item => if endsWith item ".md" then [item] else []
  end.

(** What the tree holds, said without the walk: a file whose name ends
    in [.md], somewhere below the entries, by its path from their
    directory; and a directory below them, likewise. *)
Inductive md_file : list node -> string -> Prop :=
| md_here (items : list node) (item : string) :
    In (File item) items -> endsWith item ".md" = true ->
    md_file items item
| md_below (items : list node) (d : string) (sub : list node) (r : string) :
    In (Dir d sub) items -> md_file sub r ->
    md_file items (join d r).

Inductive dir_at : list node -> string -> Prop :=
| dir_here (items : list node) (d : string) (sub : list node) :
    In (Dir d sub) items -> dir_at items d
| dir_below (items : list node) (d : string) (sub : list node) (r : string) :
    In (Dir d sub) items -> dir_at sub r ->
    dir_at items (join d r).

Definition no_slash (s : string) : Prop :=
  ~ In "/"%char (list_ascii_of_string s).

(** A listing as a file system gives it: no name holds a slash, and the
    entries of one directory have different names. *)
Fixpoint well_named (n : node) : Prop :=
  no_slash (name n) /\
  match n with
  | Dir _ items =>
      NoDup (map name items) /\
      (fix all (items : list node) : Prop :=
         match items with
         | [] => True
         | x :: tl => well_named x /\ all tl
         end) items
  | File _ => True
  end.

(** A sample tree: a directory whose name ends in [.md] and a file. *)
Definition sample_tree : list node :=
  [Dir "gov" [File "a-headers.md"; File "notes.txt";
              Dir "old.md" [File "b-headers-v2.md"]];
   File "README.md"].

End Corpus.

(* ===================================================================== *)
(** * Properties of property lists *)
(* ===================================================================== *)

Module JsFacts.

Section PropertyLists.

Context {A : Type}.
Implicit Types (k : string) (v : A) (kvs : list (string * A)).

Lemma lookup_set_prop_same k v kvs :
  lookup k (set_prop k v kvs) = Some v.
Proof.
  induction kvs as [|[k' v'] tl IH]; simpl.
  - now rewrite String.eqb_refl.
  - destruct (k' =? k) eqn:E; simpl; rewrite E; auto.
Qed.

Lemma lookup_set_prop_other k k' v kvs :
  k <> k' -> lookup k' (set_prop k v kvs) = lookup k' kvs.
Proof.
  intros Hne. induction kvs as [|[k0 v0] tl IH]; simpl.
  - destruct (k =? k') eqn:E; auto. apply String.eqb_eq in E. contradiction.
  - destruct (k0 =? k) eqn:E; simpl.
    + apply String.eqb_eq in E. subst k0.
      destruct (k =? k') eqn:E'; auto.
      apply String.eqb_eq in E'. contradiction.
    + now rewrite IH.
Qed.

Lemma in_set_prop k v kvs (kv : string * A) :
  In kv (set_prop k v kvs) -> kv = (k, v) \/ In kv kvs.
Proof.
  induction kvs as [|[k0 v0] tl IH]; simpl.
  - intros [<- | []]. now left.
  - destruct (k0 =? k) eqn:E; simpl.
    + apply String.eqb_eq in E. subst k0. intros [<- | H]; auto.
    + intros [<- | H]; auto. destruct (IH H); auto.
Qed.

Lemma keys_set_prop k v kvs :
  forall k', In k' (keys (set_prop k v kvs)) <-> k' = k \/ In k' (keys kvs).
Proof.
  intros k'. induction kvs as [|[k0 v0] tl IH]; simpl.
  - intuition.
  - destruct (k0 =? k) eqn:E; simpl.
    + apply String.eqb_eq in E. subst k0. intuition.
    + rewrite IH. intuition.
Qed.

Lemma NoDup_keys_set_prop k v kvs :
  NoDup (keys kvs) -> NoDup (keys (set_prop k v kvs)).
Proof.
  induction kvs as [|[k0 v0] tl IH]; simpl; intros Hnd.
  - constructor; [intros [] | constructor].
  - inversion Hnd as [|? ? Hnotin Hnd']; subst.
    destruct (k0 =? k) eqn:E; simpl.
    + now constructor.
    + constructor; auto.
      intros Hin. apply keys_set_prop in Hin. destruct Hin as [-> | Hin]; auto.
      now rewrite String.eqb_refl in E.
Qed.

Lemma lookup_in k v kvs : lookup k kvs = Some v -> In (k, v) kvs.
Proof.
  induction kvs as [|[k0 v0] tl IH]; simpl; [discriminate|].
  destruct (k0 =? k) eqn:E.
  - apply String.eqb_eq in E. subst k0. intros [= ->]. now left.
  - auto.
Qed.

Lemma in_lookup k v kvs :
  NoDup (keys kvs) -> In (k, v) kvs -> lookup k kvs = Some v.
Proof.
  induction kvs as [|[k0 v0] tl IH]; simpl; intros Hnd Hin; [contradiction|].
  inversion Hnd as [|? ? Hnotin Hnd']; subst.
  destruct Hin as [[= -> ->] | Hin].
  - now rewrite String.eqb_refl.
  - destruct (k0 =? k) eqn:E; auto.
    apply String.eqb_eq in E. subst k0. exfalso. apply Hnotin.
    change k with (fst (k, v)). now apply in_map.
Qed.

Lemma in_values_inv (x : A) kvs :
  In x (values kvs) -> exists k, In (k, x) kvs.
Proof.
  unfold values. rewrite in_map_iff. intros [[k y] [Hy Hin]].
  simpl in Hy. subst y. eauto.
Qed.

Lemma lookup_none_not_key k kvs :
  lookup k kvs = None <-> ~ In k (keys kvs).
Proof.
  induction kvs as [|[k0 v0] tl IH]; simpl.
  - intuition.
  - destruct (k0 =? k) eqn:E.
    + apply String.eqb_eq in E. subst. split; [discriminate | intuition].
    + rewrite IH. apply String.eqb_neq in E. intuition.
Qed.

(** [Object.assign]: the last definition of a name in the source wins,
    and a name the source does not define keeps the target's value. *)
Lemma lookup_assign k (target source : list (string * A)) :
  lookup k (assign target source) =
  match lookup k (rev source) with
  | Some v => Some v
  | None => lookup k target
  end.
Proof.
  unfold assign. revert target.
  induction source as [|[k0 v0] tl IH]; intros target; simpl; auto.
  rewrite IH.
  assert (Happ : forall (l1 l2 : list (string * A)),
             lookup k (l1 ++ l2) =
             match lookup k l1 with Some v => Some v | None => lookup k l2 end).
  { induction l1 as [|[a b] l1 IH1]; intros l2; simpl; auto.
    destruct (a =? k); auto. }
  rewrite Happ. destruct (lookup k (rev tl)) as [v|]; auto.
  simpl. destruct (k0 =? k) eqn:E.
  - apply String.eqb_eq in E. subst. apply lookup_set_prop_same.
  - apply lookup_set_prop_other. now apply String.eqb_neq.
Qed.

End PropertyLists.

End JsFacts.

(* ===================================================================== *)
(** * Properties of the manifest validator *)
(* ===================================================================== *)

Module ValidatorFacts.
Import Validator.

Example validate_ok : validateBunYamlStructure manifest_ok = Ok [].
Proof. reflexivity. Qed.

(** Where no property read throws, every violation is collected. *)
Example validate_many :
  validateBunYamlStructure manifest_many =
  Ok ["Missing required field: version";
      "rules.header.schema.scope must be an array";
      "Missing required field: rules.header.grep.patterns";
      "Missing required field: rules.api.basePath";
      "Endpoint 0: missing required field 'method'";
      "Endpoint 0: missing required field 'summary'";
      "Endpoint 1: missing required field 'path'";
      "Endpoint 1: missing required field 'method'";
      "Endpoint 1: missing required field 'summary'"].
Proof. reflexivity. Qed.

(** A manifest without [rules.header] is validated to the end. *)
Example validate_no_header :
  validateBunYamlStructure manifest_no_header =
  Ok ["Missing required field: rules.header"].
Proof. reflexivity. Qed.

(** C4: on a manifest without the [rules] section the validator records
    the violation and then reads [bunYaml.rules.header], which throws: no
    list of violations is returned. *)
Theorem validate_missing_rules_throws :
  exists e, validateBunYamlStructure manifest_no_rules = Throw e.
Proof. eexists. reflexivity. Qed.

(** The same happens on a manifest with [rules.header] present and
    [rules.header.schema] missing: the read of [schema.scope] throws. *)
Lemma validate_missing_schema_throws :
  exists e, validateBunYamlStructure manifest_no_schema = Throw e.
Proof. eexists. reflexivity. Qed.

(** In general: the validator returns a list only if [rules] is neither
    [undefined] nor [null]. *)
Lemma validate_returns_needs_rules (bunYaml : value) (errors : list string) :
  validateBunYamlStructure bunYaml = Ok errors ->
  exists rules, bunYaml.["rules"] = Ok rules /\ rules <> VUndef /\ rules <> VNull.
Proof.
  unfold validateBunYamlStructure.
  destruct bunYaml as [| | b | n | s | l | kvs]; simpl; try discriminate.
  destruct (lookup "rules" kvs) as [rules|]; simpl; try discriminate.
  destruct rules; simpl; try discriminate;
    intros _; eexists; (split; [reflexivity | split; discriminate]).
Qed.

End ValidatorFacts.

(* ===================================================================== *)
(** * Properties of the rule corpus scanner *)
(* ===================================================================== *)

Module ScannerFacts.
Import Scanner JsFacts.

Example first_tag_gov :
  first_tag "# [GOV-HEADER-001] Government Compliance Headers" = Some "[GOV-HEADER-001]".
Proof. reflexivity. Qed.

Example first_tag_leftmost :
  first_tag "Tags: [GOV-REQUIRED-001], [GOV-HEADER-001]" = Some "[GOV-REQUIRED-001]".
Proof. reflexivity. Qed.

Example first_tag_malformed :
  first_tag "[GOV-HEADER-01] [gov-header-001] [GOVT-A-001] [GOV--001]" = None.
Proof. reflexivity. Qed.

Lemma count_tags_eq (s : string) :
  count_tags s =
  (match match_tag_at s with Some _ => 1 | None => 0 end) +
  match s with String _ r => count_tags r | EmptyString => 0 end.
Proof. destruct s; reflexivity. Qed.

Lemma first_tag_eq (s : string) :
  first_tag s =
  match match_tag_at s with
  | Some tag => Some tag
  | None => match s with String _ r => first_tag r | EmptyString => None end
  end.
Proof. destruct s; reflexivity. Qed.

(** A match anywhere in the text is counted. *)
Lemma count_tags_match (pre s : string) (tag : string) :
  match_tag_at s = Some tag -> 1 <= count_tags (pre ++ s).
Proof.
  intros Hm. induction pre as [|c pre IH].
  - change (EmptyString ++ s)%string with s.
    rewrite count_tags_eq, Hm. lia.
  - change (String c pre ++ s)%string with (String c (pre ++ s)).
    rewrite count_tags_eq. lia.
Qed.

(** The leftmost match is the only one when there is exactly one. *)
Lemma first_tag_unique (pre tag post : string) :
  match_tag_at (tag ++ post) = Some tag ->
  count_tags (pre ++ tag ++ post) = 1 ->
  first_tag (pre ++ tag ++ post) = Some tag.
Proof.
  intros Hm. induction pre as [|c pre IH]; intros Hcount.
  - change (EmptyString ++ tag ++ post)%string with (tag ++ post)%string.
    now rewrite first_tag_eq, Hm.
  - change (String c pre ++ tag ++ post)%string
      with (String c (pre ++ tag ++ post)) in *.
    pose proof (count_tags_match pre _ _ Hm) as Hge.
    rewrite count_tags_eq in Hcount. rewrite first_tag_eq.
    destruct (match_tag_at (String c (pre ++ tag ++ post))).
    + lia.
    + apply IH. lia.
Qed.

Lemma first_tag_none (content : string) :
  count_tags content = 0 -> first_tag content = None.
Proof.
  induction content as [|c r IH]; intros H;
    rewrite count_tags_eq in H; rewrite first_tag_eq;
    destruct (match_tag_at _); try discriminate; auto.
Qed.

Section Scan.

Variable read_text : string -> option string.

Lemma scan_file_tagged (sources : index) (mdFile tag : string) :
  file_tag read_text mdFile = Some tag ->
  scan_file read_text sources mdFile = set_prop tag mdFile sources.
Proof.
  unfold file_tag, scan_file. destruct (read_text mdFile) as [content|].
  - intros H. now rewrite H.
  - discriminate.
Qed.

Lemma scan_file_untagged (sources : index) (mdFile : string) :
  file_tag read_text mdFile = None ->
  scan_file read_text sources mdFile = sources.
Proof.
  unfold file_tag, scan_file. destruct (read_text mdFile) as [content|].
  - intros H. now rewrite H.
  - reflexivity.
Qed.

Lemma index_ok_scan_file (done : list string) (sources : index) (mdFile : string) :
  index_ok read_text done sources ->
  index_ok read_text (done ++ [mdFile]) (scan_file read_text sources mdFile).
Proof.
  intros [Hnd Hin]. destruct (file_tag read_text mdFile) as [tag|] eqn:Ht.
  - rewrite (scan_file_tagged _ _ _ Ht). split.
    + now apply NoDup_keys_set_prop.
    + intros tag' f H. apply in_set_prop in H. destruct H as [[= -> ->] | H].
      * split; auto. apply in_or_app. right. now left.
      * destruct (Hin _ _ H). split; auto. apply in_or_app. now left.
  - rewrite (scan_file_untagged _ _ Ht). split; auto.
    intros tag' f H. destruct (Hin _ _ H). split; auto.
    apply in_or_app. now left.
Qed.

Lemma index_ok_fold (rest done : list string) (sources : index) :
  index_ok read_text done sources ->
  index_ok read_text (done ++ rest) (fold_left (scan_file read_text) rest sources).
Proof.
  revert done sources. induction rest as [|f rest IH]; intros done sources H; simpl.
  - now rewrite app_nil_r.
  - replace (done ++ f :: rest) with ((done ++ [f]) ++ rest)
      by (now rewrite <- app_assoc).
    apply IH. now apply index_ok_scan_file.
Qed.

Lemma index_ok_scan_sources (mdFiles : list string) :
  index_ok read_text mdFiles (scan_sources read_text mdFiles).
Proof.
  apply (index_ok_fold mdFiles [] []). split; [constructor | intros ? ? []].
Qed.

(** Files that do not carry a tag leave its entry alone. *)
Lemma lookup_fold_other (tag : string) (rest : list string) (sources : index) :
  (forall f, In f rest -> file_tag read_text f <> Some tag) ->
  lookup tag (fold_left (scan_file read_text) rest sources) = lookup tag sources.
Proof.
  revert sources. induction rest as [|f rest IH]; intros sources H; simpl; auto.
  rewrite IH by (intros g Hg; apply H; now right).
  destruct (file_tag read_text f) as [t|] eqn:Ht.
  - rewrite (scan_file_tagged _ _ _ Ht). apply lookup_set_prop_other.
    intros ->. apply (H f); [now left | exact Ht].
  - now rewrite (scan_file_untagged _ _ Ht).
Qed.

Lemma scan_sources_app (l1 l2 : list string) :
  scan_sources read_text (l1 ++ l2) =
  fold_left (scan_file read_text) l2 (scan_sources read_text l1).
Proof. unfold scan_sources. apply fold_left_app. Qed.

(** The file scanned last among those that carry a tag owns the tag. *)
Lemma scan_sources_last (earlier after : list string) (late tag : string) :
  file_tag read_text late = Some tag ->
  (forall f, In f after -> file_tag read_text f <> Some tag) ->
  lookup tag (scan_sources read_text (earlier ++ late :: after)) = Some late.
Proof.
  intros Hlate Hafter. rewrite scan_sources_app. simpl.
  rewrite lookup_fold_other by exact Hafter.
  rewrite (scan_file_tagged _ _ _ Hlate). apply lookup_set_prop_same.
Qed.

End Scan.

End ScannerFacts.

(* ===================================================================== *)
(** * Properties of the source mapper *)
(* ===================================================================== *)

Module SourceMapperFacts.
Import Scanner Manifest SourceMapper JsFacts.

(** The scenario of the specification: tags [GOV] and [GREP]. *)
Example resolve_by_tag_substring :
  resolveEndpointSources (hinted XsAbsent (Some ["GOV"; "GREP"]))
    [("[GOV-HEADER-001]", "rules/gov/gov-header-001.md");
     ("[SEC-LEAK-001]", "rules/sec/sec-leak-001.md")]
  = [SourceFile "rules/gov/gov-header-001.md"].
Proof. reflexivity. Qed.

(** A pattern that is the name of a member of [Object.prototype] finds
    that member in the index, which is a plain object. *)
Example inherited_member_as_source :
  resolveEndpointSources (hinted (XsArray ["constructor"; "GOV-*"]) None)
    sample_index
  = [Inherited "constructor"; SourceFile "/repo/rules/gov/gov-header-001.md"] /\
  resolveEndpointSources (hinted (XsString "toString") None) sample_index
  = [Inherited "toString"].
Proof. split; reflexivity. Qed.

(** ** Where a provenance entry comes from *)

Lemma direct_origin (sources : index) (key : string) (e : entry) :
  direct sources key = Some e ->
  (exists f, e = SourceFile f /\ In f (values sources)) \/
  (e = Inherited key /\ inherited key = true /\ lookup key sources = None).
Proof.
  unfold direct. destruct (lookup key sources) as [g|] eqn:E.
  - destruct (nonempty g); [|discriminate]. intros [= <-].
    left. exists g. split; [reflexivity|].
    apply lookup_in in E. unfold values.
    change g with (snd (key, g)). now apply in_map.
  - destruct (inherited key) eqn:Ei; [|discriminate]. intros [= <-].
    right. auto.
Qed.

Lemma matching_in_values (sources : index) (needle f : string) :
  In f (matching sources needle) -> In f (values sources).
Proof.
  unfold matching, values. rewrite !in_map_iff.
  intros [e [He Hin]]. apply filter_In in Hin. exists e. tauto.
Qed.

Lemma resolve_pattern_origin (sources : index) (pattern : string) (e : entry) :
  resolve_pattern sources pattern = Some e ->
  (exists f, e = SourceFile f /\ In f (values sources)) \/
  (e = Inherited pattern /\ inherited pattern = true /\
   lookup pattern sources = None).
Proof.
  unfold resolve_pattern.
  destruct (direct sources pattern) as [g|] eqn:E.
  - intros [= <-]. eapply direct_origin; eauto.
  - destruct (matching sources (before_star pattern)) as [|g tl] eqn:Em;
      [discriminate|].
    intros [= <-]. left. exists g. split; [reflexivity|].
    apply (matching_in_values sources (before_star pattern)).
    rewrite Em. now left.
Qed.

Lemma in_filter_Boolean (l : list (option entry)) (e : entry) :
  In e (filter_Boolean l) -> In (Some e) l.
Proof.
  unfold filter_Boolean. rewrite in_flat_map.
  intros [[g|] [Hin Hf]]; [|contradiction].
  destruct (present g); [|contradiction].
  destruct Hf as [-> | []]. exact Hin.
Qed.

Lemma in_unique_from (seen l : list string) (x : string) :
  In x (unique_from seen l) -> In x l.
Proof.
  revert seen. induction l as [|y tl IH]; intros seen; simpl; auto.
  destruct (existsb (String.eqb y) seen).
  - intros H. right. eauto.
  - intros [-> | H]; [now left | right; eauto].
Qed.

Lemma in_slice_0_3 {A : Type} (l : list A) (x : A) :
  In x (slice_0_3 l) -> In x l.
Proof.
  unfold slice_0_3. intros H. rewrite <- (firstn_skipn 3 l).
  apply in_or_app. now left.
Qed.

Lemma resolve_by_tags_in_values (ep : endpoint) (sources : index) (f : string) :
  In f (resolve_by_tags ep sources) -> In f (values sources).
Proof.
  unfold resolve_by_tags. destruct (ep_tags ep) as [tags|]; intros H.
  - apply in_slice_0_3, in_unique_from in H.
    apply in_flat_map in H. destruct H as [tag [_ H]].
    eapply matching_in_values; eauto.
  - now apply in_slice_0_3 in H.
Qed.

Lemma in_map_SourceFile (l : list string) (e : entry) :
  In e (map SourceFile l) -> exists f, e = SourceFile f /\ In f l.
Proof.
  intros H. apply in_map_iff in H as [f [<- Hf]]. eauto.
Qed.

(** At every tier an entry of the provenance of an endpoint is a file of
    the index, or else the inherited member whose name the endpoint gives
    as [x-source] or as one of its patterns, when the index has no tag
    of that name. *)
Lemma resolveEndpointSources_origin (ep : endpoint) (sources : index)
    (e : entry) :
  In e (resolveEndpointSources ep sources) ->
  (exists f, e = SourceFile f /\ In f (values sources)) \/
  (exists name,
     e = Inherited name /\ inherited name = true /\
     lookup name sources = None /\
     (ep_x_source ep = XsString name \/
      exists patterns, ep_x_source ep = XsArray patterns /\ In name patterns)).
Proof.
  assert (Htags : In e (map SourceFile (resolve_by_tags ep sources)) ->
    exists f, e = SourceFile f /\ In f (values sources)).
  { intros H. apply in_map_SourceFile in H as [f [-> Hf]].
    exists f. split; [reflexivity|]. eapply resolve_by_tags_in_values; eauto. }
  unfold resolveEndpointSources.
  destruct (ep_x_source ep) as [|patterns|pattern|]; auto.
  - intros H. apply in_filter_Boolean in H. apply in_map_iff in H.
    destruct H as [p [Hp Hin]].
    destruct (resolve_pattern_origin _ _ _ Hp) as [Hf | [-> [Hi Hl]]];
      [now left|].
    right. exists p. repeat split; auto. right. eauto.
  - destruct (nonempty pattern); auto.
    destruct (direct sources pattern) as [g|] eqn:E.
    + intros [<- | []].
      destruct (direct_origin _ _ _ E) as [Hf | [-> [Hi Hl]]]; [now left|].
      right. exists pattern. auto.
    + intros H. apply in_map_SourceFile in H as [f [-> Hf]].
      left. exists f. split; [reflexivity|].
      apply in_slice_0_3 in Hf. eapply matching_in_values; eauto.
Qed.

(** A file in the provenance of an endpoint is a file of the index. *)
Lemma resolveEndpointSources_in_values (ep : endpoint) (sources : index)
    (f : string) :
  In (SourceFile f) (resolveEndpointSources ep sources) ->
  In f (values sources).
Proof.
  intros H.
  destruct (resolveEndpointSources_origin _ _ _ H)
    as [[g [[= ->] Hg]] | [name [Hn _]]]; [exact Hg | discriminate].
Qed.

(** ** Tier 1: an explicit list of patterns *)

(** C6, as stated, fails: with two rule documents tagged [GOV-...] the
    pattern [GOV-*] yields one file, not both. *)
Lemma tier1_keeps_one_match_per_pattern :
  resolveEndpointSources (hinted (XsArray ["GOV-*"]) None) sample_index
    = [SourceFile "/repo/rules/gov/gov-header-001.md"] /\
  tier1_all_matches sample_index ["GOV-*"]
    = ["/repo/rules/gov/gov-header-001.md"; "/repo/rules/gov/gov-audit-002.md"] /\
  resolveEndpointSources (hinted (XsArray ["GOV-*"]) None) sample_index
    <> map SourceFile (tier1_all_matches sample_index ["GOV-*"]).
Proof. repeat split; discriminate. Qed.

Lemma filter_Boolean_cons (o : option entry) (l : list (option entry)) :
  filter_Boolean (o :: l) =
  match o with
  | Some e => if present e then [e] else []
  | None => []
  end ++ filter_Boolean l.
Proof. reflexivity. Qed.

Lemma matching_nonempty (sources : index) (needle : string) :
  Forall (fun f => nonempty f = true) (values sources) ->
  Forall (fun f => nonempty f = true) (matching sources needle).
Proof.
  rewrite !Forall_forall. intros H f Hin. apply H.
  eapply matching_in_values; eauto.
Qed.

(** C6, amended: for an endpoint with an explicit list of patterns, each
    pattern contributes at most one entry, in the order of the patterns:
    the file of the tag equal to the pattern if there is one; without
    such a tag, and when the pattern is the name of a member that the
    index inherits from [Object.prototype], that member, which is not a
    file; otherwise the first file of the index whose tag contains the
    text of the pattern before its first star; a pattern without any of
    these contributes nothing. Nothing is deduplicated and no cap is
    applied, so the result has at most as many entries as there are
    patterns. *)
Theorem tier1_one_file_per_pattern (ep : endpoint) (sources : index)
    (patterns : list string) :
  ep_x_source ep = XsArray patterns ->
  Forall (fun f => nonempty f = true) (values sources) ->
  resolveEndpointSources ep sources = flat_map (tier1_first_match sources) patterns /\
  List.length (resolveEndpointSources ep sources) <= List.length patterns.
Proof.
  intros Hxs Hne. unfold resolveEndpointSources. rewrite Hxs.
  assert (Heq : filter_Boolean (map (resolve_pattern sources) patterns)
                = flat_map (tier1_first_match sources) patterns).
  { clear Hxs. induction patterns as [|p tl IH]; [reflexivity|].
    simpl map. rewrite filter_Boolean_cons. simpl flat_map. rewrite IH.
    f_equal. unfold resolve_pattern, direct, tier1_first_match.
    destruct (lookup p sources) as [f|] eqn:E.
    - assert (Hf : nonempty f = true).
      { rewrite Forall_forall in Hne. apply Hne.
        apply lookup_in in E. unfold values.
        change f with (snd (p, f)). now apply in_map. }
      rewrite Hf. simpl. now rewrite Hf.
    - destruct (inherited p); [reflexivity|].
      pose proof (matching_nonempty sources (before_star p) Hne) as Hm.
      destruct (matching sources (before_star p)) as [|g rest]; [reflexivity|].
      inversion Hm as [|? ? Hg _]; subst. simpl. now rewrite Hg. }
  split; [exact Heq|]. rewrite Heq.
  clear. induction patterns as [|p tl IH]; simpl; [lia|].
  rewrite length_app. unfold tier1_first_match at 1.
  destruct (lookup p sources); simpl; [lia|].
  destruct (inherited p); simpl; [lia|].
  destruct (matching sources (before_star p)); simpl; lia.
Qed.

Lemma tier1_one_file_per_pattern_witness :
  resolveEndpointSources
    (hinted (XsArray ["[SEC-LEAK-001]"; "GOV-*"; "NONE"; "toString"; "GOV";
                      "OPS"; "SEC"]) None)
    sample_index
  = [SourceFile "/repo/rules/sec/sec-leak-001.md";
     SourceFile "/repo/rules/gov/gov-header-001.md";
     Inherited "toString";
     SourceFile "/repo/rules/gov/gov-header-001.md";
     SourceFile "/repo/rules/ops/ops-deploy-001.md";
     SourceFile "/repo/rules/sec/sec-leak-001.md"].
Proof.
  refine (proj1 (tier1_one_file_per_pattern
            (hinted (XsArray ["[SEC-LEAK-001]"; "GOV-*"; "NONE"; "toString";
                              "GOV"; "OPS"; "SEC"]) None)
            sample_index _ eq_refl _)).
  repeat constructor.
Defined.

(** ** Tier 4: no hints at all *)

(** C7, as stated, fails: an endpoint whose [tags] is an empty list has
    no tags, and it gets no provenance from an index that is not
    empty. *)
Lemma empty_tag_list_gets_no_provenance :
  sample_index <> [] /\
  ep_x_source (hinted XsAbsent (Some [])) = XsAbsent /\
  ep_tags (hinted XsAbsent (Some [])) = Some [] /\
  resolveEndpointSources (hinted XsAbsent (Some [])) sample_index = [].
Proof. repeat split. discriminate. Qed.

(** C7, amended: an endpoint without a usable [x-source] (none, an empty
    text, or a value that is neither a list nor a text) gets, when it has
    no array of tags, the first three files of the index, in index
    order: a list that is not empty when the index is not, and that has
    at most three entries. When its [tags] is an empty array it gets the
    empty list instead, whatever the index holds. *)
Theorem fallback_first_three (ep : endpoint) (sources : index) :
  ep_x_source ep = XsAbsent \/ ep_x_source ep = XsString "" \/
  ep_x_source ep = XsOther ->
  sources <> [] ->
  (ep_tags ep = None ->
   resolveEndpointSources ep sources
     = map SourceFile (firstn 3 (values sources)) /\
   resolveEndpointSources ep sources <> [] /\
   List.length (resolveEndpointSources ep sources) <= 3) /\
  (ep_tags ep = Some [] -> resolveEndpointSources ep sources = []).
Proof.
  intros Hxs Hne.
  assert (Heq : resolveEndpointSources ep sources
                = map SourceFile (resolve_by_tags ep sources)).
  { unfold resolveEndpointSources.
    destruct Hxs as [-> | [-> | ->]]; reflexivity. }
  rewrite Heq. unfold resolve_by_tags, slice_0_3. split.
  - intros ->. repeat split.
    + destruct sources as [|[tag f] tl]; [contradiction | discriminate].
    + rewrite length_map. apply firstn_le_length.
  - intros ->. reflexivity.
Qed.

Lemma fallback_first_three_witness :
  resolveEndpointSources (hinted XsAbsent None) sample_index
  = [SourceFile "/repo/rules/gov/gov-header-001.md";
     SourceFile "/repo/rules/sec/sec-leak-001.md";
     SourceFile "/repo/rules/gov/gov-audit-002.md"].
Proof.
  assert (Hne : sample_index <> []) by discriminate.
  exact (proj1 (proj1 (fallback_first_three (hinted XsAbsent None) sample_index
                         (or_introl eq_refl) Hne) eq_refl)).
Defined.

End SourceMapperFacts.

(* ===================================================================== *)
(** * Rule documents that share a tag *)
(* ===================================================================== *)

Module CollisionFacts.
Import Scanner Manifest SourceMapper JsFacts ScannerFacts SourceMapperFacts.

Example shared_tag_index :
  scan_sources shared_tag_corpus
    ["/repo/rules/gov/a-headers.md"; "/repo/rules/gov/b-headers-v2.md"]
  = [("[GOV-HEADER-001]", "/repo/rules/gov/b-headers-v2.md")].
Proof. reflexivity. Qed.

(** C10: when several rule documents have the same first tag, the index
    maps the tag to the one scanned last; every earlier one is absent
    from the index and from the provenance of every endpoint. *)
Theorem last_scanned_file_owns_tag (read_text : string -> option string)
    (earlier after : list string) (late tag : string) :
  NoDup (earlier ++ late :: after) ->
  file_tag read_text late = Some tag ->
  (forall f, In f after -> file_tag read_text f <> Some tag) ->
  let sources := scan_sources read_text (earlier ++ late :: after) in
  lookup tag sources = Some late /\
  forall early,
    In early earlier -> file_tag read_text early = Some tag ->
    ~ In early (values sources) /\
    forall ep, ~ In (SourceFile early) (resolveEndpointSources ep sources).
Proof.
  intros Hnd Hlate Hafter sources.
  assert (Hlast : lookup tag sources = Some late)
    by (now apply scan_sources_last).
  split; [exact Hlast|].
  intros early Hin Hearly.
  assert (Habsent : ~ In early (values sources)).
  { intros Hval. apply in_values_inv in Hval. destruct Hval as [k Hk].
    destruct (index_ok_scan_sources read_text (earlier ++ late :: after))
      as [Hkeys Hentries].
    fold sources in Hkeys, Hentries.
    destruct (Hentries _ _ Hk) as [_ Hk'].
    assert (k = tag) by congruence. subst k.
    apply (in_lookup _ _ _ Hkeys) in Hk.
    assert (early = late) by congruence. subst early.
    apply NoDup_remove_2 in Hnd. apply Hnd.
    apply in_or_app. now left. }
  split; [exact Habsent|].
  intros ep Hep. apply Habsent.
  eapply resolveEndpointSources_in_values; eauto.
Qed.

Lemma last_scanned_file_owns_tag_witness :
  lookup "[GOV-HEADER-001]"
    (scan_sources shared_tag_corpus
       ["/repo/rules/gov/a-headers.md"; "/repo/rules/gov/b-headers-v2.md"])
  = Some "/repo/rules/gov/b-headers-v2.md" /\
  ~ In (SourceFile "/repo/rules/gov/a-headers.md")
      (resolveEndpointSources (hinted XsAbsent (Some ["GOV"]))
         (scan_sources shared_tag_corpus
            ["/repo/rules/gov/a-headers.md"; "/repo/rules/gov/b-headers-v2.md"])).
Proof.
  assert (Hnd : NoDup (["/repo/rules/gov/a-headers.md"]
                       ++ "/repo/rules/gov/b-headers-v2.md" :: [])).
  { repeat constructor; simpl; intuition discriminate. }
  destruct (last_scanned_file_owns_tag shared_tag_corpus
              ["/repo/rules/gov/a-headers.md"] []
              "/repo/rules/gov/b-headers-v2.md" "[GOV-HEADER-001]"
              Hnd eq_refl (fun f (H : In f []) => match H with end))
    as [Hlast Hearlier].
  split; [exact Hlast|].
  apply (Hearlier "/repo/rules/gov/a-headers.md" (or_introl eq_refl) eq_refl).
Defined.

End CollisionFacts.

(* ===================================================================== *)
(** * Properties of the assembled contract and of the linter *)
(* ===================================================================== *)

Module AssemblerFacts.
Import Scanner Manifest SourceMapper Assembler Linter JsFacts.

(** ** Schema registry *)

Lemma lookup_insert_if_absent (k name : string) (builtin : value)
    (schemas : list (string * value)) :
  lookup k (insert_if_absent name builtin schemas) =
  if name =? k then
    match lookup name schemas with
    | Some v => if truthy v then Some v else Some builtin
    | None => Some builtin
    end
  else lookup k schemas.
Proof.
  unfold insert_if_absent. destruct (name =? k) eqn:E.
  - apply String.eqb_eq in E. subst k.
    destruct (lookup name schemas) as [v|] eqn:El.
    + destruct (truthy v); [exact El | apply lookup_set_prop_same].
    + apply lookup_set_prop_same.
  - apply String.eqb_neq in E.
    destruct (lookup name schemas) as [v|].
    + destruct (truthy v); [reflexivity | now apply lookup_set_prop_other].
    + now apply lookup_set_prop_other.
Qed.

(** C8, as stated, fails: a corpus schema named [Error] takes the place
    of the built-in [Error] schema in the registry. *)
Lemma corpus_schema_replaces_builtin :
  In ("Error", Error_schema) (reserved_builtins (VArr [VStr "GOV"])) /\
  lookup "Error" (generate_schemas (VArr [VStr "GOV"]) [("Error", corpus_Error)])
    = Some corpus_Error /\
  lookup "Error" (generate_schemas (VArr [VStr "GOV"]) [("Error", corpus_Error)])
    <> Some Error_schema.
Proof.
  split; [right; now left|]. split; [reflexivity | discriminate].
Qed.

(** C8, amended: the registry starts from the corpus schemas, the last
    definition of a name winning. The generated [Scope] schema is then
    written over whatever the corpus defined under that name. The
    built-in [Error], [ValidationResult] and [SearchResult] schemas are
    inserted only if the registry has no truthy entry of that name, so a
    corpus schema of one of these names is kept and the built-in is not
    used. Every other name keeps its corpus schema. *)
Theorem schema_registry_policy (scope : value)
    (semanticSchemas : list (string * value)) :
  let schemas := generate_schemas scope semanticSchemas in
  lookup "Scope" schemas = Some (Scope_schema scope) /\
  (forall name builtin,
      In (name, builtin) guarded_builtins ->
      lookup name schemas =
      match lookup name (rev semanticSchemas) with
      | Some corpus => if truthy corpus then Some corpus else Some builtin
      | None => Some builtin
      end) /\
  (forall name,
      ~ In name (keys (reserved_builtins scope)) ->
      lookup name schemas = lookup name (rev semanticSchemas)).
Proof.
  intros schemas. unfold schemas, generate_schemas.
  repeat split.
  - rewrite !lookup_insert_if_absent. simpl. apply lookup_set_prop_same.
  - intros name builtin Hin. simpl in Hin.
    destruct Hin as [[= <- <-] | [[= <- <-] | [[= <- <-] | []]]];
      rewrite !lookup_insert_if_absent; simpl;
      rewrite ?lookup_insert_if_absent; simpl;
      rewrite lookup_set_prop_other by discriminate;
      rewrite lookup_assign; simpl;
      destruct (lookup _ (rev semanticSchemas)); reflexivity.
  - intros name Hnot. simpl in Hnot.
    rewrite !lookup_insert_if_absent.
    destruct ("SearchResult" =? name) eqn:E1;
      [apply String.eqb_eq in E1; tauto|].
    destruct ("ValidationResult" =? name) eqn:E2;
      [apply String.eqb_eq in E2; tauto|].
    destruct ("Error" =? name) eqn:E3;
      [apply String.eqb_eq in E3; tauto|].
    rewrite lookup_set_prop_other by tauto.
    rewrite lookup_assign. simpl.
    destruct (lookup name (rev semanticSchemas)); reflexivity.
Qed.

End AssemblerFacts.

(* ===================================================================== *)
(** * Responses of emitted operations *)
(* ===================================================================== *)

Module LinterFacts.
Import Scanner Manifest SourceMapper Assembler Linter JsFacts.

(** C3, as stated, fails: the operation made of an endpoint without
    responses has an empty response map, and the linter passes the
    contract with no error, only a warning. *)
Lemma empty_response_map_passes_lint :
  match generateOpenAPI "/api" (VArr [VStr "GOV"]) [] [] sample_sources
          sample_info [ep_no_responses] with
  | Ok doc =>
      response_maps doc = [("/api/rules/grep", [("get", VObj [])])] /\
      lintOpenAPISpec doc =
      Ok {| errors := 0; warnings := 1;
            issues := [missing_success "/api/rules/grep" "get"] |}
  | Throw _ => False
  end.
Proof. split; reflexivity. Qed.

Lemma truthy_json_clone (v : value) : truthy (json_clone v) = truthy v.
Proof. destruct v; reflexivity. Qed.

Section Emitted.

Variable basePath : string.
Variable scope : value.
Variable semanticSchemas : list (string * value).
Variable ruleDefinitions : list (string * value).
Variable sources : index.

Lemma truthy_resolveSchemaReferences (v v' : value) :
  resolveSchemaReferences semanticSchemas ruleDefinitions v = Ok v' ->
  truthy v' = truthy v.
Proof.
  destruct v; simpl; try (intros [= <-]; reflexivity).
  - match goal with |- bind ?m _ = _ -> _ => destruct m end; simpl;
      [intros [= <-]; reflexivity | discriminate].
  - match goal with |- bind ?m _ = _ -> _ => destruct m end; simpl;
      [intros [= <-]; reflexivity | discriminate].
Qed.

(** The responses of an emitted operation are the endpoint's, cloned and
    resolved, and the empty object when the endpoint declares none. *)
Lemma endpoint_operation_responses (ep : endpoint) (op : operation) :
  endpoint_operation scope semanticSchemas ruleDefinitions sources ep = Ok op ->
  resolveSchemaReferences semanticSchemas ruleDefinitions
    (if truthy (ep_responses ep) then json_clone (ep_responses ep) else VObj [])
  = Ok (op_responses op).
Proof.
  unfold endpoint_operation.
  destruct (resolveSchemaReferences semanticSchemas ruleDefinitions
              (if truthy (ep_parameters ep) then _ else _)) as [ps|]; simpl;
    [|discriminate].
  destruct (resolveSchemaReferences semanticSchemas ruleDefinitions
              (if truthy (ep_responses ep) then _ else _)) as [rs|]; simpl;
    [|discriminate].
  match goal with |- bind ?m _ = _ -> _ => destruct m as [rb|] end; simpl;
    [|discriminate].
  destruct (inject_dynamic_enums scope ps) as [ps'|]; simpl; [|discriminate].
  now intros [= <-].
Qed.

Lemma endpoint_operation_truthy (ep : endpoint) (op : operation) :
  endpoint_operation scope semanticSchemas ruleDefinitions sources ep = Ok op ->
  truthy (op_responses op) = true.
Proof.
  intros H. apply endpoint_operation_responses in H.
  apply truthy_resolveSchemaReferences in H. rewrite H.
  destruct (truthy (ep_responses ep)) eqn:E; [|reflexivity].
  now rewrite truthy_json_clone.
Qed.

Lemma endpoint_operation_empty (ep : endpoint) (op : operation) :
  endpoint_operation scope semanticSchemas ruleDefinitions sources ep = Ok op ->
  truthy (ep_responses ep) = false ->
  op_responses op = VObj [].
Proof.
  intros H E. apply endpoint_operation_responses in H.
  rewrite E in H. simpl in H. congruence.
Qed.

Lemma from_endpoints_add (done : list endpoint) (ep : endpoint)
    (paths paths' : list (string * path_item)) :
  from_endpoints scope semanticSchemas ruleDefinitions sources done paths ->
  add_endpoint basePath scope semanticSchemas ruleDefinitions sources paths ep
    = Ok paths' ->
  from_endpoints scope semanticSchemas ruleDefinitions sources (done ++ [ep]) paths'.
Proof.
  intros Hinv. unfold add_endpoint.
  destruct (endpoint_operation scope semanticSchemas ruleDefinitions sources ep)
    as [operation|] eqn:Eop; simpl; [|discriminate].
  intros [= <-] path item method op Hpath Hop.
  apply in_set_prop in Hpath. destruct Hpath as [[= -> ->] | Hpath].
  - apply in_set_prop in Hop. destruct Hop as [[= -> ->] | Hop].
    + exists ep. split; [apply in_or_app; right; now left | exact Eop].
    + destruct (lookup (basePath ++ ep_path ep) paths) as [it|] eqn:El;
        [|contradiction].
      apply lookup_in in El.
      destruct (Hinv _ _ _ _ El Hop) as [ep' [Hin' Hop']].
      exists ep'. split; [apply in_or_app; now left | exact Hop'].
  - destruct (Hinv _ _ _ _ Hpath Hop) as [ep' [Hin' Hop']].
    exists ep'. split; [apply in_or_app; now left | exact Hop'].
Qed.

Lemma from_endpoints_generate (rest done : list endpoint)
    (paths paths' : list (string * path_item)) :
  from_endpoints scope semanticSchemas ruleDefinitions sources done paths ->
  generate_paths basePath scope semanticSchemas ruleDefinitions sources paths rest
    = Ok paths' ->
  from_endpoints scope semanticSchemas ruleDefinitions sources (done ++ rest) paths'.
Proof.
  revert done paths. induction rest as [|ep rest IH]; intros done paths Hinv; simpl.
  - intros [= <-]. now rewrite app_nil_r.
  - destruct (add_endpoint basePath scope semanticSchemas ruleDefinitions
                sources paths ep) as [paths1|] eqn:Eadd; simpl; [|discriminate].
    intros Hgen.
    replace (done ++ ep :: rest) with ((done ++ [ep]) ++ rest)
      by (now rewrite <- app_assoc).
    eapply IH; eauto. eapply from_endpoints_add; eauto.
Qed.

(** Generation does produce a contract: a plain endpoint always yields
    an operation, with an empty response map. *)
Lemma endpoint_operation_plain (ep : endpoint) :
  plain ep ->
  exists op,
    endpoint_operation scope semanticSchemas ruleDefinitions sources ep = Ok op /\
    op_responses op = VObj [].
Proof.
  intros [Hp [Hr Hb]]. unfold endpoint_operation.
  rewrite Hp, Hr, Hb. simpl. eexists. split; reflexivity.
Qed.

Lemma generate_paths_plain (endpoints : list endpoint)
    (paths : list (string * path_item)) :
  Forall plain endpoints ->
  exists paths',
    generate_paths basePath scope semanticSchemas ruleDefinitions sources
      paths endpoints = Ok paths'.
Proof.
  intros Hall. revert paths.
  induction Hall as [|ep tl Hep _ IH]; intros paths; simpl.
  - eauto.
  - unfold add_endpoint.
    destruct (endpoint_operation_plain ep Hep) as [op [Hop _]].
    rewrite Hop. simpl. apply IH.
Qed.

(** On an operation with truthy responses the linter counts no error. *)
Lemma lint_operation_no_error (path method : string) (op : operation)
    (r : lint_result) :
  truthy (op_responses op) = true ->
  exists r', lint_operation path method op r = Ok r' /\ errors r' = errors r.
Proof.
  intros Ht. unfold lint_operation. rewrite Ht. simpl.
  destruct (op_responses op) eqn:E; try discriminate; simpl;
    eexists; (split; [reflexivity|]);
    repeat match goal with |- context [if ?c then _ else _] => destruct c end;
    reflexivity.
Qed.

Lemma lint_operation_empty (path method : string) (op : operation)
    (r : lint_result) :
  op_responses op = VObj [] ->
  exists r', lint_operation path method op r = Ok r' /\
             In (missing_success path method) (issues r').
Proof.
  intros E. unfold lint_operation. rewrite E. simpl.
  eexists. split; [reflexivity|]. simpl. apply in_or_app. right. now left.
Qed.

(** C3, amended: every operation of the emitted contract is the
    operation of a manifest endpoint; its [responses] are the endpoint's
    responses, cloned and resolved, and the empty map when the endpoint
    declares none (no default is synthesized). [responses] is thus always
    present: the linter, whose error is for an operation without a
    [responses] property, never counts an error for an emitted operation,
    and reports the missing success response of an empty map as a
    warning. *)
Theorem emitted_responses_lint (info : value) (endpoints : list endpoint)
    (doc : document) :
  generateOpenAPI basePath scope semanticSchemas ruleDefinitions sources
    info endpoints = Ok doc ->
  forall path item method op,
    In (path, item) (doc_paths doc) -> In (method, op) item ->
    (exists ep, In ep endpoints /\
       endpoint_operation scope semanticSchemas ruleDefinitions sources ep = Ok op /\
       (truthy (ep_responses ep) = false -> op_responses op = VObj [])) /\
    truthy (op_responses op) = true /\
    (forall r, exists r',
        lint_operation path method op r = Ok r' /\ errors r' = errors r /\
        (op_responses op = VObj [] -> In (missing_success path method) (issues r'))).
Proof.
  unfold generateOpenAPI.
  destruct (generate_paths basePath scope semanticSchemas ruleDefinitions
              sources [] endpoints) as [paths|] eqn:Egen; simpl; [|discriminate].
  intros [= <-] path item method op Hpath Hop. simpl in Hpath.
  assert (Hinv : from_endpoints scope semanticSchemas ruleDefinitions sources [] []) by (intros ? ? ? ? []).
  pose proof (from_endpoints_generate endpoints [] [] paths Hinv Egen) as Hall.
  destruct (Hall _ _ _ _ Hpath Hop) as [ep [Hin Hep]].
  pose proof (endpoint_operation_truthy ep op Hep) as Ht.
  split; [|split].
  - exists ep. repeat split; auto. now apply endpoint_operation_empty.
  - exact Ht.
  - intros r. destruct (lint_operation_no_error path method op r Ht)
      as [r' [Hr' He]].
    exists r'. repeat split; auto.
    intros Hempty.
    destruct (lint_operation_empty path method op r Hempty) as [r'' [Hr'' Hi]].
    congruence.
Qed.

End Emitted.

Lemma emitted_responses_lint_witness :
  exists r',
    lint_operation "/api/rules/grep" "get"
      {| op_summary := VStr "Search rules"; op_description := VUndef;
         op_tags := Some ["GOV"]; op_operationId := VStr "grepRules";
         op_parameters := VArr []; op_responses := VObj [];
         op_x_source := Some [SourceMapper.SourceFile "/repo/rules/gov/gov-header-001.md"];
         op_requestBody := VUndef; op_extensions := [] |}
      {| errors := 0; warnings := 0; issues := [] |} = Ok r' /\
    errors r' = 0 /\
    In (missing_success "/api/rules/grep" "get") (issues r').
Proof.
  destruct (generateOpenAPI "/api" (VArr [VStr "GOV"]) [] [] sample_sources
              sample_info [ep_no_responses]) as [doc|] eqn:E;
    [|discriminate].
  pose proof (emitted_responses_lint "/api" (VArr [VStr "GOV"]) [] []
                sample_sources sample_info [ep_no_responses] doc E) as H.
  injection E as <-.
  destruct (H "/api/rules/grep" _ "get" _ (or_introl eq_refl) (or_introl eq_refl))
    as [_ [_ Hlint]].
  destruct (Hlint {| errors := 0; warnings := 0; issues := [] |})
    as [r' [Hr' [He Hi]]].
  exists r'. split; [exact Hr'|]. split; [exact He|]. apply Hi. reflexivity.
Defined.

End LinterFacts.

(* ===================================================================== *)
(** * Properties of the breaking-change detector *)
(* ===================================================================== *)

Module BreakingFacts.
Import Assembler Breaking JsFacts.

Example stringify_response :
  stringify (VObj [("description", VStr "OK"); ("headers", VUndef);
                   ("codes", VArr [VNum 200; VNull; VBool true])])
  = Some (String "{" (quote "description" ++ ":" ++ quote "OK" ++ ","
                      ++ quote "codes" ++ ":[200,null,true]}"))%string.
Proof. reflexivity. Qed.

Example unchanged_snapshot :
  compare_specs (snapshot "Search results") (snapshot "Search results") = [].
Proof. reflexivity. Qed.

(** C5, as stated, fails: two snapshots that differ only in the
    description of the [200] response, with the same schema, yield a
    CHANGED entry, in the comparison and so in the report on the
    previous snapshot read from its file. *)
Lemma description_edit_reported_changed :
  get_own (described_response "Matching rules") "content"
    = get_own (described_response "Search results") "content" /\
  compare_specs (snapshot "Matching rules") (snapshot "Search results")
    = ["CHANGED: GET /api/rules/grep response 200 schema"] /\
  detectBreakingChanges
    (one_file "openapi.previous.yaml" snapshot_yaml) no_json
    (parses_to snapshot_yaml (snapshot "Search results"))
    (snapshot "Matching rules") "openapi.previous.yaml"
    = ["CHANGED: GET /api/rules/grep response 200 schema"].
Proof. repeat split; reflexivity. Qed.

(** A YAML contract with a brace in it is handed to the JSON parser, and
    the error of that parser is all that is reported, also when the
    contract is compared with itself. *)
Example brace_in_yaml_read_as_json :
  parses_to templated_yaml templated_snapshot templated_yaml = Ok templated_snapshot /\
  compare_specs templated_snapshot templated_snapshot = [] /\
  detectBreakingChanges
    (one_file "openapi.previous.yaml" templated_yaml) no_json
    (parses_to templated_yaml templated_snapshot)
    templated_snapshot "openapi.previous.yaml"
  = ["ERROR: Failed to compare specs: JSON Parse error: Unexpected identifier"].
Proof. repeat split; reflexivity. Qed.

Example missing_previous_file :
  detectBreakingChanges
    (one_file "openapi.previous.yaml" snapshot_yaml) no_json
    (parses_to snapshot_yaml (snapshot "Search results"))
    (snapshot "Search results") "openapi.old.yaml"
  = [("ERROR: Failed to compare specs: "
      ++ "ENOENT: no such file or directory, open 'openapi.old.yaml'")%string].
Proof. reflexivity. Qed.

Lemma differs_iff (a b : option string) : differs a b = true <-> a <> b.
Proof.
  destruct a as [x|], b as [y|]; simpl.
  - rewrite negb_true_iff, String.eqb_neq. split; congruence.
  - split; [discriminate | reflexivity].
  - split; [discriminate | reflexivity].
  - split; [discriminate | congruence].
Qed.

Lemma includes_key_iff (l : list string) (k : string) :
  includes_key l k = true <-> In k l.
Proof.
  unfold includes_key. rewrite existsb_exists. split.
  - intros [x [Hin E]]. apply String.eqb_eq in E. now subst.
  - intros H. exists k. split; [exact H | apply String.eqb_refl].
Qed.

Lemma lookup_key {A : Type} (k : string) (v : A) (kvs : list (string * A)) :
  lookup k kvs = Some v -> In k (keys kvs).
Proof.
  intros H. apply lookup_in in H. unfold keys.
  change k with (fst (k, v)). now apply in_map.
Qed.

Lemma changedResponses_iff (newOp oldOp : operation) (code : string) :
  In code (changedResponses newOp oldOp) <->
  In code (keys_or_empty (op_responses newOp)) /\
  In code (keys_or_empty (op_responses oldOp)) /\
  stringify (get_own (op_responses newOp) code)
    <> stringify (get_own (op_responses oldOp) code).
Proof.
  unfold changedResponses. rewrite filter_In, andb_true_iff.
  rewrite includes_key_iff, differs_iff. tauto.
Qed.

(** The report when the previous snapshot is read and parsed, and when
    it is not. *)
Lemma detect_parsed (read_text : string -> result string)
    (json_parse yaml_parse : string -> result document)
    (newSpec : document) (previousSpecPath previousSpecText : string)
    (previousSpec : document) :
  read_text previousSpecPath = Ok previousSpecText ->
  parse_previous json_parse yaml_parse previousSpecText = Ok previousSpec ->
  detectBreakingChanges read_text json_parse yaml_parse newSpec previousSpecPath
  = compare_specs newSpec previousSpec.
Proof.
  intros Hread Hparse. unfold detectBreakingChanges.
  rewrite Hread. simpl. now rewrite Hparse.
Qed.

Lemma detect_failed (read_text : string -> result string)
    (json_parse yaml_parse : string -> result document)
    (newSpec : document) (previousSpecPath : string) (e : error) :
  read_text previousSpecPath = Throw e \/
  (exists previousSpecText,
      read_text previousSpecPath = Ok previousSpecText /\
      parse_previous json_parse yaml_parse previousSpecText = Throw e) ->
  detectBreakingChanges read_text json_parse yaml_parse newSpec previousSpecPath
  = [error_message e].
Proof.
  unfold detectBreakingChanges. intros [Hread | [text [Hread Hparse]]].
  - now rewrite Hread.
  - rewrite Hread. simpl. now rewrite Hparse.
Qed.

(** The entries of the comparison that begin with [CHANGED: ] are those
    of its third loop. *)
Lemma changed_entries (newSpec previousSpec : document) (entry : string) :
  In entry (compare_specs newSpec previousSpec) /\
  prefix "CHANGED: " entry = true <->
  exists path method code newOps oldOps newOp oldOp,
    entry = changed_message path method code /\
    lookup path (doc_paths newSpec) = Some newOps /\
    lookup path (doc_paths previousSpec) = Some oldOps /\
    lookup method newOps = Some newOp /\
    lookup method oldOps = Some oldOp /\
    In code (changedResponses newOp oldOp).
Proof.
  unfold compare_specs. split.
  - intros [Hin Hpre].
    apply in_app_or in Hin. destruct Hin as [Hin | Hin].
    { exfalso. apply in_app_or in Hin. destruct Hin as [Hin | Hin].
      - apply in_map_iff in Hin. destruct Hin as [p [<- _]]. discriminate.
      - apply in_flat_map in Hin. destruct Hin as [p [_ Hin]].
        destruct (lookup p (doc_paths previousSpec)); [|contradiction].
        destruct (lookup p (doc_paths newSpec)); [|contradiction].
        apply in_map_iff in Hin. destruct Hin as [m [<- _]]. discriminate. }
    apply in_flat_map in Hin. destruct Hin as [path [_ Hin]].
    destruct (lookup path (doc_paths previousSpec)) as [oldOps|] eqn:Hold;
      [|contradiction].
    destruct (lookup path (doc_paths newSpec)) as [newOps|] eqn:Hnew;
      [|contradiction].
    apply in_flat_map in Hin. destruct Hin as [method [_ Hin]].
    destruct (lookup method oldOps) as [oldOp|] eqn:Hoop; [|contradiction].
    destruct (lookup method newOps) as [newOp|] eqn:Hnop; [|contradiction].
    apply in_map_iff in Hin. destruct Hin as [code [<- Hin]].
    exists path, method, code, newOps, oldOps, newOp, oldOp. auto 10.
  - intros (path & method & code & newOps & oldOps & newOp & oldOp
            & -> & Hnew & Hold & Hnop & Hoop & Hin).
    split; [|unfold changed_message; simpl; now destruct (_ ++ _)%string].
    apply in_or_app. right.
    apply in_flat_map. exists path. split; [eapply lookup_key; eauto|].
    rewrite Hold, Hnew.
    apply in_flat_map. exists method. split; [eapply lookup_key; eauto|].
    rewrite Hoop, Hnop. now apply in_map.
Qed.

(** C5, amended: the detector compares the JSON text of the whole
    response objects. When the file of the previous snapshot is read and
    parsed into a contract (as JSON when its text holds a brace, as YAML
    otherwise), the CHANGED entries of the report are exactly the
    entries for a path, a method and a status code such that the path
    and the method are in both snapshots, both operations have a
    response for the code and the serialized responses differ, whatever
    the difference is (a description included). When the read or the
    parse throws, the report is the ERROR entry alone. *)
Theorem changed_iff_serialized_text_differs
    (read_text : string -> result string)
    (json_parse yaml_parse : string -> result document)
    (newSpec : document) (previousSpecPath : string) :
  let report :=
    detectBreakingChanges read_text json_parse yaml_parse newSpec
      previousSpecPath in
  (forall previousSpecText previousSpec,
      read_text previousSpecPath = Ok previousSpecText ->
      parse_previous json_parse yaml_parse previousSpecText
        = Ok previousSpec ->
      forall entry,
        In entry report /\ prefix "CHANGED: " entry = true <->
        exists path method code newOps oldOps newOp oldOp,
          entry = changed_message path method code /\
          lookup path (doc_paths newSpec) = Some newOps /\
          lookup path (doc_paths previousSpec) = Some oldOps /\
          lookup method newOps = Some newOp /\
          lookup method oldOps = Some oldOp /\
          In code (keys_or_empty (op_responses newOp)) /\
          In code (keys_or_empty (op_responses oldOp)) /\
          stringify (get_own (op_responses newOp) code)
            <> stringify (get_own (op_responses oldOp) code)) /\
  (forall e,
      read_text previousSpecPath = Throw e \/
      (exists previousSpecText,
          read_text previousSpecPath = Ok previousSpecText /\
          parse_previous json_parse yaml_parse previousSpecText = Throw e) ->
      report = [("ERROR: Failed to compare specs: " ++ message e)%string]).
Proof.
  intros report. split.
  - intros text previousSpec Hread Hparse entry. unfold report.
    rewrite (detect_parsed _ _ _ _ _ _ _ Hread Hparse), changed_entries.
    split.
    + intros (path & method & code & newOps & oldOps & newOp & oldOp
              & He & Hnew & Hold & Hnop & Hoop & Hin).
      apply changedResponses_iff in Hin.
      exists path, method, code, newOps, oldOps, newOp, oldOp. tauto.
    + intros (path & method & code & newOps & oldOps & newOp & oldOp
              & He & Hnew & Hold & Hnop & Hoop & Hin).
      exists path, method, code, newOps, oldOps, newOp, oldOp.
      rewrite changedResponses_iff. tauto.
  - intros e H. now apply detect_failed.
Qed.

Lemma changed_iff_serialized_text_differs_witness :
  In "CHANGED: GET /api/rules/grep response 200 schema"
     (detectBreakingChanges
        (one_file "openapi.previous.yaml" snapshot_yaml) no_json
        (parses_to snapshot_yaml (snapshot "Search results"))
        (snapshot "Matching rules") "openapi.previous.yaml").
Proof.
  destruct (changed_iff_serialized_text_differs
              (one_file "openapi.previous.yaml" snapshot_yaml) no_json
              (parses_to snapshot_yaml (snapshot "Search results"))
              (snapshot "Matching rules") "openapi.previous.yaml")
    as [Hparsed _].
  apply (Hparsed snapshot_yaml (snapshot "Search results")
           eq_refl eq_refl "CHANGED: GET /api/rules/grep response 200 schema").
  exists "/api/rules/grep", "get", "200".
  do 4 eexists. repeat split; try reflexivity.
  - simpl. now left.
  - simpl. now left.
  - discriminate.
Defined.

End BreakingFacts.

(* ===================================================================== *)
(** * Properties of the traceability auditor *)
(* ===================================================================== *)

Module AuditorFacts.
Import Assembler Auditor.

(** ** The tally *)

Lemma analyze_operation_spec (path method : string) (op : operation) (t : tally) :
  t_traced (analyze_operation path method op t)
    = t_traced t + (if is_traced op then 1 else 0) /\
  t_details (analyze_operation path method op t)
    = t_details t ++ [detail_of path method op].
Proof.
  unfold analyze_operation, detail_of, is_traced.
  destruct (op_x_source op) as [[|s l]|]; simpl; split;
    try reflexivity; lia.
Qed.

Lemma analyze_path_spec (t : tally) (entry : string * path_item) :
  t_traced (analyze_path t entry)
    = t_traced t + List.length (filter is_traced (map snd (snd entry))) /\
  t_details (analyze_path t entry)
    = t_details t ++ map (fun mo => detail_of (fst entry) (fst mo) (snd mo)) (snd entry).
Proof.
  unfold analyze_path. destruct entry as [path item]. simpl.
  revert t. induction item as [|[method op] tl IH]; intros t; simpl.
  - now rewrite Nat.add_0_r, app_nil_r.
  - destruct (IH (analyze_operation path method op t)) as [Htr Hde].
    destruct (analyze_operation_spec path method op t) as [Htr1 Hde1].
    rewrite Htr, Hde, Htr1, Hde1. split.
    + destruct (is_traced op); simpl; lia.
    + now rewrite <- app_assoc.
Qed.

Lemma analyze_paths_spec (paths : list (string * path_item)) (t : tally) :
  t_traced (fold_left analyze_path paths t)
    = t_traced t
      + List.length (filter is_traced (flat_map (fun entry => map snd (snd entry)) paths)) /\
  t_details (fold_left analyze_path paths t)
    = t_details t
      ++ flat_map (fun entry =>
                     map (fun mo => detail_of (fst entry) (fst mo) (snd mo)) (snd entry))
                  paths.
Proof.
  revert t. induction paths as [|entry tl IH]; intros t; simpl.
  - now rewrite Nat.add_0_r, app_nil_r.
  - destruct (IH (analyze_path t entry)) as [Htr Hde].
    destruct (analyze_path_spec t entry) as [Htr1 Hde1].
    rewrite Htr, Hde, Htr1, Hde1. split.
    + rewrite filter_app, length_app. now rewrite Nat.add_assoc.
    + now rewrite <- app_assoc.
Qed.

(** The auditor counts the traced operations, and divides by the number
    of paths. *)
Lemma analyzeTraceability_counts (spec : document) :
  tracedEndpoints (analyzeTraceability spec) = traced_operations spec /\
  totalEndpoints (analyzeTraceability spec) = List.length (doc_paths spec) /\
  traceabilityPercent (analyzeTraceability spec)
    = if (0 <? List.length (doc_paths spec))%nat
      then (number (traced_operations spec)
            / number (List.length (doc_paths spec)) * 100)%float
      else 0%float.
Proof.
  unfold analyzeTraceability, traced_operations, operations, keys. simpl.
  rewrite length_map.
  destruct (analyze_paths_spec (doc_paths spec)
              {| t_traced := 0; t_orphans := []; t_details := [] |}) as [Htr _].
  simpl in Htr. rewrite Htr. repeat split.
Qed.

(** With no path at all the percentage is 0. *)
Lemma percent_of_empty_artifact (spec : document) :
  doc_paths spec = [] ->
  traceabilityPercent (analyzeTraceability spec) = 0%float.
Proof. intros H. unfold analyzeTraceability. now rewrite H. Qed.

(** ** The percentage *)

(** C2: on an artifact with one path and two traced operations (N = 2,
    T = 2) the auditor takes the number of paths, 1, for the total and
    computes 200 percent, where 100 * T / N is 100. *)
Theorem percent_divides_by_paths :
  total_operations two_methods_artifact = 2 /\
  traced_operations two_methods_artifact = 2 /\
  totalEndpoints (analyzeTraceability two_methods_artifact) = 1 /\
  tracedEndpoints (analyzeTraceability two_methods_artifact) = 2 /\
  traceabilityPercent (analyzeTraceability two_methods_artifact) = 200%float /\
  (100 * number 2 / number 2)%float = 100%float.
Proof. repeat split; vm_compute; reflexivity. Qed.

(** An untraced operation on a path of two lowers the percentage to 100
    instead of 50. *)
Example percent_hides_an_orphan :
  let spec := artifact [("/api/rules",
                         [("get", traced_by (Some ["/repo/rules/gov/gov-header-001.md"]));
                          ("post", traced_by None)])] in
  orphanEndpoints (analyzeTraceability spec) = ["POST /api/rules"] /\
  traceabilityPercent (analyzeTraceability spec) = 100%float.
Proof. split; vm_compute; reflexivity. Qed.

(** ** Strict validation *)

Section Files.

Variable readable : string -> bool.

Lemma check_sources_spec (srcs seen checkedFiles : list string) (ok : bool) :
  (forall x, In x checkedFiles <-> In x seen) ->
  (ok = true <-> forall x, In x seen -> readable x = true) ->
  (forall x, In x (fst (check_sources readable checkedFiles ok srcs))
             <-> In x (seen ++ srcs)) /\
  (snd (check_sources readable checkedFiles ok srcs) = true
   <-> forall x, In x (seen ++ srcs) -> readable x = true).
Proof.
  revert seen checkedFiles ok.
  induction srcs as [|source tl IH]; intros seen checkedFiles ok Hset Hok; simpl.
  - rewrite app_nil_r. tauto.
  - assert (Happ : forall x, In x (seen ++ source :: tl)
                             <-> In x ((seen ++ [source]) ++ tl)).
    { intros x. now rewrite <- app_assoc. }
    destruct (existsb (String.eqb source) checkedFiles) eqn:E.
    + apply existsb_exists in E. destruct E as [y [Hy Ey]].
      apply String.eqb_eq in Ey. subst y. apply Hset in Hy.
      destruct (IH (seen ++ [source]) checkedFiles ok) as [H1 H2].
      * intros x. rewrite Hset, in_app_iff. simpl. intuition; subst; auto.
      * rewrite Hok. split; intros H x Hx.
        -- apply in_app_iff in Hx. simpl in Hx. intuition; subst; auto.
        -- apply H. apply in_or_app. now left.
      * split.
        -- intros x. rewrite H1. symmetry. apply Happ.
        -- rewrite H2. split; intros H x Hx; apply H; now apply Happ.
    + destruct (IH (seen ++ [source]) (source :: checkedFiles)
                  (if readable source then ok else false)) as [H1 H2].
      * intros x. simpl. rewrite Hset, in_app_iff. simpl. intuition.
      * destruct (readable source) eqn:Er.
        -- rewrite Hok. split; intros H x Hx.
           ++ apply in_app_iff in Hx. simpl in Hx.
              destruct Hx as [Hx | [<- | []]]; auto.
           ++ apply H. apply in_or_app. now left.
        -- split; [discriminate|]. intros H.
           rewrite <- Er. apply H. apply in_or_app. right. now left.
      * split.
        -- intros x. rewrite H1. symmetry. apply Happ.
        -- rewrite H2. split; intros H x Hx; apply H; now apply Happ.
Qed.

Lemma check_details_spec (ds : list detail) (seen checkedFiles : list string)
    (ok : bool) :
  (forall d, In d ds -> hasSources d = false -> sources d = []) ->
  (forall x, In x checkedFiles <-> In x seen) ->
  (ok = true <-> forall x, In x seen -> readable x = true) ->
  (snd (check_details readable checkedFiles ok ds) = true
   <-> forall x, In x (seen ++ flat_map sources ds) -> readable x = true).
Proof.
  revert seen checkedFiles ok.
  induction ds as [|d tl IH]; intros seen checkedFiles ok Hds Hset Hok; simpl.
  - rewrite app_nil_r. exact Hok.
  - destruct (hasSources d) eqn:Eh.
    + destruct (check_sources readable checkedFiles ok (sources d))
        as [checked' ok'] eqn:Ec.
      destruct (check_sources_spec (sources d) seen checkedFiles ok Hset Hok)
        as [H1 H2].
      rewrite Ec in H1, H2. simpl in H1, H2.
      rewrite (IH (seen ++ sources d) checked' ok'); auto.
      * now rewrite <- app_assoc.
      * intros d' Hd'. apply Hds. now right.
    + rewrite (Hds d (or_introl eq_refl) Eh). simpl.
      apply IH; auto. intros d' Hd'. apply Hds. now right.
Qed.

Lemma details_sources (spec : document) :
  flat_map sources (details (analyzeTraceability spec)) = referenced_sources spec /\
  forall d, In d (details (analyzeTraceability spec)) ->
            hasSources d = false -> sources d = [].
Proof.
  unfold analyzeTraceability. simpl.
  destruct (analyze_paths_spec (doc_paths spec)
              {| t_traced := 0; t_orphans := []; t_details := [] |}) as [_ Hde].
  simpl in Hde. rewrite Hde. clear Hde.
  unfold referenced_sources, operations. split.
  - induction (doc_paths spec) as [|[path item] tl IH]; simpl; [reflexivity|].
    rewrite !flat_map_app, IH. f_equal.
    induction item as [|[method op] item IHi]; simpl; [reflexivity|].
    now rewrite IHi.
  - intros d Hd. apply in_flat_map in Hd. destruct Hd as [[path item] [_ Hd]].
    apply in_map_iff in Hd. destruct Hd as [[method op] [<- _]].
    unfold detail_of, is_traced. simpl.
    destruct (op_x_source op) as [[|s l]|]; auto; discriminate.
Qed.

(** Strict validation succeeds exactly when every referenced source file
    can be read. *)
Lemma validateSourceFiles_spec (cfg : AuditConfig) (spec : document) :
  validateSourceFiles readable (analyzeTraceability spec) cfg = true <->
  strict cfg = false \/
  forall f, In f (referenced_sources spec) -> readable f = true.
Proof.
  unfold validateSourceFiles. destruct (strict cfg); simpl.
  - destruct (details_sources spec) as [Hsrc Hds].
    rewrite (check_details_spec _ [] [] true Hds); [| tauto | intuition].
    cbn [app]. rewrite Hsrc. intuition discriminate.
  - intuition.
Qed.

End Files.

(** ** Exit codes *)

(** C1, as stated, fails: with a minimum of 50 and strict mode off, an
    artifact at exactly 50 percent meets the configured threshold, and
    the audit still exits with code 1. *)
Lemma threshold_met_exit_1 :
  geq (traceabilityPercent (analyzeTraceability half_traced_artifact))
      (minThreshold (config 50 false)) = true /\
  strict (config 50 false) = false /\
  auditTraceability (fun _ => true) (config 50 false) half_traced_artifact = 1.
Proof. repeat split; vm_compute; reflexivity. Qed.

Lemma forallb_false_exists {A : Type} (p : A -> bool) (l : list A) :
  forallb p l = false -> exists x, In x l /\ p x = false.
Proof.
  induction l as [|a tl IH]; simpl; [discriminate|].
  destruct (p a) eqn:E; simpl.
  - intros H. destruct (IH H) as [x [Hin Hx]]. exists x. auto.
  - intros _. exists a. auto.
Qed.

Lemma validateSourceFiles_false (readable : string -> bool)
    (cfg : AuditConfig) (spec : document) :
  validateSourceFiles readable (analyzeTraceability spec) cfg = false <->
  strict cfg = true /\
  exists f, In f (referenced_sources spec) /\ readable f = false.
Proof.
  pose proof (validateSourceFiles_spec readable cfg spec) as Hspec.
  destruct (validateSourceFiles readable (analyzeTraceability spec) cfg) eqn:E.
  - split; [discriminate|]. intros [Hs [f [Hin Hf]]].
    destruct Hspec as [Hspec _]. destruct (Hspec eq_refl) as [H | H].
    + congruence.
    + rewrite (H f Hin) in Hf. discriminate.
  - split; [|reflexivity]. intros _.
    destruct (strict cfg) eqn:Es.
    + split; [reflexivity|].
      apply (forallb_false_exists readable).
      destruct (forallb readable (referenced_sources spec)) eqn:Ef; [|reflexivity].
      rewrite forallb_forall in Ef.
      destruct Hspec as [_ Hspec].
      assert (Habs : false = true) by (apply Hspec; now right). discriminate.
    + destruct Hspec as [_ Hspec].
      assert (Habs : false = true) by (apply Hspec; now left). discriminate.
Qed.

(** C1, amended: an audit run exits with 0 if and only if the computed
    percentage is at least the configured minimum and at least 95 (a
    percentage equal to the larger of the two passes) and strict mode is
    off or every referenced source file can be read; with 1 if and only
    if the percentage is below the configured minimum or below 95; with 2
    if and only if both minimums are met, strict mode is on and a
    referenced source file cannot be read. *)
Theorem audit_exit_codes (readable : string -> bool) (cfg : AuditConfig)
    (spec : document) :
  let code := auditTraceability readable cfg spec in
  (code = 0 <->
   threshold_met cfg spec = true /\
   (strict cfg = false \/
    forall f, In f (referenced_sources spec) -> readable f = true)) /\
  (code = 1 <-> threshold_met cfg spec = false) /\
  (code = 2 <->
   threshold_met cfg spec = true /\ strict cfg = true /\
   exists f, In f (referenced_sources spec) /\ readable f = false).
Proof.
  intros code. unfold code, auditTraceability, threshold_met.
  change (passed (analyzeTraceability spec))
    with (geq (traceabilityPercent (analyzeTraceability spec)) 95).
  pose proof (validateSourceFiles_spec readable cfg spec) as Hvalid.
  pose proof (validateSourceFiles_false readable cfg spec) as Hmissing.
  destruct (geq (traceabilityPercent (analyzeTraceability spec)) 95);
    destruct (geq (traceabilityPercent (analyzeTraceability spec)) (minThreshold cfg));
    simpl;
    try (repeat split; intros; try discriminate; try tauto;
         match goal with H : _ /\ _ |- _ => destruct H; discriminate end).
  destruct (strict cfg) eqn:Es; simpl.
  - destruct (validateSourceFiles readable (analyzeTraceability spec) cfg) eqn:Ev;
      simpl.
    + repeat split; intros; try discriminate; try tauto.
      destruct Hmissing as [_ Hm]. 
      match goal with H : _ /\ _ |- _ => destruct H as [_ H'] end.
      specialize (Hm H'). discriminate.
    + repeat split; intros; try discriminate; try tauto.
      match goal with H : _ /\ _ |- _ => destruct H as [_ H'] end.
      destruct Hvalid as [_ Hv]. specialize (Hv H'). discriminate.
  - repeat split; intros; try discriminate; try tauto.
    match goal with H : _ /\ _ |- _ => destruct H as [_ [H' _]] end.
    discriminate.
Qed.

Example audit_threshold_fail :
  traceabilityPercent (analyzeTraceability seven_of_eight) = 87.5%float /\
  auditTraceability (fun _ => true) (config 95 false) seven_of_eight = 1.
Proof. split; vm_compute; reflexivity. Qed.

(** The threshold is met and a referenced file is gone: exit code 2 in
    strict mode, 0 otherwise. *)
Example audit_strict_fail :
  let spec := artifact [("/a", [("get", traced_by (Some ["/repo/rules/gone.md"]))])] in
  auditTraceability (fun _ => false) (config 95 true) spec = 2 /\
  auditTraceability (fun _ => false) (config 95 false) spec = 0 /\
  auditTraceability (fun _ => true) (config 95 true) spec = 0.
Proof. repeat split; vm_compute; reflexivity. Qed.

(** A percentage equal to the minimum passes. *)
Example audit_equal_passes :
  let spec := artifact
    (map (fun p => (p, [("get", traced_by (Some ["/repo/rules/gov/gov-header-001.md"]))]))
         ["/1"; "/2"; "/3"; "/4"; "/5"; "/6"; "/7"; "/8"; "/9"; "/10";
          "/11"; "/12"; "/13"; "/14"; "/15"; "/16"; "/17"; "/18"; "/19"]
     ++ [("/20", [("get", traced_by None)])]) in
  traceabilityPercent (analyzeTraceability spec) = 95%float /\
  auditTraceability (fun _ => true) (config 95 false) spec = 0.
Proof. split; vm_compute; reflexivity. Qed.

End AuditorFacts.

(* ===================================================================== *)
(** * Removals seen by the breaking-change detector *)
(* ===================================================================== *)

Module RemovalFacts.
Import Assembler Breaking Edits JsFacts BreakingFacts.

Lemma flat_map_nil {A B : Type} (f : A -> list B) (l : list A) :
  (forall x, In x l -> f x = []) -> flat_map f l = [].
Proof.
  induction l as [|a tl IH]; simpl; intros H; [reflexivity|].
  rewrite (H a (or_introl eq_refl)). apply IH. intros x Hx. apply H. now right.
Qed.

Lemma filter_nil {A : Type} (p : A -> bool) (l : list A) :
  (forall x, In x l -> p x = false) -> filter p l = [].
Proof.
  induction l as [|a tl IH]; simpl; intros H; [reflexivity|].
  rewrite (H a (or_introl eq_refl)). apply IH. intros x Hx. apply H. now right.
Qed.

Lemma key_lookup {A : Type} (k : string) (kvs : list (string * A)) :
  In k (keys kvs) -> exists v, lookup k kvs = Some v.
Proof.
  intros H. destruct (lookup k kvs) as [v|] eqn:E; [eauto|].
  apply lookup_none_not_key in E. contradiction.
Qed.

Lemma includes_key_false (l : list string) (k : string) :
  includes_key l k = false <-> ~ In k l.
Proof.
  rewrite <- includes_key_iff. destruct (includes_key l k); intuition congruence.
Qed.

Lemma differs_same (a : option string) : differs a a = false.
Proof. destruct a as [x|]; simpl; [now rewrite String.eqb_refl | reflexivity]. Qed.

Lemma changedResponses_same (op : operation) : changedResponses op op = [].
Proof.
  unfold changedResponses. apply filter_nil. intros code _.
  rewrite differs_same. apply andb_false_r.
Qed.

(** No method of an item is missing from the item itself. *)
Lemma removed_ops_same (path : string) (item : path_item) :
  map (removed_op_message path)
      (filter (fun op => negb (includes_key (keys item) op)) (keys item)) = [].
Proof.
  rewrite filter_nil; [reflexivity|].
  intros op Hop. apply includes_key_iff in Hop. now rewrite Hop.
Qed.

Lemma changed_same (path : string) (item : path_item) :
  flat_map (fun method =>
              match lookup method item, lookup method item with
              | Some oldOp, Some newOp =>
                  map (changed_message path method) (changedResponses newOp oldOp)
              | _, _ => []
              end) (keys item) = [].
Proof.
  apply flat_map_nil. intros method _.
  destruct (lookup method item) as [op|]; [|reflexivity].
  now rewrite changedResponses_same.
Qed.

(** A contract compared with itself has no breaking change. *)
Theorem no_change_against_itself (spec : document) :
  compare_specs spec spec = [].
Proof.
  unfold compare_specs.
  rewrite filter_nil.
  2:{ intros path Hp. apply includes_key_iff in Hp. now rewrite Hp. }
  rewrite !flat_map_nil; [reflexivity| |].
  - intros path _. destruct (lookup path (doc_paths spec)) as [item|];
      [apply changed_same | reflexivity].
  - intros path _. destruct (lookup path (doc_paths spec)) as [item|];
      [apply removed_ops_same | reflexivity].
Qed.

(** ** Property lists without a key *)

Lemma keys_remove_key {A : Type} (k : string) (kvs : list (string * A)) :
  forall k', In k' (keys (remove_key k kvs)) <-> In k' (keys kvs) /\ k' <> k.
Proof.
  intros k'. induction kvs as [|[k0 v0] tl IH]; simpl; [tauto|].
  destruct (k0 =? k) eqn:E.
  - apply String.eqb_eq in E. subst k0. rewrite IH. intuition congruence.
  - apply String.eqb_neq in E. simpl. rewrite IH. intuition congruence.
Qed.

Lemma lookup_remove_key_other {A : Type} (k k' : string)
    (kvs : list (string * A)) :
  k' <> k -> lookup k' (remove_key k kvs) = lookup k' kvs.
Proof.
  intros Hne. induction kvs as [|[k0 v0] tl IH]; simpl; [reflexivity|].
  destruct (k0 =? k) eqn:E.
  - apply String.eqb_eq in E. subst k0.
    destruct (k =? k') eqn:E'; [apply String.eqb_eq in E'; congruence | exact IH].
  - simpl. now rewrite IH.
Qed.

(** In a list without repetition, the keys that a removal takes away are
    the removed key alone. *)
Lemma filter_removed_key {A : Type} (k : string) (kvs : list (string * A)) :
  NoDup (keys kvs) -> In k (keys kvs) ->
  filter (fun x => negb (includes_key (keys (remove_key k kvs)) x)) (keys kvs)
  = [k].
Proof.
  induction kvs as [|[k0 v0] tl IH]; simpl; intros Hnd Hin; [contradiction|].
  inversion Hnd as [|? ? Hnotin Hnd']; subst.
  destruct (k0 =? k) eqn:E.
  - apply String.eqb_eq in E. subst k0.
    assert (Hk : includes_key (keys (remove_key k tl)) k = false).
    { apply includes_key_false. rewrite keys_remove_key. tauto. }
    rewrite Hk. simpl. f_equal.
    apply filter_nil. intros x Hx. apply negb_false_iff, includes_key_iff.
    apply keys_remove_key. split; [exact Hx | congruence].
  - apply String.eqb_neq in E. simpl.
    rewrite String.eqb_refl. simpl.
    destruct Hin as [-> | Hin]; [congruence|].
    rewrite <- (IH Hnd' Hin). apply filter_ext_in. intros x Hx.
    destruct (x =? k0) eqn:Ex; [|reflexivity].
    apply String.eqb_eq in Ex. subst x. contradiction.
Qed.

Lemma removed_path_compared (spec : document) (path : string) :
  NoDup (keys (doc_paths spec)) ->
  In path (keys (doc_paths spec)) ->
  compare_specs (remove_path path spec) spec = [removed_path_message path].
Proof.
  intros Hnd Hin. unfold compare_specs, remove_path. simpl.
  rewrite (filter_removed_key path (doc_paths spec) Hnd Hin). simpl.
  rewrite !flat_map_nil; [reflexivity| |].
  - intros q Hq. apply keys_remove_key in Hq. destruct Hq as [_ Hne].
    rewrite (lookup_remove_key_other _ _ _ Hne).
    destruct (lookup q (doc_paths spec)) as [item|];
      [apply changed_same | reflexivity].
  - intros q Hq. apply keys_remove_key in Hq. destruct Hq as [_ Hne].
    rewrite (lookup_remove_key_other _ _ _ Hne).
    destruct (lookup q (doc_paths spec)) as [item|];
      [apply removed_ops_same | reflexivity].
Qed.

(** X20: When the file of the previous contract is read and parsed into
    a contract, a new contract that is the previous one without one of
    its paths is reported with exactly one entry, the REMOVED entry of
    that path. *)
Theorem removed_path_reported_once (read_text : string -> result string)
    (json_parse yaml_parse : string -> result document)
    (spec : document) (path previousSpecPath previousSpecText : string) :
  read_text previousSpecPath = Ok previousSpecText ->
  parse_previous json_parse yaml_parse previousSpecText = Ok spec ->
  NoDup (keys (doc_paths spec)) ->
  In path (keys (doc_paths spec)) ->
  detectBreakingChanges read_text json_parse yaml_parse
    (remove_path path spec) previousSpecPath
  = [removed_path_message path].
Proof.
  intros Hread Hparse Hnd Hin.
  rewrite (BreakingFacts.detect_parsed _ _ _ _ _ _ _ Hread Hparse).
  now apply removed_path_compared.
Qed.

Lemma removed_path_reported_once_witness :
  detectBreakingChanges
    (one_file "openapi.previous.yaml" snapshot_yaml) no_json
    (parses_to snapshot_yaml (snapshot "Search results"))
    (remove_path "/api/rules/grep" (snapshot "Search results"))
    "openapi.previous.yaml"
  = ["REMOVED: Path /api/rules/grep"].
Proof.
  apply (removed_path_reported_once
           (one_file "openapi.previous.yaml" snapshot_yaml) no_json
           (parses_to snapshot_yaml (snapshot "Search results"))
           (snapshot "Search results") "/api/rules/grep"
           "openapi.previous.yaml" snapshot_yaml).
  - reflexivity.
  - reflexivity.
  - repeat constructor. intros [].
  - now left.
Defined.

Lemma keys_set_prop_existing {A : Type} (k : string) (v : A)
    (kvs : list (string * A)) :
  In k (keys kvs) -> keys (set_prop k v kvs) = keys kvs.
Proof.
  induction kvs as [|[k0 v0] tl IH]; simpl; intros Hin; [contradiction|].
  destruct (k0 =? k) eqn:E; simpl; [reflexivity|].
  apply String.eqb_neq in E. destruct Hin as [-> | Hin]; [congruence|].
  now rewrite IH.
Qed.

Lemma flat_map_single {A B : Type} (f : A -> list B) (l : list A) (a : A) :
  NoDup l -> In a l -> (forall x, In x l -> x <> a -> f x = []) ->
  flat_map f l = f a.
Proof.
  induction l as [|b tl IH]; simpl; intros Hnd Hin Hf; [contradiction|].
  inversion Hnd as [|? ? Hnotin Hnd']; subst.
  destruct Hin as [-> | Hin].
  - rewrite flat_map_nil; [apply app_nil_r|].
    intros x Hx. apply Hf; [now right | congruence].
  - rewrite (Hf b (or_introl eq_refl)) by congruence. simpl.
    apply IH; auto.
Qed.

Lemma removed_method_compared (spec : document) (path method : string)
    (item : path_item) :
  well_keyed spec ->
  lookup path (doc_paths spec) = Some item ->
  In method (keys item) ->
  compare_specs (remove_method path method spec) spec
  = [removed_op_message path method].
Proof.
  intros [Hnd Hitems] Hlook Hin.
  assert (Hpath : In path (keys (doc_paths spec))) by (eapply lookup_key; eauto).
  assert (Hnd_item : NoDup (keys item))
    by (apply (Hitems path); now apply lookup_in).
  unfold compare_specs, remove_method. simpl. rewrite Hlook.
  rewrite (keys_set_prop_existing _ _ _ Hpath).
  rewrite filter_nil.
  2:{ intros q Hq. apply includes_key_iff in Hq. now rewrite Hq. }
  simpl.
  rewrite (flat_map_single _ _ path Hnd Hpath).
  2:{ intros q Hq Hne. rewrite lookup_set_prop_other by congruence.
      destruct (lookup q (doc_paths spec)) as [it|];
        [apply removed_ops_same | reflexivity]. }
  rewrite Hlook, lookup_set_prop_same.
  rewrite (filter_removed_key method item Hnd_item Hin). simpl.
  rewrite flat_map_nil; [reflexivity|].
  intros q Hq. destruct (String.eqb_spec q path) as [-> | Hne].
  - rewrite Hlook, lookup_set_prop_same.
    apply flat_map_nil. intros m Hm.
    apply keys_remove_key in Hm. destruct Hm as [_ Hm].
    rewrite (lookup_remove_key_other _ _ _ Hm).
    destruct (lookup m item) as [op|]; [|reflexivity].
    now rewrite changedResponses_same.
  - rewrite lookup_set_prop_other by congruence.
    destruct (lookup q (doc_paths spec)) as [it|];
      [apply changed_same | reflexivity].
Qed.

(** X21: When the file of the previous contract is read and parsed into
    a contract in which no path and no method is listed twice, a new
    contract that is the previous one without one method of one of its
    paths is reported with exactly one entry, the REMOVED entry of that
    method; the path is not reported. *)
Theorem removed_method_reported_once (read_text : string -> result string)
    (json_parse yaml_parse : string -> result document)
    (spec : document) (path method previousSpecPath previousSpecText : string)
    (item : path_item) :
  read_text previousSpecPath = Ok previousSpecText ->
  parse_previous json_parse yaml_parse previousSpecText = Ok spec ->
  well_keyed spec ->
  lookup path (doc_paths spec) = Some item ->
  In method (keys item) ->
  detectBreakingChanges read_text json_parse yaml_parse
    (remove_method path method spec) previousSpecPath
  = [removed_op_message path method].
Proof.
  intros Hread Hparse Hkeyed Hlook Hin.
  rewrite (BreakingFacts.detect_parsed _ _ _ _ _ _ _ Hread Hparse).
  now apply (removed_method_compared spec path method item).
Qed.

Lemma removed_method_reported_once_witness :
  detectBreakingChanges
    (one_file "openapi.previous.yaml" two_methods_yaml) no_json
    (parses_to two_methods_yaml two_methods_contract)
    (remove_method "/api/rules" "post" two_methods_contract)
    "openapi.previous.yaml"
  = ["REMOVED: POST /api/rules"].
Proof.
  apply (removed_method_reported_once
           (one_file "openapi.previous.yaml" two_methods_yaml) no_json
           (parses_to two_methods_yaml two_methods_contract)
           two_methods_contract "/api/rules" "post"
           "openapi.previous.yaml" two_methods_yaml
           (snd (hd ("", []) (doc_paths two_methods_contract)))).
  - reflexivity.
  - reflexivity.
  - split.
    + repeat constructor. intros [].
    + intros p it [[= <- <-] | []].
      repeat constructor; simpl; intuition discriminate.
  - reflexivity.
  - right. now left.
Defined.

End RemovalFacts.

(* ===================================================================== *)
(** * What the linter counts *)
(* ===================================================================== *)

Module LintCountFacts.
Import Assembler Linter JsFacts.

Lemma balanced_add_error (msg : string) (r : lint_result) :
  balanced r -> balanced (add_error msg r).
Proof. unfold balanced. simpl. rewrite length_app. simpl. lia. Qed.

Lemma balanced_add_warning (msg : string) (r : lint_result) :
  balanced r -> balanced (add_warning msg r).
Proof. unfold balanced. simpl. rewrite length_app. simpl. lia. Qed.

Lemma get_ok (v : value) (k : string) :
  v <> VUndef -> v <> VNull -> get v k = Ok (get_own v k).
Proof. destruct v; simpl; congruence. Qed.

Lemma get_throw (v : value) (k : string) :
  v = VUndef \/ v = VNull -> exists e, get v k = Throw e.
Proof. intros [-> | ->]; simpl; eauto. Qed.

Lemma lint_operation_spec (path method : string) (op : operation)
    (r r' : lint_result) :
  lint_operation path method op r = Ok r' ->
  errors r' = errors r + (if truthy (op_responses op) then 0 else 1) /\
  (balanced r -> balanced r').
Proof.
  unfold lint_operation, balanced.
  destruct (get (op_responses op) "200") as [r200|] eqn:E200; simpl; [|discriminate].
  destruct (get (op_responses op) "201") as [r201|] eqn:E201; simpl; [|discriminate].
  intros [= <-].
  destruct (negb (truthy (op_summary op)) && negb (truthy (op_description op)));
    destruct (truthy (op_responses op));
    destruct (negb (truthy r200) && negb (truthy r201)); simpl;
    rewrite ?length_app; simpl; split; intros; lia.
Qed.

Lemma lint_operation_throws (path method : string) (op : operation)
    (r : lint_result) :
  op_responses op = VUndef \/ op_responses op = VNull ->
  exists e, lint_operation path method op r = Throw e.
Proof.
  intros H. unfold lint_operation.
  destruct (get_throw _ "200" H) as [e He]. rewrite He. simpl. eauto.
Qed.

Lemma lint_operations_spec (path : string) (item : path_item)
    (r r' : lint_result) :
  lint_operations path item r = Ok r' ->
  (errors r' = 0 <->
   errors r = 0 /\ forall m op, In (m, op) item -> truthy (op_responses op) = true) /\
  (balanced r -> balanced r').
Proof.
  revert r. induction item as [|[method op] tl IH]; intros r; simpl.
  - intros [= <-]. intuition.
  - destruct (lint_operation path method op r) as [r1|] eqn:E1; simpl;
      [|discriminate].
    intros H. destruct (IH _ H) as [Herr Hbal].
    destruct (lint_operation_spec _ _ _ _ _ E1) as [He1 Hb1].
    split; [|tauto]. rewrite Herr, He1.
    destruct (truthy (op_responses op)) eqn:Et.
    + split.
      * intros [H0 Hall]. split; [lia|].
        intros m o [[= <- <-] | Hin]; eauto.
      * intros [H0 Hall]. split; [lia|]. intros m o Hin. apply (Hall m o). now right.
    + split.
      * intros [H0 _]. lia.
      * intros [_ Hall]. specialize (Hall method op (or_introl eq_refl)). congruence.
Qed.

Lemma lint_paths_spec (paths : list (string * path_item)) (r r' : lint_result) :
  lint_paths paths r = Ok r' ->
  (errors r' = 0 <->
   errors r = 0 /\
   forall path item m op,
     In (path, item) paths -> In (m, op) item -> truthy (op_responses op) = true) /\
  (balanced r -> balanced r').
Proof.
  revert r. induction paths as [|[path item] tl IH]; intros r; simpl.
  - intros [= <-]. intuition.
  - destruct (lint_operations path item r) as [r1|] eqn:E1; simpl;
      [|discriminate].
    intros H. destruct (IH _ H) as [Herr Hbal].
    destruct (lint_operations_spec _ _ _ _ E1) as [He1 Hb1].
    split; [|tauto]. rewrite Herr, He1. split.
    + intros [[H0 Hitem] Hall]. split; [exact H0|].
      intros p it m op [[= <- <-] | Hin] Hop; eauto.
    + intros [H0 Hall]. repeat split; auto.
      * intros m op Hop. apply (Hall path item m op); auto.
      * intros p it m op Hin Hop. apply (Hall p it m op); auto.
Qed.

Lemma lint_schemas_spec (schemas : list (string * value)) (r r' : lint_result) :
  lint_schemas schemas r = Ok r' ->
  errors r' = errors r /\ (balanced r -> balanced r').
Proof.
  revert r. induction schemas as [|[name schema] tl IH]; intros r; simpl.
  - intros [= <-]. tauto.
  - destruct (get schema "type") as [type|]; simpl; [|discriminate].
    intros H. destruct (IH _ H) as [He Hb].
    destruct (negb (truthy type) && negb (truthy (get_own schema "$ref")));
      simpl in *; [|tauto].
    split; [exact He|]. intros Hbal. apply Hb.
    now apply balanced_add_warning.
Qed.

(** The state of the linter before it walks the paths. *)
Lemma lint_header_spec (spec : document) :
  let r0 := {| errors := 0; warnings := 0; issues := [] |} in
  let r1 := if negb (truthy (get_opt (doc_info spec) "title"))
            then add_error "Missing info.title" r0 else r0 in
  let r2 := if negb (truthy (get_opt (doc_info spec) "version"))
            then add_error "Missing info.version" r1 else r1 in
  let r3 := match doc_paths spec with
            | [] => add_error "No paths defined" r2
            | _ => r2
            end in
  balanced r3 /\
  (errors r3 = 0 <->
   truthy (get_opt (doc_info spec) "title") = true /\
   truthy (get_opt (doc_info spec) "version") = true /\
   doc_paths spec <> []).
Proof.
  unfold balanced.
  destruct (truthy (get_opt (doc_info spec) "title"));
    destruct (truthy (get_opt (doc_info spec) "version"));
    destruct (doc_paths spec); simpl; split;
    try reflexivity; split; intros; try lia; try discriminate;
    intuition congruence.
Qed.

(** X17: When the linter returns, it has counted every issue it lists once,
    as an error or as a warning. *)
Theorem lint_counts_every_issue (spec : document) (r : lint_result) :
  lintOpenAPISpec spec = Ok r ->
  List.length (issues r) = errors r + warnings r.
Proof.
  unfold lintOpenAPISpec.
  destruct (lint_header_spec spec) as [Hb0 _]. cbv zeta in Hb0.
  destruct (lint_paths (doc_paths spec) _) as [r1|] eqn:E1; simpl; [|discriminate].
  intros H.
  destruct (lint_paths_spec _ _ _ E1) as [_ Hb1].
  destruct (lint_schemas_spec _ _ _ H) as [_ Hb2].
  apply Hb2, Hb1, Hb0.
Qed.

Lemma lint_counts_every_issue_witness :
  List.length
    [missing_success "/api/rules/grep" "get"] = 0 + 1.
Proof.
  apply (lint_counts_every_issue
           {| doc_info := sample_info;
              doc_paths := [("/api/rules/grep",
                             [("get", {| op_summary := VStr "Search rules";
                                         op_description := VUndef;
                                         op_tags := None; op_operationId := VUndef;
                                         op_parameters := VArr [];
                                         op_responses := VObj [];
                                         op_x_source := None;
                                         op_requestBody := VUndef;
                                         op_extensions := [] |})])];
              doc_schemas := [] |}
           {| errors := 0; warnings := 1;
              issues := [missing_success "/api/rules/grep" "get"] |}).
  reflexivity.
Defined.

(** X18: The linter reports no error exactly for a contract that has a title,
    a version, at least one path, and operations whose [responses] are
    all truthy; an empty response map counts as present. *)
Theorem lint_passes_iff (spec : document) (r : lint_result) :
  lintOpenAPISpec spec = Ok r ->
  (errors r = 0 <->
   truthy (get_opt (doc_info spec) "title") = true /\
   truthy (get_opt (doc_info spec) "version") = true /\
   doc_paths spec <> [] /\
   forall path item m op,
     In (path, item) (doc_paths spec) -> In (m, op) item ->
     truthy (op_responses op) = true).
Proof.
  unfold lintOpenAPISpec.
  destruct (lint_header_spec spec) as [_ He0]. cbv zeta in He0.
  destruct (lint_paths (doc_paths spec) _) as [r1|] eqn:E1; simpl; [|discriminate].
  intros H.
  destruct (lint_paths_spec _ _ _ E1) as [He1 _].
  destruct (lint_schemas_spec _ _ _ H) as [He2 _].
  rewrite He2, He1, He0. tauto.
Qed.

Lemma lint_passes_iff_witness :
  truthy (get_opt (doc_info (Edits.two_methods_contract)) "title") = true /\
  doc_paths Edits.two_methods_contract <> [].
Proof.
  destruct (lint_passes_iff Edits.two_methods_contract
              {| errors := 0; warnings := 0; issues := [] |} eq_refl)
    as [H _].
  destruct (H eq_refl) as [Ht [_ [Hp _]]]. split; assumption.
Defined.

(** X19: An operation without [responses] makes the linter throw: the error
    it records for the operation is never returned. *)
Theorem lint_throws_without_responses (spec : document)
    (path method : string) (item : path_item) (op : operation) :
  In (path, item) (doc_paths spec) ->
  In (method, op) item ->
  op_responses op = VUndef \/ op_responses op = VNull ->
  exists e, lintOpenAPISpec spec = Throw e.
Proof.
  intros Hpath Hop Hnull. unfold lintOpenAPISpec.
  match goal with |- context [lint_paths _ ?r0] => generalize r0 end.
  assert (Hops : forall it r, In (method, op) it ->
                   exists e, lint_operations path it r = Throw e).
  { induction it as [|[m o] tl IH]; intros r Hin; [contradiction|]. simpl.
    destruct Hin as [[= -> ->] | Hin].
    - destruct (lint_operation_throws path method op r Hnull) as [e He].
      rewrite He. simpl. eauto.
    - destruct (lint_operation path m o r) as [r1|]; simpl; eauto. }
  induction (doc_paths spec) as [|[p it] tl IH]; intros r; [contradiction|].
  simpl. destruct Hpath as [[= -> ->] | Hin].
  - destruct (Hops item r Hop) as [e He]. rewrite He. simpl. eauto.
  - destruct (lint_operations p it r) as [r1|]; simpl; [|eauto].
    destruct (IH Hin r1) as [e He]. exists e.
    destruct (lint_paths tl r1); simpl in *; congruence.
Qed.

Lemma lint_throws_without_responses_witness :
  exists e,
    lintOpenAPISpec
      {| doc_info := sample_info;
         doc_paths := [("/api/health",
                        [("get", {| op_summary := VStr "Health";
                                    op_description := VUndef;
                                    op_tags := None; op_operationId := VUndef;
                                    op_parameters := VArr [];
                                    op_responses := VUndef;
                                    op_x_source := None;
                                    op_requestBody := VUndef;
                                    op_extensions := [] |})])];
         doc_schemas := [] |} = Throw e.
Proof.
  eapply lint_throws_without_responses.
  - now left.
  - now left.
  - now left.
Defined.

End LintCountFacts.

(* ===================================================================== *)
(** * The capped tiers of the source mapper *)
(* ===================================================================== *)

Module TierFacts.
Import Scanner Manifest SourceMapper JsFacts SourceMapperFacts.

Lemma unique_from_spec (l seen : list string) :
  NoDup (unique_from seen l) /\
  forall x, In x (unique_from seen l) <-> In x l /\ ~ In x seen.
Proof.
  revert seen. induction l as [|y tl IH]; intros seen; simpl.
  - split; [constructor | tauto].
  - destruct (existsb (String.eqb y) seen) eqn:E.
    + apply existsb_exists in E. destruct E as [z [Hz Ez]].
      apply String.eqb_eq in Ez. subst z.
      destruct (IH seen) as [Hnd Hin]. split; [exact Hnd|].
      intros x. rewrite Hin. intuition congruence.
    + assert (Hy : ~ In y seen).
      { intros Hy. apply Bool.not_true_iff_false in E. apply E.
        apply existsb_exists. exists y. split; [exact Hy | apply String.eqb_refl]. }
      destruct (IH (y :: seen)) as [Hnd Hin]. split.
      * constructor; [|exact Hnd]. rewrite Hin. simpl. tauto.
      * intros x. simpl. rewrite Hin. simpl.
        destruct (string_dec y x) as [-> | Hne]; intuition congruence.
Qed.

Lemma NoDup_slice_0_3 {A : Type} (l : list A) :
  NoDup l -> NoDup (slice_0_3 l).
Proof.
  unfold slice_0_3. intros H. rewrite <- (firstn_skipn 3 l) in H.
  now apply NoDup_app_remove_r in H.
Qed.

Lemma in_matching (sources : index) (needle f : string) :
  In f (matching sources needle) <->
  exists sourceTag, In (sourceTag, f) sources /\ includes sourceTag needle = true.
Proof.
  unfold matching. rewrite in_map_iff. split.
  - intros [[t g] [Hg Hin]]. simpl in Hg. subst g.
    apply filter_In in Hin. exists t. tauto.
  - intros [t [Hin Hinc]]. exists (t, f). split; [reflexivity|].
    apply filter_In. tauto.
Qed.

Lemma NoDup_map_SourceFile (l : list string) :
  NoDup l -> NoDup (map SourceFile l).
Proof.
  intros H. induction H as [|x l Hx _ IH]; simpl; constructor; auto.
  intros Hin. apply in_map_iff in Hin as [y [[= ->] Hy]]. contradiction.
Qed.

(** X13: Tier 3: for an endpoint without a usable [x-source] and with a list
    of tags, the provenance has no repetition and at most three entries,
    each the file of an index tag that contains one of the endpoint's
    tags; when at most three distinct files match, all of them are
    there. *)
Theorem tags_tier_sound (ep : endpoint) (sources : index) (tags : list string) :
  ep_x_source ep = XsAbsent ->
  ep_tags ep = Some tags ->
  let result := resolveEndpointSources ep sources in
  NoDup result /\
  List.length result <= 3 /\
  (forall e, In e result ->
     exists f tag sourceTag,
       e = SourceFile f /\
       In tag tags /\ In (sourceTag, f) sources /\ includes sourceTag tag = true) /\
  (List.length (unique (flat_map (matching sources) tags)) <= 3 ->
   forall tag sourceTag f,
     In tag tags -> In (sourceTag, f) sources -> includes sourceTag tag = true ->
     In (SourceFile f) result).
Proof.
  intros Hxs Htags result. unfold result, resolveEndpointSources, resolve_by_tags.
  rewrite Hxs, Htags.
  destruct (unique_from_spec (flat_map (matching sources) tags) []) as [Hnd Hin].
  fold (unique (flat_map (matching sources) tags)) in Hnd, Hin.
  repeat split.
  - apply NoDup_map_SourceFile. now apply NoDup_slice_0_3.
  - rewrite length_map. apply firstn_le_length.
  - intros e He. apply in_map_SourceFile in He as [f [-> Hf]].
    apply in_slice_0_3 in Hf. apply Hin in Hf.
    destruct Hf as [Hf _]. apply in_flat_map in Hf. destruct Hf as [tag [Ht Hm]].
    apply in_matching in Hm. destruct Hm as [sourceTag [Hs Hi]].
    exists f, tag, sourceTag. auto.
  - intros Hlen tag sourceTag f Ht Hs Hi. apply in_map.
    unfold slice_0_3. rewrite firstn_all2 by exact Hlen.
    apply Hin. split; [|intros []].
    apply in_flat_map. exists tag. split; [exact Ht|].
    apply in_matching. eauto.
Qed.

Lemma tags_tier_sound_witness :
  NoDup (resolveEndpointSources (hinted XsAbsent (Some ["GOV"; "HEADER"])) sample_index).
Proof.
  apply (tags_tier_sound (hinted XsAbsent (Some ["GOV"; "HEADER"])) sample_index
           ["GOV"; "HEADER"] eq_refl eq_refl).
Defined.

(** X14: Outside the tier of an explicit list of patterns, the provenance of
    an endpoint has at most three entries. *)
Theorem provenance_capped (ep : endpoint) (sources : index) :
  (forall patterns, ep_x_source ep <> XsArray patterns) ->
  List.length (resolveEndpointSources ep sources) <= 3.
Proof.
  intros Hxs. unfold resolveEndpointSources.
  assert (Htags : List.length (map SourceFile (resolve_by_tags ep sources)) <= 3).
  { rewrite length_map. unfold resolve_by_tags.
    destruct (ep_tags ep); apply firstn_le_length. }
  destruct (ep_x_source ep) as [|patterns|pattern|]; auto.
  - now destruct (Hxs patterns).
  - destruct (nonempty pattern); auto.
    destruct (direct sources pattern); [simpl; lia|].
    rewrite length_map. apply firstn_le_length.
Qed.

Lemma provenance_capped_witness :
  List.length (resolveEndpointSources (hinted (XsString "-") None) sample_index) <= 3.
Proof.
  apply provenance_capped. intros patterns. discriminate.
Defined.

(** The list tier has no such cap. *)
Example patterns_uncapped :
  List.length
    (resolveEndpointSources
       (hinted (XsArray ["GOV"; "SEC"; "OPS"; "AUDIT"; "LEAK"]) None) sample_index)
  = 5.
Proof. reflexivity. Qed.

End TierFacts.

(* ===================================================================== *)
(** * The tag index as a whole *)
(* ===================================================================== *)

Module IndexFacts.
Import Scanner JsFacts ScannerFacts.

Section Scan.

Variable read_text : string -> option string.

Lemma keys_fold_scan (rest : list string) (sources : index) (tag : string) :
  In tag (keys (fold_left (scan_file read_text) rest sources)) <->
  In tag (keys sources) \/
  exists f, In f rest /\ file_tag read_text f = Some tag.
Proof.
  revert sources. induction rest as [|g rest IH]; intros sources; simpl.
  - split; [tauto | intros [H | [f [[] _]]]; exact H].
  - rewrite IH. destruct (file_tag read_text g) as [t|] eqn:Et.
    + rewrite (scan_file_tagged _ _ _ _ Et). rewrite keys_set_prop. split.
      * intros [[-> | H] | [f [Hf Ht]]]; eauto.
      * intros [H | [f [[<- | Hf] Ht]]]; eauto.
        left. left. congruence.
    + rewrite (scan_file_untagged _ _ _ Et). split.
      * intros [H | [f [Hf Ht]]]; eauto.
      * intros [H | [f [[<- | Hf] Ht]]]; eauto. congruence.
Qed.

(** X3: The index after the scan: its tags are exactly the first tags of the
    rule documents that could be read, each listed once, and each is
    mapped to a scanned document of which it is the first tag. *)
Theorem index_sound_and_complete (mdFiles : list string) :
  let sources := scan_sources read_text mdFiles in
  NoDup (keys sources) /\
  (forall tag,
      In tag (keys sources) <->
      exists f, In f mdFiles /\ file_tag read_text f = Some tag) /\
  (forall tag f,
      lookup tag sources = Some f ->
      In f mdFiles /\ file_tag read_text f = Some tag) /\
  List.length sources <= List.length mdFiles.
Proof.
  intros sources. unfold sources.
  destruct (index_ok_scan_sources read_text mdFiles) as [Hnd Hin].
  repeat split.
  - exact Hnd.
  - unfold scan_sources. intros H. apply keys_fold_scan in H.
    destruct H as [[] | H]. exact H.
  - unfold scan_sources. intros H. apply keys_fold_scan. now right.
  - apply lookup_in in H. now apply Hin in H.
  - apply lookup_in in H. now apply Hin in H.
  - unfold scan_sources.
    assert (Hlen : forall rest acc,
               List.length (fold_left (scan_file read_text) rest acc)
               <= List.length acc + List.length rest).
    { induction rest as [|g rest IH]; intros acc; simpl; [lia|].
      specialize (IH (scan_file read_text acc g)).
      assert (List.length (scan_file read_text acc g) <= S (List.length acc)).
      { unfold scan_file. destruct (read_text g); [|lia].
        destruct (first_tag s); [|lia].
        clear. induction acc as [|[k v] tl IHa]; simpl; [lia|].
        destruct (k =? s0); simpl; lia. }
      lia. }
    apply (Hlen mdFiles []).
Qed.

End Scan.

End IndexFacts.

(* ===================================================================== *)
(** * Deep clone and reference resolution *)
(* ===================================================================== *)

Module ResolverFacts.
Import Assembler Breaking Walks JsFacts.

(** ** The walks *)

Lemma json_clone_arr (l : list value) :
  json_clone (VArr l) = VArr (clone_items l).
Proof.
  simpl. f_equal. induction l as [|x tl IH]; [reflexivity|].
  destruct x; simpl; now rewrite IH.
Qed.

Lemma json_clone_obj (kvs : list (string * value)) :
  json_clone (VObj kvs) = VObj (clone_props kvs).
Proof.
  simpl. f_equal. induction kvs as [|[k x] tl IH]; [reflexivity|].
  destruct x; simpl; now rewrite IH.
Qed.

Lemma stringify_arr (l : list value) :
  stringify (VArr l) = Some ("[" ++ join "," (stringify_items l) ++ "]")%string.
Proof.
  simpl.
  match goal with |- Some (String _ (join _ ?t ++ _)%string) = _ =>
    assert (H : t = stringify_items l) end.
  { induction l as [|x tl IH]; [reflexivity|]. simpl. now rewrite IH. }
  now rewrite H.
Qed.

Lemma stringify_obj (kvs : list (string * value)) :
  stringify (VObj kvs) = Some ("{" ++ join "," (stringify_props kvs) ++ "}")%string.
Proof.
  simpl.
  match goal with |- Some (String _ (join _ ?t ++ _)%string) = _ =>
    assert (H : t = stringify_props kvs) end.
  { induction kvs as [|[k x] tl IH]; [reflexivity|].
    simpl. rewrite IH. now destruct (stringify x). }
  now rewrite H.
Qed.

Lemma clone_props_cons (k : string) (x : value) (tl : list (string * value)) :
  clone_props ((k, x) :: tl) =
  match x with VUndef => [] | _ => [(k, json_clone x)] end ++ clone_props tl.
Proof. reflexivity. Qed.

Lemma stringify_props_cons (k : string) (x : value) (tl : list (string * value)) :
  stringify_props ((k, x) :: tl) =
  match stringify x with
  | Some t => [(quote k ++ ":" ++ t)%string]
  | None => []
  end ++ stringify_props tl.
Proof. reflexivity. Qed.

Lemma stringify_props_app (l1 l2 : list (string * value)) :
  stringify_props (l1 ++ l2) = stringify_props l1 ++ stringify_props l2.
Proof. apply flat_map_app. Qed.

Lemma clone_props_app (l1 l2 : list (string * value)) :
  clone_props (l1 ++ l2) = clone_props l1 ++ clone_props l2.
Proof. apply flat_map_app. Qed.

Lemma clone_items_cons (x : value) (tl : list value) :
  clone_items (x :: tl) =
  match x with VUndef => VNull | _ => json_clone x end :: clone_items tl.
Proof. reflexivity. Qed.

Lemma stringify_items_cons (x : value) (tl : list value) :
  stringify_items (x :: tl) =
  match stringify x with Some t => t | None => "null" end :: stringify_items tl.
Proof. reflexivity. Qed.

(** A clone is never [undefined], unless the value is. *)
Lemma json_clone_undef (x : value) : json_clone x = VUndef -> x = VUndef.
Proof. destruct x; simpl; congruence. Qed.

(** ** The clone and the serializer *)

(** [JSON.stringify] cannot tell a value from its deep clone: what the
    clone drops or replaces is what the serializer leaves out or writes
    as [null]. *)
Theorem stringify_json_clone (v : value) :
  stringify (json_clone v) = stringify v.
Proof.
  induction v as [| | b | n | s | l IH | kvs IH] using value_nested_ind;
    try reflexivity.
  - rewrite json_clone_arr, !stringify_arr.
    enough (H : stringify_items (clone_items l) = stringify_items l)
      by (now rewrite H).
    induction IH as [|x tl Hx _ IHtl]; [reflexivity|].
    rewrite clone_items_cons, !stringify_items_cons, IHtl. f_equal.
    destruct x; try (now rewrite Hx). reflexivity.
  - rewrite json_clone_obj, !stringify_obj.
    enough (H : stringify_props (clone_props kvs) = stringify_props kvs)
      by (now rewrite H).
    induction IH as [|[k x] tl Hx _ IHtl]; [reflexivity|].
    rewrite clone_props_cons, stringify_props_app, stringify_props_cons, IHtl.
    f_equal. simpl in Hx.
    destruct x; try reflexivity;
      rewrite stringify_props_cons, Hx; apply app_nil_r.
Qed.

(** Cloning a clone changes nothing. *)
Theorem json_clone_idempotent (v : value) :
  json_clone (json_clone v) = json_clone v.
Proof.
  induction v as [| | b | n | s | l IH | kvs IH] using value_nested_ind;
    try reflexivity.
  - rewrite !json_clone_arr. f_equal.
    induction IH as [|x tl Hx _ IHtl]; [reflexivity|].
    rewrite !clone_items_cons, IHtl. f_equal.
    destruct x; try reflexivity; rewrite Hx;
      match goal with |- match ?c with _ => _ end = _ =>
        destruct c eqn:E; try reflexivity;
        apply json_clone_undef in E; discriminate end.
  - rewrite !json_clone_obj. f_equal.
    induction IH as [|[k x] tl Hx _ IHtl]; [reflexivity|].
    rewrite clone_props_cons, clone_props_app, IHtl. f_equal. simpl in Hx.
    destruct x; try reflexivity;
      rewrite clone_props_cons, Hx, app_nil_r;
      match goal with |- match ?c with _ => _ end = _ =>
        destruct c eqn:E; try reflexivity;
        apply json_clone_undef in E; discriminate end.
Qed.

(** ** Reference resolution *)

Section Resolve.

Variable semanticSchemas : list (string * value).
Variable ruleDefinitions : list (string * value).

Lemma resolve_obj (kvs : list (string * value)) :
  resolveSchemaReferences semanticSchemas ruleDefinitions (VObj kvs) =
  (kvs' <- resolve_props semanticSchemas ruleDefinitions kvs ;; Ok (VObj kvs')).
Proof. reflexivity. Qed.

Lemma resolve_arr (l : list value) :
  resolveSchemaReferences semanticSchemas ruleDefinitions (VArr l) =
  (l' <- resolve_items semanticSchemas ruleDefinitions l ;; Ok (VArr l')).
Proof. reflexivity. Qed.

Lemma resolve_props_keys (kvs kvs' : list (string * value)) :
  resolve_props semanticSchemas ruleDefinitions kvs = Ok kvs' ->
  keys kvs' = keys kvs.
Proof.
  revert kvs'. induction kvs as [|[k x] tl IH]; intros kvs'; simpl.
  - now intros [= <-].
  - destruct (resolve_prop semanticSchemas ruleDefinitions k x); simpl;
      [|discriminate].
    destruct (resolve_props semanticSchemas ruleDefinitions tl) as [tl'|]; simpl;
      [|discriminate].
    intros [= <-]. simpl. f_equal. now apply IH.
Qed.

Lemma resolve_items_length (l l' : list value) :
  resolve_items semanticSchemas ruleDefinitions l = Ok l' ->
  List.length l' = List.length l.
Proof.
  revert l'. induction l as [|x tl IH]; intros l'; simpl.
  - now intros [= <-].
  - destruct (resolveSchemaReferences semanticSchemas ruleDefinitions x); simpl; [|discriminate].
    destruct (resolve_items semanticSchemas ruleDefinitions tl) as [tl'|]; simpl;
      [|discriminate].
    intros [= <-]. simpl. f_equal. now apply IH.
Qed.

(** X9: Resolution keeps the shape of what it walks: an object keeps its
    property names in their order, an array keeps its length, and any
    other value is returned as it is. *)
Theorem resolution_keeps_shape (obj obj' : value) :
  resolveSchemaReferences semanticSchemas ruleDefinitions obj = Ok obj' ->
  match obj with
  | VObj kvs => exists kvs', obj' = VObj kvs' /\ keys kvs' = keys kvs
  | VArr l => exists l', obj' = VArr l' /\ List.length l' = List.length l
  | _ => obj' = obj
  end.
Proof.
  destruct obj as [| | b | n | s | l | kvs]; try (simpl; congruence).
  - rewrite resolve_arr.
    destruct (resolve_items semanticSchemas ruleDefinitions l) as [l'|] eqn:E;
      simpl; [|discriminate].
    intros [= <-]. exists l'. split; [reflexivity|]. now apply resolve_items_length.
  - rewrite resolve_obj.
    destruct (resolve_props semanticSchemas ruleDefinitions kvs) as [kvs'|] eqn:E;
      simpl; [|discriminate].
    intros [= <-]. exists kvs'. split; [reflexivity|]. now apply resolve_props_keys.
Qed.

Lemma strip_prefix_app (p s : string) : strip_prefix p (p ++ s) = Some s.
Proof.
  induction p as [|c p IH]; simpl; [now destruct s|].
  now rewrite Ascii.eqb_refl.
Qed.


End Resolve.


Lemma resolution_keeps_shape_witness :
  exists kvs',
    VObj [("type", VStr "object"); ("title", VStr "Shape")] = VObj kvs' /\
    keys kvs' = keys [("type", VStr "object"); ("title", VStr "Shape")].
Proof.
  apply (resolution_keeps_shape [] []
           (VObj [("type", VStr "object"); ("title", VStr "Shape")])
           (VObj [("type", VStr "object"); ("title", VStr "Shape")])).
  reflexivity.
Defined.

(** X11: Without rule definitions the resolution never throws. *)
Theorem resolution_total_without_rules
    (semanticSchemas : list (string * value)) (obj : value) :
  exists obj', resolveSchemaReferences semanticSchemas [] obj = Ok obj'.
Proof.
  induction obj as [| | b | n | s | l IH | kvs IH] using value_nested_ind;
    try (eexists; reflexivity).
  - rewrite resolve_arr.
    enough (H : exists l', resolve_items semanticSchemas [] l = Ok l').
    { destruct H as [l' H]. rewrite H. simpl. eauto. }
    induction IH as [|x tl [x' Hx] _ [tl' Htl]]; simpl; [eauto|].
    rewrite Hx, Htl. simpl. eauto.
  - rewrite resolve_obj.
    enough (H : exists kvs', resolve_props semanticSchemas [] kvs = Ok kvs').
    { destruct H as [kvs' H]. rewrite H. simpl. eauto. }
    induction IH as [|[k x] tl Hx _ [tl' Htl]]; simpl; [eauto|].
    assert (Hp : exists x', resolve_prop semanticSchemas [] k x = Ok x').
    { destruct x; try exact Hx. simpl.
      destruct (k =? "$ref"); [|eauto]. unfold resolve_ref.
      destruct (strip_prefix "#/components/schemas/" s) as [schemaName|].
      - destruct (lookup schemaName semanticSchemas); eauto.
      - destruct (strip_prefix "#/rules/" s); simpl; eauto. }
    destruct Hp as [x' Hx']. rewrite Hx', Htl. simpl. eauto.
Qed.




End ResolverFacts.

(* ===================================================================== *)
(** * The paths of the generated contract *)
(* ===================================================================== *)

Module GeneratorFacts.
Import Scanner Manifest SourceMapper Assembler Edits.
Import JsFacts SourceMapperFacts LinterFacts BreakingFacts AuditorFacts.

Section Generated.

Variable basePath : string.
Variable scope : value.
Variable semanticSchemas : list (string * value).
Variable ruleDefinitions : list (string * value).
Variable sources : index.

(** What an emitted operation takes over from its endpoint. *)
Lemma endpoint_operation_fields (ep : endpoint) (op : operation) :
  endpoint_operation scope semanticSchemas ruleDefinitions sources ep = Ok op ->
  op_x_source op = Some (resolveEndpointSources ep sources) /\
  op_summary op = ep_summary ep /\
  op_description op = ep_description ep /\
  op_tags op = ep_tags ep.
Proof.
  unfold endpoint_operation.
  destruct (resolveSchemaReferences semanticSchemas ruleDefinitions
              (if truthy (ep_parameters ep) then _ else _)) as [ps|]; simpl;
    [|discriminate].
  destruct (resolveSchemaReferences semanticSchemas ruleDefinitions
              (if truthy (ep_responses ep) then _ else _)) as [rs|]; simpl;
    [|discriminate].
  match goal with |- bind ?m _ = _ -> _ => destruct m as [rb|] end; simpl;
    [|discriminate].
  destruct (inject_dynamic_enums scope ps) as [ps'|]; simpl; [|discriminate].
  intros [= <-]. simpl. auto.
Qed.









(** Every source file that the generated contract refers to is a file
    of the tag index. *)
(** X16: The generator and the source mapper together: every operation
    of a generated contract has an [x-source] array, and each of its
    entries is a file of the tag index, or else the member that the
    index inherits from [Object.prototype] under a name that one of the
    endpoints gives as its [x-source] or as one of its patterns and that
    is no tag of the index. *)
Theorem generated_provenance_origin (info : value) (endpoints : list endpoint)
    (doc : document) (path method : string) (item : path_item)
    (op : operation) :
  generateOpenAPI basePath scope semanticSchemas ruleDefinitions sources
    info endpoints = Ok doc ->
  In (path, item) (doc_paths doc) -> In (method, op) item ->
  exists entries,
    op_x_source op = Some entries /\
    forall e, In e entries ->
      (exists f, e = SourceFile f /\ In f (values sources)) \/
      (exists name ep,
         e = Inherited name /\ inherited name = true /\
         lookup name sources = None /\ In ep endpoints /\
         (ep_x_source ep = XsString name \/
          exists patterns,
            ep_x_source ep = XsArray patterns /\ In name patterns)).
Proof.
  unfold generateOpenAPI.
  destruct (generate_paths basePath scope semanticSchemas ruleDefinitions
              sources [] endpoints) as [paths|] eqn:Egen; simpl; [|discriminate].
  intros [= <-]. simpl.
  assert (Hinv : from_endpoints scope semanticSchemas ruleDefinitions sources [] [])
    by (intros ? ? ? ? []).
  pose proof (from_endpoints_generate basePath scope semanticSchemas
                ruleDefinitions sources endpoints [] [] paths Hinv Egen) as Hall.
  intros Hpath Hop.
  destruct (Hall _ _ _ _ Hpath Hop) as [ep [Hin Hep]].
  apply endpoint_operation_fields in Hep. destruct Hep as [Hxs _].
  exists (resolveEndpointSources ep sources). split; [exact Hxs|].
  intros e He.
  destruct (resolveEndpointSources_origin _ _ _ He)
    as [Hf | [name [H1 [H2 [H3 H4]]]]]; [now left|].
  right. exists name, ep. auto.
Qed.

End Generated.


Lemma generated_provenance_origin_witness :
  exists entries,
    op_x_source (traced_operation [Inherited "toString"]) = Some entries /\
    forall e, In e entries ->
      (exists f, e = SourceFile f /\ In f (values sample_sources)) \/
      (exists name ep,
         e = Inherited name /\ inherited name = true /\
         lookup name sample_sources = None /\ In ep [ep_toString] /\
         (ep_x_source ep = XsString name \/
          exists patterns,
            ep_x_source ep = XsArray patterns /\ In name patterns)).
Proof.
  apply (generated_provenance_origin "/api" (VArr [VStr "GOV"]) [] []
           sample_sources sample_info [ep_toString]
           {| doc_info := sample_info;
              doc_paths :=
                [("/api/rules/grep",
                  [("get", traced_operation [Inherited "toString"])])];
              doc_schemas := generate_schemas (VArr [VStr "GOV"]) [] |}
           "/api/rules/grep" "get"
           [("get", traced_operation [Inherited "toString"])]
           (traced_operation [Inherited "toString"])).
  - reflexivity.
  - left. reflexivity.
  - left. reflexivity.
Defined.

End GeneratorFacts.

(* ===================================================================== *)
(** * The tally of the auditor *)
(* ===================================================================== *)

Module TallyFacts.
Import Assembler Auditor AuditorFacts.

Lemma tally_ok_operation (path method : string) (op : operation) (t : tally) :
  tally_ok t -> tally_ok (analyze_operation path method op t).
Proof.
  intros [Htr Hor]. unfold tally_ok, analyze_operation. simpl.
  rewrite !filter_app, !map_app, !length_app.
  destruct (op_x_source op) as [[|s l]|]; simpl; rewrite <- ?Htr, <- ?Hor;
    rewrite ?app_nil_r; split; try reflexivity; lia.
Qed.

Lemma tally_ok_path (t : tally) (entry : string * path_item) :
  tally_ok t -> tally_ok (analyze_path t entry).
Proof.
  unfold analyze_path. destruct entry as [path item]. simpl.
  revert t. induction item as [|[m op] tl IH]; intros t Ht; simpl; [exact Ht|].
  apply IH. now apply tally_ok_operation.
Qed.

Lemma tally_ok_paths (paths : list (string * path_item)) (t : tally) :
  tally_ok t -> tally_ok (fold_left analyze_path paths t).
Proof.
  revert t. induction paths as [|entry tl IH]; intros t Ht; simpl; [exact Ht|].
  apply IH. now apply tally_ok_path.
Qed.

Lemma filter_partition_length {A : Type} (p : A -> bool) (l : list A) :
  List.length (filter p l) + List.length (filter (fun x => negb (p x)) l)
  = List.length l.
Proof.
  induction l as [|a tl IH]; simpl; [reflexivity|].
  destruct (p a); simpl; lia.
Qed.

Lemma details_length (paths : list (string * path_item)) :
  List.length
    (flat_map (fun entry =>
                 map (fun mo => detail_of (fst entry) (fst mo) (snd mo)) (snd entry))
              paths)
  = List.length (flat_map (fun entry => map snd (snd entry)) paths).
Proof.
  induction paths as [|[p item] tl IH]; simpl; [reflexivity|].
  rewrite !length_app, !length_map. now rewrite IH.
Qed.

Lemma filter_nil_iff {A : Type} (p : A -> bool) (l : list A) :
  filter p l = [] <-> forall x, In x l -> p x = false.
Proof.
  induction l as [|a tl IH]; simpl.
  - split; [intros _ x [] | reflexivity].
  - destruct (p a) eqn:E.
    + split; [discriminate|]. intros H. specialize (H a (or_introl eq_refl)).
      congruence.
    + rewrite IH. split.
      * intros H x [<- | Hx]; auto.
      * intros H x Hx. apply H. now right.
Qed.

Lemma no_orphan_iff (paths : list (string * path_item)) :
  map endpoint
    (filter (fun d => negb (hasSources d))
       (flat_map (fun entry =>
                    map (fun mo => detail_of (fst entry) (fst mo) (snd mo))
                        (snd entry))
                 paths)) = [] <->
  forall op, In op (flat_map (fun entry => map snd (snd entry)) paths) ->
             is_traced op = true.
Proof.
  split.
  - intros H. apply map_eq_nil in H. rewrite filter_nil_iff in H.
    intros op Hop. apply in_flat_map in Hop. destruct Hop as [[path item] [Hp Hop]].
    apply in_map_iff in Hop. destruct Hop as [[m o] [Ho Hin]]. simpl in Ho. subst o.
    specialize (H (detail_of path m op)). simpl in H.
    apply negb_false_iff. apply H.
    apply in_flat_map. exists (path, item). split; [exact Hp|].
    apply in_map_iff. exists (m, op). auto.
  - intros H.
    assert (Hf : filter (fun d => negb (hasSources d))
                   (flat_map (fun entry =>
                      map (fun mo => detail_of (fst entry) (fst mo) (snd mo))
                          (snd entry)) paths) = []).
    { apply filter_nil_iff. intros d Hd.
      apply in_flat_map in Hd. destruct Hd as [[path item] [Hp Hd]].
      apply in_map_iff in Hd. destruct Hd as [[m op] [<- Hin]]. simpl.
      apply negb_false_iff. apply H.
      apply in_flat_map. exists (path, item). split; [exact Hp|].
      apply in_map_iff. exists (m, op). auto. }
    now rewrite Hf.
Qed.

(** X23: The report accounts for every operation once: it has one detail per
    method of each path, in order; the traced operations are counted and
    the others are listed as orphans by name, so that the traced count
    and the number of orphans add up to the number of operations, which
    is not the total that the report states when a path has several
    methods or none. *)
Theorem report_accounts_for_operations (spec : document) :
  let report := analyzeTraceability spec in
  List.length (details report) = total_operations spec /\
  tracedEndpoints report + List.length (orphanEndpoints report)
    = total_operations spec /\
  orphanEndpoints report
    = map endpoint (filter (fun d => negb (hasSources d)) (details report)) /\
  (orphanEndpoints report = [] <->
   forall op, In op (operations spec) -> is_traced op = true).
Proof.
  intros report. unfold report.
  assert (Hok : tally_ok (fold_left analyze_path (doc_paths spec)
                            {| t_traced := 0; t_orphans := []; t_details := [] |}))
    by (apply tally_ok_paths; split; reflexivity).
  destruct Hok as [Htr Hor].
  destruct (analyze_paths_spec (doc_paths spec)
              {| t_traced := 0; t_orphans := []; t_details := [] |}) as [_ Hde].
  simpl in Hde.
  assert (Hlen : List.length (details (analyzeTraceability spec))
                 = total_operations spec).
  { unfold analyzeTraceability. simpl. rewrite Hde.
    apply details_length. }
  assert (Horph : orphanEndpoints (analyzeTraceability spec)
                  = map endpoint (filter (fun d => negb (hasSources d))
                                         (details (analyzeTraceability spec))))
    by exact Hor.
  split; [exact Hlen|]. split; [|split; [exact Horph|]].
  - rewrite <- Hlen, Horph, length_map.
    unfold analyzeTraceability at 1. simpl. rewrite Htr.
    apply filter_partition_length.
  - rewrite Horph. unfold analyzeTraceability. simpl. rewrite Hde.
    apply no_orphan_iff.
Qed.

End TallyFacts.

(* ===================================================================== *)
(** * What an accepted manifest has *)
(* ===================================================================== *)

Module AcceptanceFacts.
Import Validator.

Lemma Ok_inj {A : Type} (a b : A) : Ok a = Ok b -> a = b.
Proof. congruence. Qed.

Lemma push_if_nil (cond : bool) (msg : string) (errors : list string) :
  push_if cond msg errors = [] -> cond = false /\ errors = [].
Proof.
  unfold push_if. destruct cond; [|auto].
  destruct errors; discriminate.
Qed.

Lemma validate_endpoint_nil (errors : list string) (ep : value) (index : nat) :
  validate_endpoint errors ep index = Ok [] ->
  errors = [] /\ endpoint_complete ep.
Proof.
  unfold validate_endpoint, endpoint_complete.
  destruct ep; cbn [get bind get_path]; try discriminate;
    intros H; apply Ok_inj in H;
    apply push_if_nil in H; destruct H as [H3 H];
    apply push_if_nil in H; destruct H as [H2 H];
    apply push_if_nil in H; destruct H as [H1 H];
    apply negb_false_iff in H1, H2, H3; auto.
Qed.

Lemma validate_endpoint_grows (errors errors' : list string) (ep : value)
    (index : nat) :
  validate_endpoint errors ep index = Ok errors' -> errors' = [] -> errors = [].
Proof.
  intros H ->. now apply validate_endpoint_nil in H.
Qed.

Lemma validate_endpoints_nil (eps : list value) (errors : list string)
    (index : nat) :
  validate_endpoints errors eps index = Ok [] ->
  errors = [] /\ Forall endpoint_complete eps.
Proof.
  revert errors index. induction eps as [|ep tl IH]; intros errors index; simpl.
  - intros [= ->]. auto.
  - destruct (validate_endpoint errors ep index) as [e1|] eqn:E1; simpl;
      [|discriminate].
    intros H. apply IH in H. destruct H as [-> Htl].
    apply validate_endpoint_nil in E1. destruct E1 as [-> Hep].
    split; [reflexivity | now constructor].
Qed.

(** One step in taking apart a run of the validator that ended without
    violations. *)
Ltac step :=
  match goal with
  | H : Ok _ = Ok [] |- _ => apply Ok_inj in H
  | H : push_if _ _ _ = [] |- _ =>
      apply push_if_nil in H; let H' := fresh "Hc" in destruct H as [H' H]
  | H : ?x = [] |- _ => is_var x; subst x
  | H : validate_endpoints _ _ _ = Ok [] |- _ =>
      apply validate_endpoints_nil in H; let H' := fresh "Heps" in destruct H as [H H']
  | H : bind ?m _ = Ok _ |- _ =>
      let E := fresh "E" in destruct m eqn:E; cbn [bind] in H; [|discriminate H]
  | H : (if ?c then _ else _) = Ok _ |- _ =>
      let E := fresh "Ec" in destruct c eqn:E
  | H : match ?v with VArr _ => _ | _ => _ end = Ok _ |- _ => destruct v
  end.

(** X1: A manifest that the validator accepts has a truthy version, a scope
    list that is an array, grep patterns, a base path, and an array of
    endpoints that each have a path, a method and a summary. The
    [rules.api.openapi] section is checked for a titled [info] only if
    it is there. *)
Theorem accepted_manifest_shape (bunYaml : value) :
  validateBunYamlStructure bunYaml = Ok [] ->
  (exists version, bunYaml.["version"] = Ok version /\ truthy version = true) /\
  (exists scope, bunYaml.["rules"; "header"; "schema"; "scope"] = Ok (VArr scope)) /\
  (exists patterns,
      bunYaml.["rules"; "header"; "grep"; "patterns"] = Ok patterns /\
      truthy patterns = true) /\
  (exists basePath,
      bunYaml.["rules"; "api"; "basePath"] = Ok basePath /\ truthy basePath = true) /\
  (exists endpoints,
      bunYaml.["rules"; "api"; "endpoints"] = Ok (VArr endpoints) /\
      Forall endpoint_complete endpoints) /\
  (forall openapi,
      bunYaml.["rules"; "api"; "openapi"] = Ok openapi -> truthy openapi = true ->
      exists title,
        bunYaml.["rules"; "api"; "openapi"; "info"; "title"] = Ok title /\
        truthy title = true).
Proof.
  intros H. unfold validateBunYamlStructure in H.
  repeat step.
  all: repeat match goal with
       | H : negb _ = false |- _ => apply negb_false_iff in H
       | H : _ || _ = false |- _ => apply orb_false_iff in H; destruct H
       | H : Ok _ = Ok _ |- _ => apply Ok_inj in H
       end.
  all: subst.
  all: try discriminate.
  all: try (simpl in *; congruence).
  all: match goal with H : isArray ?v = true |- _ => is_var v; destruct v; try discriminate H end.
  all: match goal with H : isArray ?v = true |- _ => is_var v; destruct v; try discriminate H | _ => idtac end.
  all: repeat match goal with
       | H : negb _ = false |- _ => apply negb_false_iff in H
       end.
  all: repeat split; eauto.
  all: intros openapi Heq Ht; apply Ok_inj in Heq; subst; congruence.
Qed.

Lemma accepted_manifest_shape_witness :
  exists endpoints,
    manifest_ok.["rules"; "api"; "endpoints"] = Ok (VArr endpoints) /\
    Forall endpoint_complete endpoints.
Proof.
  destruct (accepted_manifest_shape manifest_ok eq_refl)
    as [_ [_ [_ [_ [H _]]]]].
  exact H.
Defined.

(** A manifest without the [rules.api.openapi] section is accepted. *)
Example validate_no_openapi :
  validateBunYamlStructure manifest_no_openapi = Ok [].
Proof. reflexivity. Qed.

End AcceptanceFacts.

(* ===================================================================== *)
(** * Properties of the source map consumer *)
(* ===================================================================== *)

Module SourceMapFacts.
Import SourceMap.

Local Open Scope Z_scope.

Example decode_single_digits : decodeVLQ "AAAA" = [0; 0; 0; 0].
Proof. reflexivity. Qed.

(** The decoder returns the raw value, sign bit included: [C] is the
    VLQ text of 1 and decodes to 2; [gB] spells 0 + 32 * 1. *)
Example decode_raw_values : decodeVLQ "C,gB;D" = [2; 32; 3].
Proof. reflexivity. Qed.

(** A group left open at the end of the text is dropped. *)
Example decode_open_group : decodeVLQ "Cg" = [2].
Proof. reflexivity. Qed.

Lemma index_from_range (c : ascii) (s : string) (i k : Z) :
  index_from i c s = Some k -> i <= k < i + Z.of_nat (String.length s).
Proof.
  revert i. induction s as [|d r IH]; intros i; simpl; [discriminate|].
  destruct (Ascii.eqb d c).
  - intros [= <-]. lia.
  - intros H. apply IH in H. lia.
Qed.

Lemma indexOf_range (c : ascii) (k : Z) : indexOf c = Some k -> 0 <= k < 64.
Proof. intros H. apply index_from_range in H. simpl in H. lia. Qed.

(** The decoder reads the digits of the text and nothing else. *)
Lemma decode_digits_only (a b : string) :
  digits a = digits b ->
  forall result value shift,
    decode a result value shift = decode b result value shift.
Proof.
  revert b. induction a as [|c a IHa]; intros b.
  - simpl. induction b as [|d b IHb]; simpl; [reflexivity|].
    destruct (indexOf d); [discriminate|]. intros H result value shift. now apply IHb.
  - simpl. destruct (indexOf c) as [i|] eqn:Ec.
    + induction b as [|d b IHb]; simpl; [discriminate|].
      destruct (indexOf d) as [j|] eqn:Ed.
      * intros [= <- H] result value shift.
        destruct (negb (Z.land i 32 =? 0)); now apply IHa.
      * intros H result value shift. now apply IHb.
    + intros H result value shift. now apply IHa.
Qed.

Lemma decode_as_digits (vlq : string) (result : list Z) (value shift : Z) :
  decode vlq result value shift = decode_digits (digits vlq) result value shift.
Proof.
  revert result value shift. induction vlq as [|c r IH]; intros; simpl;
    [reflexivity|].
  destruct (indexOf c) as [i|]; simpl; [|apply IH].
  destruct (negb (Z.land i 32 =? 0)); apply IH.
Qed.

(** ** The number of values *)

Lemma decode_digits_length (ds : list Z) (result : list Z) (value shift : Z) :
  List.length (decode_digits ds result value shift) =
  (List.length result
   + List.length (filter (fun d => (Z.land d 32 =? 0)%Z) ds))%nat.
Proof.
  revert result value shift. induction ds as [|d tl IH]; intros; simpl; [lia|].
  destruct (Z.land d 32 =? 0); simpl; rewrite IH; [|reflexivity].
  rewrite length_app. simpl. lia.
Qed.

(** X26: The decoder yields one value for each digit without the continuation
    bit, whatever else the text holds. *)
Theorem decodeVLQ_length (vlq : string) :
  List.length (decodeVLQ vlq) =
  List.length (filter (fun d => Z.land d 32 =? 0) (digits vlq)).
Proof.
  unfold decodeVLQ. rewrite decode_as_digits. apply decode_digits_length.
Qed.

(** ** The value of a group *)

Lemma lor_disjoint (a x n : Z) :
  0 <= n -> 0 <= a < 2 ^ n -> Z.lor a (x * 2 ^ n) = a + x * 2 ^ n.
Proof.
  intros Hn Ha.
  assert (Hland : Z.land a (x * 2 ^ n) = 0).
  { apply Z.bits_inj'. intros i Hi. rewrite Z.land_spec, Z.bits_0.
    destruct (Z.lt_ge_cases i n) as [Hlt | Hge].
    - rewrite Z.mul_pow2_bits_low by exact Hlt. apply andb_false_r.
    - assert (Hbit : Z.testbit a i = false).
      { destruct (Z.eq_dec a 0) as [-> | Hne]; [apply Z.bits_0|].
        apply Z.bits_above_log2; [lia|].
        apply Z.log2_lt_pow2; [lia|].
        apply Z.lt_le_trans with (2 ^ n); [lia|].
        apply Z.pow_le_mono_r; lia. }
      now rewrite Hbit. }
  rewrite <- Z.lxor_lor by exact Hland.
  symmetry. now apply Z.add_nocarry_lxor.
Qed.

Lemma digit_cases (d : Z) :
  0 <= d < 64 ->
  Z.land d 31 = d mod 32 /\ (Z.land d 32 =? 0) = (d <? 32).
Proof.
  intros Hd.
  assert (Hin : In d (map Z.of_nat (seq 0 64))).
  { apply in_map_iff. exists (Z.to_nat d). split; [lia|].
    apply in_seq. lia. }
  clear Hd. revert d Hin. apply Forall_forall.
  repeat (constructor; [split; reflexivity|]). constructor.
Qed.

(** One digit added to a group of which [j] digits are read. *)
Lemma digit_added (value d j : Z) :
  0 <= j <= 5 -> 0 <= value < 2 ^ (5 * j) -> 0 <= d < 64 ->
  Z.lor value (shl32 (Z.land d 31) (5 * j)) = value + 2 ^ (5 * j) * (d mod 32).
Proof.
  intros Hj Hv Hd. destruct (digit_cases d Hd) as [-> _].
  unfold shl32. rewrite (Z.mod_small (5 * j)) by lia.
  rewrite Z.shiftl_mul_pow2 by lia.
  assert (Hm : 0 <= d mod 32 < 32) by (apply Z.mod_pos_bound; lia).
  assert (Hp : 0 < 2 ^ (5 * j) <= 2 ^ 25).
  { split; [apply Z.pow_pos_nonneg; lia|]. apply Z.pow_le_mono_r; lia. }
  assert (Hsmall : 0 <= d mod 32 * 2 ^ (5 * j) < 2 ^ 30).
  { split; [apply Z.mul_nonneg_nonneg; lia|].
    apply Z.le_lt_trans with (31 * 2 ^ 25); [|reflexivity].
    apply Z.mul_le_mono_nonneg; lia. }
  unfold to_int32. rewrite Z.mod_small.
  2:{ change (2 ^ 32) with 4294967296. change (2 ^ 31) with 2147483648.
      change (2 ^ 30) with 1073741824 in Hsmall. lia. }
  replace (d mod 32 * 2 ^ (5 * j) + 2 ^ 31 - 2 ^ 31) with (d mod 32 * 2 ^ (5 * j))
    by lia.
  rewrite lor_disjoint by lia. lia.
Qed.

Lemma decode_segment (cont : list Z) (last : Z) (rest result : list Z)
    (value j : Z) :
  Forall continues cont -> terminates last ->
  0 <= j -> j + Z.of_nat (List.length cont) <= 5 ->
  0 <= value < 2 ^ (5 * j) ->
  decode_digits (cont ++ last :: rest) result value (5 * j) =
  decode_digits rest (result ++ [value + 2 ^ (5 * j) * base32 (cont ++ [last])]) 0 0.
Proof.
  intros Hcont Hlast. revert value j.
  induction Hcont as [|c cont Hc _ IH]; intros value j Hj Hlen Hv.
  - unfold terminates in Hlast. simpl List.length in Hlen.
    cbn [app decode_digits base32].
    destruct (digit_cases last) as [_ Hbit]; [lia|].
    rewrite Hbit. replace (last <? 32) with true by (symmetry; apply Z.ltb_lt; lia).
    cbn [negb]. rewrite digit_added by lia.
    now rewrite Z.mul_0_r, Z.add_0_r.
  - unfold continues in Hc. simpl List.length in Hlen.
    change ((c :: cont) ++ last :: rest) with (c :: (cont ++ last :: rest)).
    change ((c :: cont) ++ [last]) with (c :: (cont ++ [last])).
    cbn [decode_digits base32].
    destruct (digit_cases c) as [_ Hbit]; [lia|].
    rewrite Hbit. replace (c <? 32) with false by (symmetry; apply Z.ltb_ge; lia).
    cbn [negb]. rewrite digit_added by lia.
    replace (5 * j + 5) with (5 * (j + 1)) by lia.
    assert (Hm : 0 <= c mod 32 < 32) by (apply Z.mod_pos_bound; lia).
    assert (Hpow : 2 ^ (5 * (j + 1)) = 32 * 2 ^ (5 * j)).
    { replace (5 * (j + 1)) with (5 * j + 5) by lia.
      rewrite Z.pow_add_r by lia. change (2 ^ 5) with 32. lia. }
    rewrite IH.
    + do 3 f_equal. rewrite Hpow. ring.
    + lia.
    + lia.
    + rewrite Hpow. nia.
Qed.

Lemma decode_groups (groups : list (list Z)) (result : list Z) :
  Forall segment groups ->
  decode_digits (List.concat groups) result 0 0 = result ++ map base32 groups.
Proof.
  intros Hg. revert result.
  induction Hg as [|g tl [cont [last [-> [Hc [Hl Hlen]]]]] _ IH]; intros result.
  - simpl. now rewrite app_nil_r.
  - cbn [List.concat map]. rewrite <- app_assoc. cbn [app].
    pose proof (decode_segment cont last (List.concat tl) result 0 0 Hc Hl)
      as Hseg.
    change (5 * 0) with 0 in Hseg. change (2 ^ 0) with 1 in Hseg.
    rewrite Hseg by lia. rewrite IH, <- app_assoc. cbn [app].
    do 2 f_equal. lia.
Qed.

(** X25: On a text whose digits fall into groups of at most six, each closed
    by a digit without the continuation bit, the decoder yields for each
    group the number that the low five bits of its digits spell, lowest
    digit first: there is no sign and no offset in what it returns. *)
Theorem decodeVLQ_groups (vlq : string) (groups : list (list Z)) :
  digits vlq = List.concat groups ->
  Forall segment groups ->
  decodeVLQ vlq = map base32 groups.
Proof.
  intros Hd Hg. unfold decodeVLQ. rewrite decode_as_digits, Hd.
  now rewrite decode_groups.
Qed.

Lemma decodeVLQ_groups_witness : decodeVLQ "gB,C" = [32; 2].
Proof.
  apply (decodeVLQ_groups "gB,C" [[32; 1]; [2]]).
  - reflexivity.
  - repeat constructor.
    + exists [32], 1. repeat split; try (repeat constructor; lia); simpl; lia.
    + exists [], 2. repeat split; try (repeat constructor; lia); simpl; lia.
Defined.

End SourceMapFacts.

(* ===================================================================== *)
(** * The source map directive *)
(* ===================================================================== *)

Module DirectiveFacts.
Import Js SourceMap.

Local Open Scope string_scope.

Lemma strip_prefix_some (p s r : string) :
  strip_prefix p s = Some r -> s = p ++ r.
Proof.
  revert s. induction p as [|a p IH]; intros [|b s] H; simpl in *;
    try congruence.
  destruct (Ascii.eqb_spec a b) as [-> | _]; [|discriminate].
  now rewrite (IH _ H).
Qed.

Lemma line_head_nil (s : string) :
  line_head s = "" -> s = "" \/ terminator_at s = true.
Proof.
  destruct s as [|c r]; [now left|]. cbn [line_head].
  destruct (terminator_at (String c r)); [now right | discriminate].
Qed.

Lemma line_head_terminator (s : string) :
  terminator_at s = true -> line_head s = "".
Proof.
  destruct s as [|c r]; [reflexivity|]. cbn [line_head]. now intros ->.
Qed.

(** A line terminator at the head of a text stays one when the text is
    continued. *)
Lemma terminator_at_app (s t : string) :
  terminator_at s = true -> terminator_at (s ++ t) = true.
Proof.
  destruct s as [|c [|c1 [|c2 r]]]; simpl; try discriminate; auto.
  - rewrite orb_false_r. intros ->. reflexivity.
  - rewrite orb_false_r. intros ->. reflexivity.
Qed.

Ltac eqb_cases :=
  repeat match goal with
    | H : context [(?a =? ?b)%nat] |- _ => destruct (Nat.eqb_spec a b)
    | |- context [(?a =? ?b)%nat] => destruct (Nat.eqb_spec a b)
    end;
  simpl in *; try reflexivity; try discriminate; try lia.

(** The text of a line is not cut short by what follows the line. *)
Lemma terminator_at_extends (c : ascii) (r tail : string) :
  terminator_at (String c r) = false ->
  tail = "" \/ terminator_at tail = true ->
  terminator_at (String c (r ++ tail)) = false.
Proof.
  intros Hc [-> | Ht].
  - destruct r as [|c1 [|c2 r]]; exact Hc.
  - destruct tail as [|t [|t1 [|t2 tr]]]; [discriminate| | |];
      destruct r as [|c1 [|c2 r]]; simpl in *; eqb_cases.
Qed.

Lemma line_head_app (url tail : string) :
  line_head url = url ->
  tail = "" \/ terminator_at tail = true ->
  line_head (url ++ tail) = url.
Proof.
  intros Hu Ht. induction url as [|c r IH].
  - destruct Ht as [-> | Ht]; [reflexivity|]. now apply line_head_terminator.
  - cbn [line_head] in Hu.
    destruct (terminator_at (String c r)) eqn:E; [discriminate|].
    injection Hu as Hr.
    change (String c r ++ tail) with (String c (r ++ tail)). cbn [line_head].
    rewrite (terminator_at_extends c r tail E Ht). now rewrite IH.
Qed.

Lemma terminator_at_line_head (c : ascii) (r : string) :
  terminator_at (String c r) = false ->
  terminator_at (String c (line_head r)) = false.
Proof.
  destruct r as [|c1 [|c2 r]]; cbn [line_head]; [auto| |].
  - destruct (terminator_at (String c1 "")); simpl; auto.
  - destruct (terminator_at (String c1 (String c2 r))).
    + simpl. intros H. apply orb_false_iff in H as [H _]. now rewrite H.
    + destruct (terminator_at (String c2 r)); simpl; intros H.
      * apply orb_false_iff in H as [H _]. now rewrite H.
      * exact H.
Qed.

(** A text is the text of its first line and a rest that is empty or
    starts with a line terminator. *)
Lemma line_head_split (s : string) :
  exists post,
    s = line_head s ++ post /\
    line_head (line_head s) = line_head s /\
    (post = "" \/ terminator_at post = true).
Proof.
  induction s as [|c r [post [H1 [H2 H3]]]].
  - exists "". auto.
  - cbn [line_head]. destruct (terminator_at (String c r)) eqn:Et.
    + exists (String c r). auto.
    + exists post. split; [|split; [|exact H3]].
      * change (String c (line_head r) ++ post)
          with (String c (line_head r ++ post)). now rewrite <- H1.
      * cbn [line_head]. rewrite (terminator_at_line_head c r Et).
        now rewrite H2.
Qed.

Lemma url_at_sound (s url : string) :
  url_at s = Some url ->
  exists post,
    s = marker ++ url ++ post /\ url <> "" /\ line_head url = url /\
    (post = "" \/ terminator_at post = true).
Proof.
  unfold url_at. destruct (strip_prefix marker s) as [after|] eqn:E;
    [|discriminate].
  apply strip_prefix_some in E. subst s.
  destruct (String.eqb_spec (line_head after) "") as [|Hne]; [discriminate|].
  intros [= <-].
  destruct (line_head_split after) as [post [H1 [H2 H3]]]. exists post.
  repeat split; auto. now rewrite <- H1.
Qed.

Lemma append_assoc (a b c : string) : (a ++ b) ++ c = a ++ (b ++ c).
Proof. induction a as [|x a IH]; simpl; [reflexivity | now rewrite IH]. Qed.

(** X27: A result of [extractSourceMappingURL] is the text that follows the
    marker in the content up to the end of that line: it is not empty and
    holds no line terminator. *)
Theorem extracted_url_is_rest_of_line (jsContent url : string) :
  extractSourceMappingURL jsContent = Some url ->
  exists pre post,
    jsContent = pre ++ marker ++ url ++ post /\
    url <> "" /\ line_head url = url /\
    (post = "" \/ terminator_at post = true).
Proof.
  induction jsContent as [|c r IH]; cbn [extractSourceMappingURL].
  - destruct (url_at "") eqn:E; [|discriminate]. intros [= ->].
    destruct (url_at_sound _ _ E) as [post H]. exists "", post. exact H.
  - destruct (url_at (String c r)) eqn:E.
    + intros [= ->]. destruct (url_at_sound _ _ E) as [post H].
      exists "", post. exact H.
    + intros H. destruct (IH H) as [pre [post [-> Hrest]]].
      exists (String c pre), post. split; [reflexivity | exact Hrest].
Qed.

Lemma extracted_url_is_rest_of_line_witness :
  exists pre post,
    "f();
//# sourceMappingURL=out.js.map
" = pre ++ marker ++ "out.js.map" ++ post /\
    "out.js.map" <> "" /\ line_head "out.js.map" = "out.js.map" /\
    (post = "" \/ terminator_at post = true).
Proof.
  apply (extracted_url_is_rest_of_line "f();
//# sourceMappingURL=out.js.map
" "out.js.map").
  reflexivity.
Defined.

(** ** The first directive *)

Lemma string_cons_inj (a b : ascii) (x y : string) :
  String a x = String b y -> a = b /\ x = y.
Proof. intros [= -> ->]. auto. Qed.

Lemma marker_no_newline (p rest : string) :
  marker <> p ++ String "010"%char rest.
Proof.
  unfold marker. intros H.
  repeat (destruct p as [|? p]; simpl in H;
          [discriminate H | apply string_cons_inj in H as [_ H]]).
  destruct p; discriminate H.
Qed.

Lemma strip_prefix_straddles (m s x y : string) :
  strip_prefix m s = None -> strip_prefix m (s ++ x) = Some y ->
  exists m', m = s ++ m'.
Proof.
  revert s. induction m as [|a m IH]; intros [|b s] Hn Hs; simpl in *;
    try discriminate.
  - now exists (String a m).
  - destruct (Ascii.eqb a b) eqn:E; [|discriminate].
    apply Ascii.eqb_eq in E. subst b.
    destruct (IH s Hn Hs) as [m' ->]. now exists m'.
Qed.

Lemma url_at_marker (url tail : string) :
  url <> "" -> line_head url = url ->
  tail = "" \/ terminator_at tail = true ->
  url_at (marker ++ url ++ tail) = Some url.
Proof.
  intros Hne Hu Ht. unfold url_at.
  rewrite ResolverFacts.strip_prefix_app, line_head_app by assumption.
  now destruct (String.eqb_spec url "").
Qed.

(** A line without a directive has none when the text goes on after its
    line feed. *)
Lemma url_at_none_app (p x : string) :
  url_at (p ++ String "010"%char "") = None ->
  url_at ((p ++ String "010"%char "") ++ x) = None.
Proof.
  unfold url_at.
  destruct (strip_prefix marker (p ++ String "010"%char "")) as [after|] eqn:E.
  - apply strip_prefix_some in E. rewrite E, append_assoc.
    rewrite ResolverFacts.strip_prefix_app.
    destruct (String.eqb_spec (line_head after) "") as [Hnil|]; [|discriminate].
    intros _. apply line_head_nil in Hnil as [-> | Ht].
    + exfalso. apply (marker_no_newline p ""). symmetry.
      revert E. clear. generalize (p ++ String "010"%char "") as s.
      intros s ->. unfold marker. reflexivity.
    + now rewrite (line_head_terminator _ (terminator_at_app _ x Ht)).
  - intros _.
    destruct (strip_prefix marker ((p ++ String "010"%char "") ++ x))
      as [y|] eqn:E'; [|reflexivity].
    destruct (strip_prefix_straddles _ _ _ _ E E') as [m' Hm].
    rewrite append_assoc in Hm. exfalso. exact (marker_no_newline _ _ Hm).
Qed.

Lemma extract_here (s url : string) :
  url_at s = Some url -> extractSourceMappingURL s = Some url.
Proof. intros H. destruct s; cbn [extractSourceMappingURL]; now rewrite H. Qed.

(** X28: When the lines before a directive hold none, the directive's address
    is the result, whatever follows its line: of several directives the
    first one counts. *)
Theorem first_directive_wins (pre url tail : string) :
  extractSourceMappingURL pre = None ->
  pre = "" \/ (exists p, pre = p ++ String "010"%char "") ->
  url <> "" -> line_head url = url ->
  tail = "" \/ terminator_at tail = true ->
  extractSourceMappingURL (pre ++ marker ++ url ++ tail) = Some url.
Proof.
  intros Hnone Hpre Hne Hu Ht.
  induction pre as [|c r IH].
  - apply extract_here. now apply url_at_marker.
  - destruct Hpre as [|[p Hp]]; [discriminate|].
    cbn [extractSourceMappingURL] in Hnone.
    destruct (url_at (String c r)) eqn:E; [discriminate|].
    change (String c r ++ marker ++ url ++ tail)
      with (String c (r ++ marker ++ url ++ tail)).
    cbn [extractSourceMappingURL].
    change (String c (r ++ marker ++ url ++ tail))
      with (String c r ++ marker ++ url ++ tail).
    rewrite Hp in E |- *. rewrite (url_at_none_app _ _ E).
    apply IH; [exact Hnone|].
    destruct p as [|c' p]; simpl in Hp; apply string_cons_inj in Hp as [_ ->];
      [now left | right; now exists p].
Qed.

Lemma first_directive_wins_witness :
  extractSourceMappingURL
    ("f();
" ++ marker ++ "a.map" ++ "
//# sourceMappingURL=b.map") = Some "a.map".
Proof.
  apply (first_directive_wins "f();
" "a.map" "
//# sourceMappingURL=b.map").
  - reflexivity.
  - right. exists "f();". reflexivity.
  - discriminate.
  - reflexivity.
  - right. reflexivity.
Defined.

End DirectiveFacts.

(* ===================================================================== *)
(** * Looking up an original location *)
(* ===================================================================== *)

Module LocationFacts.
Import SourceMap.

Local Open Scope Z_scope.

Lemma source_entry_some (sm : source_map) (sourceIndex : option Z)
    (name : string) :
  source_entry sm sourceIndex = Some name ->
  exists l i,
    sources sm = Some l /\ sourceIndex = Some i /\
    at_index l i = Some (Some name) /\ name <> EmptyString.
Proof.
  unfold source_entry.
  destruct (sources sm) as [l|]; [|discriminate].
  destruct sourceIndex as [i|]; [|discriminate].
  destruct (at_index l i) as [[n|]|] eqn:E; try discriminate.
  destruct (String.eqb_spec n EmptyString) as [|Hne]; [discriminate|].
  intros [= ->]. exists l, i. auto.
Qed.

Lemma find_mapping_sound (sm : source_map) (generatedColumn : Z)
    (ms : list string) (loc : location) :
  find_mapping sm generatedColumn ms = Some loc ->
  exists mapping l i,
    In mapping ms /\
    nth_error (decodeVLQ mapping) 0 = Some generatedColumn /\
    nth_error (decodeVLQ mapping) 1 = Some i /\
    sources sm = Some l /\ at_index l i = Some (Some (source loc)) /\
    source loc <> EmptyString /\
    line loc = option_map (fun n => n + 1) (nth_error (decodeVLQ mapping) 2) /\
    column loc = nth_error (decodeVLQ mapping) 3.
Proof.
  induction ms as [|m rest IH]; cbn [find_mapping]; [discriminate|].
  assert (Hrest : find_mapping sm generatedColumn rest = Some loc ->
    exists mapping l i,
      In mapping (m :: rest) /\
      nth_error (decodeVLQ mapping) 0 = Some generatedColumn /\
      nth_error (decodeVLQ mapping) 1 = Some i /\
      sources sm = Some l /\ at_index l i = Some (Some (source loc)) /\
      source loc <> EmptyString /\
      line loc = option_map (fun n => n + 1) (nth_error (decodeVLQ mapping) 2) /\
      column loc = nth_error (decodeVLQ mapping) 3).
  { intros H. destruct (IH H) as [mp [l [i [Hin Hr]]]].
    exists mp, l, i. split; [now right | exact Hr]. }
  destruct (m =? "")%string; [exact Hrest|].
  destruct (nth_error (decodeVLQ m) 0) as [first|] eqn:E0; [|exact Hrest].
  destruct (Z.eqb_spec first generatedColumn) as [-> | _]; [|exact Hrest].
  destruct (source_entry sm (nth_error (decodeVLQ m) 1)) as [name|] eqn:Es;
    [|exact Hrest].
  intros [= <-]. cbn [source line column].
  destruct (source_entry_some _ _ _ Es) as [l [i [H1 [H2 [H3 H4]]]]].
  exists m, l, i. repeat split; auto. now left.
Qed.

(** X29: A location that the lookup returns is backed by the source map: the
    line of the mappings text with the index [generatedLine] has a piece
    between commas whose first decoded value is [generatedColumn] and
    whose second is the index of a non-empty entry of the sources, which
    is the location's source; the location's line is the third value
    plus one and its column the fourth, as far as the piece has them. *)
Theorem location_backed_by_mapping (sm : source_map)
    (generatedLine generatedColumn : Z) (loc : location) :
  findOriginalLocation (Some sm) generatedLine generatedColumn = Some loc ->
  exists text l mapping srcs i,
    mappings sm = Some text /\
    at_index (split ";" text) generatedLine = Some l /\
    In mapping (split "," l) /\
    nth_error (decodeVLQ mapping) 0 = Some generatedColumn /\
    nth_error (decodeVLQ mapping) 1 = Some i /\
    sources sm = Some srcs /\ at_index srcs i = Some (Some (source loc)) /\
    source loc <> EmptyString /\
    line loc = option_map (fun n => n + 1) (nth_error (decodeVLQ mapping) 2) /\
    column loc = nth_error (decodeVLQ mapping) 3.
Proof.
  unfold findOriginalLocation.
  destruct (mappings sm) as [text|]; [|discriminate].
  destruct (text =? "")%string; [discriminate|].
  destruct (generatedLine <? _); [|discriminate].
  destruct (at_index (split ";" text) generatedLine) as [l|] eqn:El;
    [|discriminate].
  destruct (l =? "")%string; [discriminate|].
  intros H. destruct (find_mapping_sound _ _ _ _ H) as [mp [srcs [i Hr]]].
  exists text, l, mp, srcs, i. auto.
Qed.

Lemma location_backed_by_mapping_witness :
  exists text l mapping srcs i,
    mappings {| mappings := Some "AAAA"%string;
                sources := Some [Some "a.ts"%string] |} = Some text /\
    at_index (split ";" text) 0 = Some l /\
    In mapping (split "," l) /\
    nth_error (decodeVLQ mapping) 0 = Some 0 /\
    nth_error (decodeVLQ mapping) 1 = Some i /\
    sources {| mappings := Some "AAAA"%string;
               sources := Some [Some "a.ts"%string] |} = Some srcs /\
    at_index srcs i =
      Some (Some (source {| source := "a.ts"; line := Some 1;
                            column := Some 0 |})) /\
    source {| source := "a.ts"; line := Some 1; column := Some 0 |}
      <> EmptyString /\
    line {| source := "a.ts"; line := Some 1; column := Some 0 |} =
      option_map (fun n => n + 1) (nth_error (decodeVLQ mapping) 2) /\
    column {| source := "a.ts"; line := Some 1; column := Some 0 |} =
      nth_error (decodeVLQ mapping) 3.
Proof.
  apply (location_backed_by_mapping
           {| mappings := Some "AAAA"%string;
              sources := Some [Some "a.ts"%string] |} 0 0
           {| source := "a.ts"; line := Some 1; column := Some 0 |}).
  reflexivity.
Defined.

(** ** The piece that is used *)

Lemma at_index_some_lt {A : Type} (l : list A) (i : Z) (x : A) :
  at_index l i = Some x -> (i <? Z.of_nat (List.length l)) = true.
Proof.
  unfold at_index. destruct (Z.ltb_spec i 0); [discriminate|].
  intros Hx. apply Z.ltb_lt.
  assert (Hlt : (Z.to_nat i < List.length l)%nat).
  { apply nth_error_Some. congruence. }
  lia.
Qed.

Lemma find_mapping_skips (sm : source_map) (generatedColumn : Z)
    (before rest : list string) :
  (forall b, In b before ->
     nth_error (decodeVLQ b) 0 <> Some generatedColumn \/
     source_entry sm (nth_error (decodeVLQ b) 1) = None) ->
  find_mapping sm generatedColumn (before ++ rest) =
  find_mapping sm generatedColumn rest.
Proof.
  induction before as [|b tl IH]; intros Hb; [reflexivity|].
  cbn [app find_mapping].
  rewrite IH by (intros x Hx; apply Hb; now right).
  destruct (b =? "")%string; [reflexivity|].
  destruct (nth_error (decodeVLQ b) 0) as [first|] eqn:E0; [|reflexivity].
  destruct (Z.eqb_spec first generatedColumn) as [-> | _]; [|reflexivity].
  destruct (Hb b (or_introl eq_refl)) as [H | H]; [congruence|].
  now rewrite H.
Qed.

(** X30: Of the pieces of the line, the lookup uses the first whose first
    value is the column and whose second value is the index of a
    non-empty entry of the sources: pieces of another column and pieces
    without such an entry are passed over. *)
Theorem first_usable_piece_is_used (sm : source_map) (text l : string)
    (generatedLine generatedColumn : Z) (before after : list string)
    (mapping : string) (srcs : list (option string)) (i : Z)
    (name : string) :
  mappings sm = Some text ->
  at_index (split ";" text) generatedLine = Some l ->
  split "," l = before ++ mapping :: after ->
  (forall b, In b before ->
     nth_error (decodeVLQ b) 0 <> Some generatedColumn \/
     source_entry sm (nth_error (decodeVLQ b) 1) = None) ->
  nth_error (decodeVLQ mapping) 0 = Some generatedColumn ->
  nth_error (decodeVLQ mapping) 1 = Some i ->
  sources sm = Some srcs ->
  at_index srcs i = Some (Some name) ->
  name <> EmptyString ->
  findOriginalLocation (Some sm) generatedLine generatedColumn =
  Some {| source := name;
          line := option_map (fun n => n + 1)
                    (nth_error (decodeVLQ mapping) 2);
          column := nth_error (decodeVLQ mapping) 3 |}.
Proof.
  intros Hm Hl Hs Hb H0 H1 Hsrc Hi Hne.
  assert (Hmne : mapping <> EmptyString).
  { intros ->. discriminate H0. }
  assert (Hlne : l <> EmptyString).
  { intros ->. destruct before as [|b [|? ?]]; simpl in Hs; try discriminate.
    injection Hs as <- _. now apply Hmne. }
  assert (Htne : text <> EmptyString).
  { intros ->. unfold at_index in Hl. cbn [split] in Hl.
    destruct (generatedLine <? 0); [discriminate|].
    destruct (Z.to_nat generatedLine) as [|[|n]]; simpl in Hl;
      try discriminate. injection Hl as <-. now apply Hlne. }
  unfold findOriginalLocation. rewrite Hm.
  destruct (String.eqb_spec text EmptyString) as [|_]; [contradiction|].
  rewrite (at_index_some_lt _ _ _ Hl), Hl.
  destruct (String.eqb_spec l EmptyString) as [|_]; [contradiction|].
  rewrite Hs, find_mapping_skips by exact Hb.
  cbn [find_mapping].
  destruct (String.eqb_spec mapping EmptyString) as [|_]; [contradiction|].
  rewrite H0, Z.eqb_refl, H1. unfold source_entry. rewrite Hsrc, Hi.
  now destruct (String.eqb_spec name EmptyString).
Qed.

Lemma first_usable_piece_is_used_witness :
  findOriginalLocation
    (Some {| mappings := Some "AAAA;CAAA,CBAC"%string;
             sources := Some [None; Some "b.ts"%string] |}) 1 2 =
  Some {| source := "b.ts"; line := Some 1; column := Some 2 |}.
Proof.
  apply (first_usable_piece_is_used
           {| mappings := Some "AAAA;CAAA,CBAC"%string;
              sources := Some [None; Some "b.ts"%string] |}
           "AAAA;CAAA,CBAC" "CAAA,CBAC" 1 2 ["CAAA"%string] [] "CBAC"
           [None; Some "b.ts"%string] 1 "b.ts").
  - reflexivity.
  - reflexivity.
  - reflexivity.
  - intros b [<- | []]. right. reflexivity.
  - reflexivity.
  - reflexivity.
  - reflexivity.
  - reflexivity.
  - discriminate.
Defined.

End LocationFacts.

(* ===================================================================== *)
(** * Who owns a rule definition *)
(* ===================================================================== *)

Module RuleFacts.
Import Scanner RuleParser JsFacts ScannerFacts.

Section Parse.

Variable read_text : string -> option string.
Variable yaml_parse : string -> result value.
Variable json_parse : string -> result value.













End Parse.



End RuleFacts.

(* ===================================================================== *)
(** * Schemas in fenced blocks *)
(* ===================================================================== *)

Module BlockFacts.
Import Scanner RuleParser JsFacts.

Local Open Scope string_scope.











Section Parse.

Variable read_text : string -> option string.
Variable yaml_parse : string -> result value.
Variable json_parse : string -> result value.


End Parse.


End BlockFacts.

(* ===================================================================== *)
(** * The list of rule documents *)
(* ===================================================================== *)

Module CorpusFacts.
Import Corpus.

Example sample_walk :
  findMdFiles "/repo" "rules" sample_tree [] =
  ["/repo/rules/gov/a-headers.md"; "/repo/rules/gov/old.md/b-headers-v2.md";
   "/repo/rules/README.md"].
Proof. reflexivity. Qed.

Lemma paths_dir (item : string) (items : list node) :
  paths (Dir item items) = map (join item) (flat_map paths items).
Proof.
  reflexivity.
Qed.

Lemma visit_dir (cwd dir item : string) (items : list node)
    (files : list string) :
  visit cwd dir (Dir item items) files =
  findMdFiles cwd (join dir item) items files.
Proof.
  cbn [visit]. unfold findMdFiles. revert files.
  induction items as [|x tl IH]; intros files; [reflexivity|].
  cbn [fold_left]. now rewrite IH.
Qed.

Lemma join_join (dir item r : string) :
  join dir (join item r) = join (join dir item) r.
Proof.
  unfold join. now rewrite !DirectiveFacts.append_assoc.
Qed.

(** The walk appends, to the files it is given, the Markdown files below
    the entry in the order of the listing. *)
Lemma visit_paths (cwd : string) (n : node) :
  forall dir files,
    visit cwd dir n files =
    files ++ map (fun r => resolve cwd (join dir r)) (paths n).
Proof.
  induction n as [item | item items IH] using node_nested_ind;
    intros dir files.
  - cbn [visit paths]. destruct (endsWith item ".md"); simpl;
      [reflexivity | now rewrite app_nil_r].
  - rewrite visit_dir, paths_dir. unfold findMdFiles. revert files.
    induction IH as [|x tl Hx _ IHtl]; intros files.
    + simpl. now rewrite app_nil_r.
    + cbn [fold_left flat_map]. rewrite IHtl, Hx.
      rewrite !map_app, <- app_assoc. do 2 f_equal.
      * rewrite map_map. apply map_ext. intros r. f_equal. symmetry. apply join_join.
Qed.

Lemma findMdFiles_paths (cwd dir : string) (items : list node)
    (files : list string) :
  findMdFiles cwd dir items files =
  files ++ map (fun r => resolve cwd (join dir r)) (flat_map paths items).
Proof.
  unfold findMdFiles. revert files.
  induction items as [|x tl IH]; intros files.
  - simpl. now rewrite app_nil_r.
  - cbn [fold_left flat_map]. rewrite IH, visit_paths.
    now rewrite map_app, app_assoc.
Qed.

(** ** No file twice *)

Lemma append_inj_l (p a b : string) : (p ++ a = p ++ b)%string -> a = b.
Proof.
  induction p as [|c p IH]; simpl; [auto|].
  intros [= H]. auto.
Qed.

Lemma slash_in_join (a b : string) :
  In "/"%char (list_ascii_of_string (join a b)).
Proof.
  unfold join. induction a as [|c a IH]; simpl; auto.
Qed.

Lemma join_head_inj (a b x y : string) :
  no_slash a -> no_slash b -> join a x = join b y -> a = b.
Proof.
  unfold no_slash, join. revert b.
  induction a as [|c a IH]; intros [|d b] Ha Hb H; simpl in *.
  - reflexivity.
  - injection H as <- _. exfalso. apply Hb. now left.
  - injection H as -> _. exfalso. apply Ha. now left.
  - injection H as -> H. f_equal. apply (IH b); auto.
Qed.

Lemma paths_shape (n : node) (r : string) :
  In r (paths n) -> r = name n \/ exists rest, r = join (name n) rest.
Proof.
  destruct n as [item | item items].
  - cbn [paths name]. destruct (endsWith item ".md"); [|intros []].
    intros [<- | []]. now left.
  - rewrite paths_dir. cbn [name]. intros H.
    apply in_map_iff in H as [rest [<- _]]. right. now exists rest.
Qed.

(** Entries of different names have no path in common. *)
Lemma paths_disjoint (n m : node) (r : string) :
  no_slash (name n) -> no_slash (name m) ->
  In r (paths n) -> In r (paths m) -> name n = name m.
Proof.
  intros Hn Hm Hrn Hrm.
  apply paths_shape in Hrn as [-> | [x ->]];
    apply paths_shape in Hrm as [Hm' | [y Hm']].
  - exact Hm'.
  - exfalso. apply Hn. rewrite Hm'. apply slash_in_join.
  - exfalso. apply Hm. rewrite <- Hm'. apply slash_in_join.
  - now apply (join_head_inj _ _ x y).
Qed.

Lemma well_named_name (n : node) : well_named n -> no_slash (name n).
Proof. destruct n; cbn [well_named]; tauto. Qed.

Lemma well_named_dir (item : string) (items : list node) :
  well_named (Dir item items) ->
  NoDup (map name items) /\ Forall well_named items.
Proof.
  cbn [well_named]. intros [_ [Hnd Hall]]. split; [exact Hnd|].
  clear Hnd. induction items as [|x tl IH]; constructor; [tauto|].
  apply IH. tauto.
Qed.

Lemma NoDup_map_injective {A B : Type} (f : A -> B) (l : list A) :
  (forall x y, f x = f y -> x = y) -> NoDup l -> NoDup (map f l).
Proof.
  intros Hinj Hnd. induction Hnd as [|x l Hx _ IH]; simpl; constructor; auto.
  intros Hin. apply in_map_iff in Hin as [y [Hy Hin]].
  apply Hinj in Hy. now subst y.
Qed.

Lemma NoDup_listing (items : list node) :
  NoDup (map name items) -> Forall well_named items ->
  Forall (fun x => NoDup (paths x)) items ->
  NoDup (flat_map paths items).
Proof.
  intros Hnd Hwn Hall.
  induction items as [|x tl IH]; cbn [flat_map]; [constructor|].
  inversion Hnd as [|? ? Hx Hnd']; subst.
  inversion Hwn as [|? ? Hwx Hwn']; subst.
  inversion Hall as [|? ? Hpx Hall']; subst.
  apply NoDup_app; auto.
  intros r Hr Hin. apply in_flat_map in Hin as [y [Hy Hry]].
  apply Hx. apply in_map_iff. exists y. split; [|exact Hy].
  symmetry. apply (paths_disjoint x y r); auto using well_named_name.
  apply well_named_name. rewrite Forall_forall in Hwn'. auto.
Qed.

Lemma NoDup_paths (n : node) : well_named n -> NoDup (paths n).
Proof.
  induction n as [item | item items IH] using node_nested_ind; intros Hwn.
  - cbn [paths]. destruct (endsWith item ".md"); repeat constructor.
    intros [].
  - rewrite paths_dir. apply well_named_dir in Hwn as [Hnd Hall].
    apply NoDup_map_injective.
    + intros x y. unfold join. intros H.
      now do 2 apply append_inj_l in H.
    + apply NoDup_listing; auto.
      rewrite Forall_forall in *. auto.
Qed.

(** ** Only Markdown files *)

Lemma endsWith_app (p s suffix : string) :
  endsWith s suffix = true -> endsWith (p ++ s) suffix = true.
Proof.
  intros H. induction p as [|c p IH]; [exact H|].
  change (String c p ++ s)%string with (String c (p ++ s)%string).
  cbn [endsWith]. rewrite IH. apply orb_true_r.
Qed.

Lemma paths_md (n : node) (r : string) :
  In r (paths n) -> endsWith r ".md" = true.
Proof.
  revert r. induction n as [item | item items IH] using node_nested_ind;
    intros r.
  - cbn [paths]. destruct (endsWith item ".md") eqn:E; [|intros []].
    now intros [<- | []].
  - rewrite paths_dir. intros H.
    apply in_map_iff in H as [x [<- Hx]].
    apply in_flat_map in Hx as [y [Hy Hxy]].
    rewrite Forall_forall in IH. unfold join.
    apply endsWith_app. apply (endsWith_app "/"). now apply (IH y).
Qed.

(** ** Exactly the Markdown files *)

Lemma md_file_mono (items items' : list node) (r : string) :
  md_file items r -> (forall x, In x items -> In x items') ->
  md_file items' r.
Proof.
  intros H Hincl. destruct H as [items item Hin E | items d sub r Hin Hm].
  - apply md_here; auto.
  - eapply md_below; eauto.
Qed.

Lemma paths_md_node (x : node) :
  forall r, In r (paths x) -> md_file [x] r.
Proof.
  induction x as [item | item sub IH] using node_nested_ind; intros r.
  - cbn [paths]. destruct (endsWith item ".md") eqn:E; [|intros []].
    intros [<- | []]. apply md_here; [now left | exact E].
  - rewrite paths_dir. intros H.
    apply in_map_iff in H as [r' [<- Hr']].
    apply md_below with (sub := sub); [now left|].
    apply in_flat_map in Hr' as [y [Hy Hr']].
    rewrite Forall_forall in IH.
    apply (md_file_mono [y]); [now apply IH|].
    intros z [<- | []]. exact Hy.
Qed.

Lemma paths_md_file (items : list node) (r : string) :
  In r (flat_map paths items) <-> md_file items r.
Proof.
  split.
  - intros H. apply in_flat_map in H as [x [Hx Hr]].
    apply (md_file_mono [x]); [now apply paths_md_node|].
    intros z [<- | []]. exact Hx.
  - intros H. induction H as [items item Hin E | items d sub r Hin _ IH].
    + apply in_flat_map. exists (File item). split; [exact Hin|].
      cbn [paths]. rewrite E. now left.
    + apply in_flat_map. exists (Dir d sub). split; [exact Hin|].
      rewrite paths_dir. now apply in_map.
Qed.

Lemma same_name_same_node (items : list node) (x y : node) :
  NoDup (map name items) -> In x items -> In y items ->
  name x = name y -> x = y.
Proof.
  induction items as [|z tl IH]; intros Hnd Hx Hy Hn; [destruct Hx|].
  inversion Hnd as [|? ? Hz Hnd']; subst.
  destruct Hx as [-> | Hx], Hy as [-> | Hy]; auto.
  - exfalso. apply Hz. rewrite Hn. now apply in_map.
  - exfalso. apply Hz. rewrite <- Hn. now apply in_map.
Qed.

Lemma dir_at_inv (items : list node) (r : string) :
  dir_at items r ->
  (exists sub, In (Dir r sub) items) \/
  (exists d sub r',
     In (Dir d sub) items /\ dir_at sub r' /\ r = join d r').
Proof.
  intros H. destruct H as [items d sub Hin | items d sub r Hin Hd].
  - left. eauto.
  - right. exists d, sub, r. auto.
Qed.

(** In a listing as a file system gives it, no path is that of a file
    and of a directory. *)
Lemma file_is_no_directory (items : list node) (r : string) :
  NoDup (map name items) -> Forall well_named items ->
  md_file items r -> ~ dir_at items r.
Proof.
  intros Hnd Hwn Hmd. revert Hnd Hwn.
  induction Hmd as [items item Hin E | items d sub r Hin Hmd IH];
    intros Hnd Hwn Hdir; pose proof Hwn as Hall;
    rewrite Forall_forall in Hall;
    apply dir_at_inv in Hdir
      as [[sub' Hin'] | [d' [sub' [r' [Hin' [Hd' Hr]]]]]].
  - assert (Heq : File item = Dir item sub')
      by (apply (same_name_same_node items); auto).
    discriminate.
  - apply (well_named_name _ (Hall _ Hin)). cbn [name]. rewrite Hr.
    apply slash_in_join.
  - apply (well_named_name _ (Hall _ Hin')). cbn [name].
    apply slash_in_join.
  - pose proof (Hall _ Hin) as Hd.
    assert (Hdd : d = d').
    { apply (join_head_inj d d' r r'); auto.
      - exact (well_named_name _ Hd).
      - exact (well_named_name _ (Hall _ Hin')). }
    subst d'. unfold join in Hr.
    do 2 apply append_inj_l in Hr. subst r'.
    assert (Heq : Dir d sub = Dir d sub')
      by (apply (same_name_same_node items); auto).
    injection Heq as <-.
    apply well_named_dir in Hd as [Hnd' Hwn'].
    now apply IH.
Qed.

(** X2: The walk lists exactly the Markdown files below the directory,
    each once: in a listing where no name holds a slash and the entries
    of a directory differ in name, the result has no repetition; a path
    is in it exactly when it is the resolved path of a file, at any
    depth, whose name ends in [.md]; so every path in it ends in [.md],
    and the path of a directory, whatever its name, is not in it. *)
Theorem rule_documents_listed_once (cwd dir : string) (items : list node) :
  NoDup (map name items) -> Forall well_named items ->
  NoDup (findMdFiles cwd dir items []) /\
  (forall f,
     In f (findMdFiles cwd dir items []) <->
     exists r, md_file items r /\ f = resolve cwd (join dir r)) /\
  (forall f, In f (findMdFiles cwd dir items []) -> endsWith f ".md" = true) /\
  (forall r,
     dir_at items r ->
     ~ In (resolve cwd (join dir r)) (findMdFiles cwd dir items [])).
Proof.
  intros Hnd Hwn. rewrite findMdFiles_paths. cbn [app].
  assert (Hmem : forall f,
    In f (map (fun r => resolve cwd (join dir r)) (flat_map paths items)) <->
    exists r, md_file items r /\ f = resolve cwd (join dir r)).
  { intros f. rewrite in_map_iff. split.
    - intros [r [<- Hr]]. exists r. split; [|reflexivity].
      now apply paths_md_file.
    - intros [r [Hr ->]]. exists r. split; [reflexivity|].
      now apply paths_md_file. }
  repeat split.
  - apply NoDup_map_injective.
    + intros x y. unfold resolve, join. intros H.
      now do 4 apply append_inj_l in H.
    + apply NoDup_listing; auto.
      rewrite Forall_forall in *. auto using NoDup_paths.
  - apply Hmem.
  - apply Hmem.
  - intros f Hf. apply in_map_iff in Hf as [r [<- Hr]].
    apply in_flat_map in Hr as [y [_ Hr]].
    unfold resolve, join.
    apply endsWith_app. apply (endsWith_app "/").
    apply endsWith_app. apply (endsWith_app "/").
    now apply (paths_md y).
  - intros r Hdir Hin. apply Hmem in Hin as [r' [Hmd Heq]].
    unfold resolve, join in Heq. do 4 apply append_inj_l in Heq. subst r'.
    exact (file_is_no_directory items r Hnd Hwn Hmd Hdir).
Qed.

Lemma rule_documents_listed_once_witness :
  NoDup (findMdFiles "/repo" "rules" sample_tree []) /\
  In "/repo/rules/gov/old.md/b-headers-v2.md"
     (findMdFiles "/repo" "rules" sample_tree []) /\
  ~ In "/repo/rules/gov/old.md" (findMdFiles "/repo" "rules" sample_tree []).
Proof.
  destruct (rule_documents_listed_once "/repo" "rules" sample_tree)
    as [Hnd [Hmem [_ Hdir]]].
  - vm_compute. repeat constructor; simpl; intuition discriminate.
  - unfold sample_tree.
    repeat (constructor; cbn [well_named name map];
            try (vm_compute; intuition discriminate)).
  - split; [exact Hnd|]. split.
    + apply Hmem. exists (join "gov" (join "old.md" "b-headers-v2.md")).
      split; [|reflexivity].
      eapply md_below; [left; reflexivity|].
      eapply md_below; [right; right; left; reflexivity|].
      apply md_here; [left; reflexivity | reflexivity].
    + apply (Hdir (join "gov" "old.md")).
      eapply dir_below; [left; reflexivity|].
      eapply dir_here. right. right. left. reflexivity.
Defined.

End CorpusFacts.

(* ===================================================================== *)
(** * Schemas made from rule definitions *)
(* ===================================================================== *)

Module RuleSchemaFacts.
Import Scanner Assembler Walks RuleParser JsFacts.

Lemma get_throws (v : value) (k : string) :
  v = VNull \/ v = VUndef -> exists e, get v k = Throw e.
Proof. intros [-> | ->]; simpl; eauto. Qed.

Lemma get_of_defined (v : value) (k : string) :
  v <> VNull -> v <> VUndef -> get v k = Ok (get_own v k).
Proof. destruct v; simpl; congruence. Qed.

Lemma field_schema_throws (fieldDef : value) :
  fieldDef = VNull \/ fieldDef = VUndef ->
  exists e, field_schema fieldDef = Throw e.
Proof.
  intros H. unfold field_schema.
  destruct (get_throws fieldDef "type" H) as [e ->]. simpl. eauto.
Qed.

Lemma field_schema_ok (fieldDef : value) :
  fieldDef <> VNull -> fieldDef <> VUndef ->
  exists schema, field_schema fieldDef = Ok schema.
Proof.
  intros Hn Hu. unfold field_schema. rewrite !get_of_defined by assumption.
  simpl. eauto.
Qed.

Lemma field_schemas_throws (fields properties : list (string * value)) :
  (exists fieldName fieldDef,
     In (fieldName, fieldDef) fields /\
     (fieldDef = VNull \/ fieldDef = VUndef)) ->
  exists e, field_schemas properties fields = Throw e.
Proof.
  revert properties. induction fields as [|[k v] tl IH];
    intros properties [fieldName [fieldDef [Hin Hnull]]]; [destruct Hin|].
  cbn [field_schemas].
  destruct (field_schema v) as [schema|e] eqn:E; cbn [bind]; [|eauto].
  destruct Hin as [[= -> ->] | Hin].
  - destruct (field_schema_throws _ Hnull) as [e He]. congruence.
  - apply IH. eauto.
Qed.

Lemma field_schemas_ok (fields properties : list (string * value)) :
  (forall fieldName fieldDef,
     In (fieldName, fieldDef) fields ->
     fieldDef <> VNull /\ fieldDef <> VUndef) ->
  exists properties', field_schemas properties fields = Ok properties'.
Proof.
  revert properties. induction fields as [|[k v] tl IH];
    intros properties Hall; cbn [field_schemas]; [eauto|].
  destruct (Hall k v (or_introl eq_refl)) as [Hn Hu].
  destruct (field_schema_ok v Hn Hu) as [schema ->]. cbn [bind].
  apply IH. intros k' v' Hin. apply (Hall k' v'). now right.
Qed.

Lemma null_or_not (v : value) :
  (v = VNull \/ v = VUndef) \/ (v <> VNull /\ v <> VUndef).
Proof. destruct v; auto; right; split; discriminate. Qed.

Lemma null_field_or_none (fields : list (string * value)) :
  (exists fieldName fieldDef,
     In (fieldName, fieldDef) fields /\
     (fieldDef = VNull \/ fieldDef = VUndef)) \/
  (forall fieldName fieldDef,
     In (fieldName, fieldDef) fields ->
     fieldDef <> VNull /\ fieldDef <> VUndef).
Proof.
  induction fields as [|[k v] tl [[k' [v' [Hin H]]] | IH]].
  - right. intros ? ? [].
  - left. exists k', v'. split; [now right | exact H].
  - destruct (null_or_not v) as [H | H].
    + left. exists k, v. split; [now left | exact H].
    + right. intros k' v' [[= <- <-] | Hin]; [exact H | exact (IH k' v' Hin)].
Qed.

Lemma ruleToSchema_of_defined (rule : value) :
  rule <> VNull -> rule <> VUndef ->
  ruleToSchema rule =
  (properties <-
     (if truthy (get_own rule "fields")
      then field_schemas [] (entries (get_own rule "fields"))
      else Ok []) ;;
   Ok (VObj [("type", VStr "object");
             ("title", or_else (get_own rule "name") (get_own rule "id"));
             ("description", get_own rule "description");
             ("properties", VObj properties)])).
Proof.
  intros Hn Hu. unfold ruleToSchema, or_else.
  rewrite !get_of_defined by assumption. cbn [bind].
  destruct (truthy (get_own rule "name")); reflexivity.
Qed.

(** X7: Turning a rule definition into a schema throws exactly when the
    rule is [null] or [undefined], or when it has fields and the
    definition of one of them is [null] or [undefined]; in every other
    case a schema is returned. *)
Theorem ruleToSchema_throws_iff (rule : value) :
  (exists e, ruleToSchema rule = Throw e) <->
  rule = VNull \/ rule = VUndef \/
  (truthy (get_own rule "fields") = true /\
   exists fieldName fieldDef,
     In (fieldName, fieldDef) (entries (get_own rule "fields")) /\
     (fieldDef = VNull \/ fieldDef = VUndef)).
Proof.
  destruct (null_or_not rule) as [[-> | ->] | [Hn Hu]].
  - split; [intros _; now left | intros _; eexists; reflexivity].
  - split; [intros _; right; now left | intros _; eexists; reflexivity].
  - rewrite (ruleToSchema_of_defined rule Hn Hu). split.
    + intros [e He]. right. right.
      destruct (truthy (get_own rule "fields")) eqn:Et; [|discriminate].
      split; [reflexivity|].
      destruct (null_field_or_none (entries (get_own rule "fields")))
        as [H | H]; [exact H|].
      destruct (field_schemas_ok _ [] H) as [ps Hps].
      rewrite Hps in He. discriminate.
    + intros [-> | [-> | [Et H]]]; try contradiction.
      rewrite Et.
      destruct (field_schemas_throws _ [] H) as [e ->]. cbn [bind]. eauto.
Qed.

Section Parse.

Variable read_text : string -> option string.
Variable yaml_parse : string -> result value.
Variable json_parse : string -> result value.
Variable schemas : list (string * value).


End Parse.


End RuleSchemaFacts.

(* ===================================================================== *)
(** * A minimum that is not a number *)
(* ===================================================================== *)

Module ThresholdFacts.
Import Assembler.

Lemma geq_nan (x : float) : Auditor.geq x nan = false.
Proof. unfold Auditor.geq. rewrite leb_spec. reflexivity. Qed.

(** X24: When the configured minimum is not a number, which is what
    [parseFloat] makes of a missing or unreadable value of [--min], no
    percentage reaches it: the audit exits with 1 for every contract. *)
Theorem audit_fails_on_nan_minimum (readable : string -> bool)
    (config : Auditor.AuditConfig) (spec : Auditor.document) :
  Auditor.minThreshold config = nan ->
  Auditor.auditTraceability readable config spec = 1.
Proof.
  intros Hnan. unfold Auditor.auditTraceability.
  rewrite Hnan, geq_nan. cbn [negb]. now rewrite orb_true_r.
Qed.

Lemma audit_fails_on_nan_minimum_witness :
  Auditor.auditTraceability (fun _ => true) (Auditor.config nan false)
    Auditor.two_methods_artifact = 1.
Proof.
  apply (audit_fails_on_nan_minimum (fun _ => true)
           (Auditor.config nan false) Auditor.two_methods_artifact).
  reflexivity.
Defined.

End ThresholdFacts.

(* ===================================================================== *)
(** * What the detector does not see *)
(* ===================================================================== *)

Module SilenceFacts.
Import Assembler Breaking JsFacts BreakingFacts.

Lemma flat_map_nil_iff {A B : Type} (f : A -> list B) (l : list A) :
  flat_map f l = [] <-> forall x, In x l -> f x = [].
Proof.
  induction l as [|a tl IH]; simpl.
  - split; [intros _ x [] | reflexivity].
  - split.
    + intros H. apply app_eq_nil in H as [Ha Htl].
      intros x [<- | Hx]; [exact Ha | now apply IH].
    + intros H. rewrite (H a (or_introl eq_refl)). apply IH.
      intros x Hx. apply H. now right.
Qed.

Lemma map_nil_iff {A B : Type} (f : A -> B) (l : list A) :
  map f l = [] <-> l = [].
Proof. destruct l; simpl; split; congruence. Qed.

Lemma app_nil_iff {A : Type} (l1 l2 : list A) :
  l1 ++ l2 = [] <-> l1 = [] /\ l2 = [].
Proof.
  split; [apply app_eq_nil | now intros [-> ->]].
Qed.

Lemma lookup_of_key {A : Type} (k : string) (kvs : list (string * A)) :
  In k (keys kvs) -> exists v, lookup k kvs = Some v.
Proof.
  intros H. destruct (lookup k kvs) as [v|] eqn:E; [eauto|].
  apply lookup_none_not_key in E. contradiction.
Qed.

Lemma changedResponses_nil_iff (newOp oldOp : operation) :
  changedResponses newOp oldOp = [] <->
  forall code,
    In code (keys_or_empty (op_responses newOp)) ->
    In code (keys_or_empty (op_responses oldOp)) ->
    stringify (get_own (op_responses newOp) code) =
    stringify (get_own (op_responses oldOp) code).
Proof.
  unfold changedResponses. rewrite TallyFacts.filter_nil_iff.
  split; intros H code Hnew.
  - intros Hold. specialize (H code Hnew).
    apply includes_key_iff in Hold. rewrite Hold in H. simpl in H.
    destruct (differs _ _) eqn:E; [discriminate|].
    destruct (stringify (get_own (op_responses newOp) code)) as [x|],
             (stringify (get_own (op_responses oldOp) code)) as [y|];
      simpl in E; try discriminate; [|reflexivity].
    apply negb_false_iff, String.eqb_eq in E. now subst.
  - destruct (includes_key _ code) eqn:Hold; [|reflexivity]. simpl.
    apply includes_key_iff in Hold. rewrite (H code Hnew Hold).
    apply RemovalFacts.differs_same.
Qed.

(** X22: The detector reports nothing exactly when no path of the previous
    contract is missing, no method of a path that is in both is missing,
    and no response that an operation has in both contracts differs in
    its serialized text. Whatever else differs goes unreported: a
    response that was removed, a parameter, a request body. *)
Theorem detector_silent_iff (newSpec previousSpec : document) :
  compare_specs newSpec previousSpec = [] <->
  (forall path,
     In path (keys (doc_paths previousSpec)) ->
     In path (keys (doc_paths newSpec))) /\
  (forall path oldItem newItem,
     lookup path (doc_paths previousSpec) = Some oldItem ->
     lookup path (doc_paths newSpec) = Some newItem ->
     (forall method, In method (keys oldItem) -> In method (keys newItem)) /\
     (forall method oldOp newOp,
        lookup method oldItem = Some oldOp ->
        lookup method newItem = Some newOp ->
        forall code,
          In code (keys_or_empty (op_responses newOp)) ->
          In code (keys_or_empty (op_responses oldOp)) ->
          stringify (get_own (op_responses newOp) code) =
          stringify (get_own (op_responses oldOp) code))).
Proof.
  unfold compare_specs.
  rewrite !app_nil_iff, map_nil_iff, TallyFacts.filter_nil_iff,
    !flat_map_nil_iff.
  split.
  - intros [[Hpaths Hops] Hchanged]. split.
    + intros path Hin. specialize (Hpaths path Hin).
      apply negb_false_iff in Hpaths. now apply includes_key_iff.
    + intros path oldItem newItem Hold Hnew.
      assert (Hin : In path (keys (doc_paths newSpec)))
        by (eapply lookup_key; eauto).
      specialize (Hops path Hin). specialize (Hchanged path Hin).
      rewrite Hold, Hnew in Hops, Hchanged. split.
      * apply map_nil_iff in Hops.
        rewrite TallyFacts.filter_nil_iff in Hops.
        intros method Hm. specialize (Hops method Hm).
        apply negb_false_iff in Hops. now apply includes_key_iff.
      * rewrite flat_map_nil_iff in Hchanged.
        intros method oldOp newOp Ho Hn.
        assert (Hm : In method (keys newItem)) by (eapply lookup_key; eauto).
        specialize (Hchanged method Hm). rewrite Ho, Hn in Hchanged.
        apply map_nil_iff in Hchanged. now apply changedResponses_nil_iff.
  - intros [Hpaths Hitems]. repeat split.
    + intros path Hin. apply negb_false_iff, includes_key_iff. auto.
    + intros path Hin.
      destruct (lookup path (doc_paths previousSpec)) as [oldItem|] eqn:Hold;
        [|reflexivity].
      destruct (lookup path (doc_paths newSpec)) as [newItem|] eqn:Hnew;
        [|reflexivity].
      destruct (Hitems path oldItem newItem Hold Hnew) as [Hm _].
      apply map_nil_iff, TallyFacts.filter_nil_iff. intros method Hin'.
      apply negb_false_iff, includes_key_iff. auto.
    + intros path Hin.
      destruct (lookup path (doc_paths previousSpec)) as [oldItem|] eqn:Hold;
        [|reflexivity].
      destruct (lookup path (doc_paths newSpec)) as [newItem|] eqn:Hnew;
        [|reflexivity].
      destruct (Hitems path oldItem newItem Hold Hnew) as [_ Hc].
      apply flat_map_nil_iff. intros method Hm.
      destruct (lookup method oldItem) as [oldOp|] eqn:Ho; [|reflexivity].
      destruct (lookup method newItem) as [newOp|] eqn:Hn; [|reflexivity].
      apply map_nil_iff, changedResponses_nil_iff. eauto.
Qed.

End SilenceFacts.

(* ================================================================== *)
(** * The tag pattern and the index of a corpus *)
(* ================================================================== *)

Module ExtractionFacts.
Import Js Scanner JsFacts ScannerFacts IndexFacts.
Local Open Scope string_scope.













Section Scan.

Variable read_text : string -> option string.



End Scan.




End ExtractionFacts.
